(** * Sileo: the toast store, the viewport timers and the widget state machine

    A shallow embedding of [src/toast.tsx] (store, toast API, [Toaster]
    timer management) and of the state logic of the [Sileo] component
    ([src/sileo.tsx]; the later revision of the same component in
    [src/unnamed/part_000] has the same logic for what is modelled from it
    and adds the swipe gesture).

    Conventions of the embedding.
    - JavaScript numbers that hold milliseconds or pixel heights are
      integers ([Z]).
    - An optional property [p?: T] is an [option T] ([None] = the key is
      absent); a property of type [T | null] that may also be absent is a
      [jsval T].
    - [ReactNode] payloads (description, icon) are opaque strings; a click
      handler is an opaque tag.
    - The module-level mutable objects ([store], [idCounter]), the refs of
      the mounted [Toaster] and the browser's timer queue are the fields of
      one explicit [world] that every operation threads through.
    - [Date.now()] and [Math.random()] are inputs: every call of
      [generateId] receives an [entropy] value. *)

From stdpp Require Import gmap strings list pretty.
From Stdlib Require Import ZArith Lia Ascii.

#[local] Open Scope Z_scope.

(** ** JavaScript values that may be [undefined] or [null] *)

Inductive jsval (A : Type) : Type :=
  | undefined
  | null
  | val (a : A).
Arguments undefined {A}.
Arguments null {A}.
Arguments val {A} a.

(** [x ?? y] *)
Definition nullish {A} (x y : jsval A) : jsval A :=
  match x with
  | val _ => x
  | _ => y
  end.

(** [x ?? y] on an optional property that cannot be [null]. *)
Definition orElse {A} (x y : option A) : option A :=
  match x with
  | Some _ => x
  | None => y
  end.

(** Truthiness of a string ([""] is falsy). *)
Definition truthy_str (s : string) : bool := negb (bool_decide (s = "")).

Module Toast.

(** ** Constants ([src/toast.tsx], lines 22-25) *)

Definition DEFAULT_DURATION : Z := 6000.
(** [DEFAULT_DURATION * 0.1] *)
Definition EXIT_DURATION : Z := DEFAULT_DURATION * 1 / 10.
(** [DEFAULT_DURATION * 0.025] *)
Definition AUTO_EXPAND_DELAY : Z := DEFAULT_DURATION * 25 / 1000.
Definition AUTO_COLLAPSE_DELAY : Z := DEFAULT_DURATION - 2000.

(** ** Types *)

Inductive ToastPosition :=
  | top_left | top_center | top_right
  | bottom_left | bottom_center | bottom_right.

(** ["success" | "loading" | "error" | "warning" | "info" | "action"] *)
Inductive SileoState := Success | Loading | Error | Warning | Info | Action.

#[global] Instance ToastPosition_eq_dec : EqDecision ToastPosition.
Proof. solve_decision. Defined.
#[global] Instance SileoState_eq_dec : EqDecision SileoState.
Proof. solve_decision. Defined.

Record ToastStyles := mkStyles {
  st_title : option string;
  st_description : option string;
  st_badge : option string;
  st_button : option string;
}.

Record ToastButton := mkButton {
  btn_title : string;
  btn_onClick : N;
}.

#[global] Instance jsval_eq_dec {A} `{EqDecision A} : EqDecision (jsval A).
Proof. solve_decision. Defined.
#[global] Instance ToastStyles_eq_dec : EqDecision ToastStyles.
Proof. solve_decision. Defined.
#[global] Instance ToastButton_eq_dec : EqDecision ToastButton.
Proof. solve_decision. Defined.

(** [autopilot?: boolean | { expand?: number; collapse?: number }] *)
Inductive autopilot_t :=
  | AutopilotBool (b : bool)
  | AutopilotCfg (expand collapse : option Z).

Record ToastOptions := mkOptions {
  o_title : option string;
  o_description : option string;
  o_position : option ToastPosition;
  o_duration : jsval Z;
  o_icon : jsval string;
  o_styles : option ToastStyles;
  o_fill : option string;
  o_roundness : option Z;
  o_autopilot : option autopilot_t;
  o_button : option ToastButton;
}.

(** [interface InternalToastOptions extends ToastOptions] *)
Record InternalToastOptions := mkInternal {
  io_opts : ToastOptions;
  io_id : option string;
  io_state : option SileoState;
}.

(** [interface ToastItem extends InternalToastOptions]; [exiting?: boolean]
    is only ever tested for truthiness, an absent flag is [false]. *)
Record ToastItem := mkItem {
  item_opts : ToastOptions;
  item_state : option SileoState;
  item_id : string;
  item_instanceId : string;
  item_exiting : bool;
  autoExpandDelayMs : option Z;
  autoCollapseDelayMs : option Z;
}.

Definition item_duration (t : ToastItem) : jsval Z := o_duration (item_opts t).
Definition item_position (t : ToastItem) : option ToastPosition :=
  o_position (item_opts t).

(** [{ ...t, exiting: true }] *)
Definition mark_exiting (t : ToastItem) : ToastItem :=
  {| item_opts := item_opts t; item_state := item_state t;
     item_id := item_id t; item_instanceId := item_instanceId t;
     item_exiting := true;
     autoExpandDelayMs := autoExpandDelayMs t;
     autoCollapseDelayMs := autoCollapseDelayMs t |}.

Definition empty_options : ToastOptions :=
  {| o_title := None; o_description := None; o_position := None;
     o_duration := undefined; o_icon := undefined; o_styles := None;
     o_fill := None; o_roundness := None; o_autopilot := None;
     o_button := None |}.

(** ** The browser's timer queue

    The two callbacks ever passed to [setTimeout] by [toast.tsx]:
    [() => dismissToast(item.id)] (line 294) and
    [() => store.update((prev) => prev.filter((t) => t.id !== id))]
    (line 117). *)

Inductive callback :=
  | CbDismiss (id : string)
  | CbRemove (id : string).

Record timeout := mkTimeout {
  handle : N;
  due : Z;
  cb : callback;
}.

#[global] Instance callback_eq_dec : EqDecision callback.
Proof. solve_decision. Defined.
#[global] Instance timeout_eq_dec : EqDecision timeout.
Proof. solve_decision. Defined.

Definition is_dismiss (tm : timeout) : bool :=
  match cb tm with CbDismiss _ => true | CbRemove _ => false end.

(** ** The world: store, id counter, timer queue and the refs of the
    mounted [Toaster] *)

Record world := mkWorld {
  toasts : list ToastItem;               (* store.toasts *)
  store_position : ToastPosition;        (* store.position *)
  store_options : option ToastOptions;   (* store.options *)
  idCounter : N;
  clock : Z;                             (* logical time, ms *)
  nextHandle : N;
  pending : list timeout;
  hoverRef : bool;
  timersRef : gmap string N;
  listRef : list ToastItem;
}.

Definition init : world :=
  {| toasts := []; store_position := top_right; store_options := None;
     idCounter := 0%N; clock := 0; nextHandle := 1%N; pending := [];
     hoverRef := false; timersRef := ∅; listRef := [] |}.

Definition set_toasts (l : list ToastItem) (w : world) : world :=
  {| toasts := l; store_position := store_position w;
     store_options := store_options w; idCounter := idCounter w;
     clock := clock w; nextHandle := nextHandle w; pending := pending w;
     hoverRef := hoverRef w; timersRef := timersRef w; listRef := listRef w |}.

Definition set_idCounter (c : N) (w : world) : world :=
  {| toasts := toasts w; store_position := store_position w;
     store_options := store_options w; idCounter := c;
     clock := clock w; nextHandle := nextHandle w; pending := pending w;
     hoverRef := hoverRef w; timersRef := timersRef w; listRef := listRef w |}.

Definition set_clock (c : Z) (w : world) : world :=
  {| toasts := toasts w; store_position := store_position w;
     store_options := store_options w; idCounter := idCounter w;
     clock := c; nextHandle := nextHandle w; pending := pending w;
     hoverRef := hoverRef w; timersRef := timersRef w; listRef := listRef w |}.

Definition set_pending (p : list timeout) (w : world) : world :=
  {| toasts := toasts w; store_position := store_position w;
     store_options := store_options w; idCounter := idCounter w;
     clock := clock w; nextHandle := nextHandle w; pending := p;
     hoverRef := hoverRef w; timersRef := timersRef w; listRef := listRef w |}.

Definition set_hoverRef (b : bool) (w : world) : world :=
  {| toasts := toasts w; store_position := store_position w;
     store_options := store_options w; idCounter := idCounter w;
     clock := clock w; nextHandle := nextHandle w; pending := pending w;
     hoverRef := b; timersRef := timersRef w; listRef := listRef w |}.

Definition set_timersRef (m : gmap string N) (w : world) : world :=
  {| toasts := toasts w; store_position := store_position w;
     store_options := store_options w; idCounter := idCounter w;
     clock := clock w; nextHandle := nextHandle w; pending := pending w;
     hoverRef := hoverRef w; timersRef := m; listRef := listRef w |}.

Definition set_listRef (l : list ToastItem) (w : world) : world :=
  {| toasts := toasts w; store_position := store_position w;
     store_options := store_options w; idCounter := idCounter w;
     clock := clock w; nextHandle := nextHandle w; pending := pending w;
     hoverRef := hoverRef w; timersRef := timersRef w; listRef := l |}.

(** The largest delay the browser's [setTimeout] keeps: it stores the delay
    as a 32-bit signed integer number of milliseconds, and runs the
    callback of a larger one without waiting. *)
Definition MAX_TIMEOUT_DELAY : Z := 2147483647.

(** [setTimeout(cb, delay)]: returns the handle. The callback is due
    [delay] ms from now, which is what the browser does for a whole number
    of milliseconds up to [MAX_TIMEOUT_DELAY]; the delays of this program
    are [EXIT_DURATION] and the durations of the toasts, and a statement
    about the instant at which a duration runs out bounds the duration. *)
Definition setTimeout (c : callback) (delay : Z) (w : world) : world * N :=
  ({| toasts := toasts w; store_position := store_position w;
      store_options := store_options w; idCounter := idCounter w;
      clock := clock w; nextHandle := (nextHandle w + 1)%N;
      pending := pending w ++ [mkTimeout (nextHandle w) (clock w + delay) c];
      hoverRef := hoverRef w; timersRef := timersRef w;
      listRef := listRef w |},
   nextHandle w).

(** [clearTimeout(h)] *)
Definition clearTimeout (h : N) (w : world) : world :=
  set_pending (filter (λ tm, handle tm ≠ h) (pending w)) w.

(** ** Ids (lines 100-104) *)

Record entropy := mkEntropy {
  now36 : string;    (* Date.now().toString(36) *)
  rand36 : string;   (* Math.random().toString(36).slice(2, 8) *)
}.

Definition render_id (c : N) (e : entropy) : string :=
  pretty c +:+ "-" +:+ now36 e +:+ "-" +:+ rand36 e.

Definition generateId (e : entropy) (w : world) : world * string :=
  let c := (idCounter w + 1)%N in
  (set_idCounter c w, render_id c e).

Definition timeoutKey (t : ToastItem) : string :=
  item_id t +:+ ":" +:+ item_instanceId t.


(** ** The viewport's timer management ([Toaster], lines 276-339) *)

(** [clearAllTimers] (lines 276-279): [clearTimeout] on every handle of the
    map, then [timersRef.current.clear()]. *)
Definition clearAllTimers (w : world) : world :=
  let hs := (map_to_list (timersRef w)).*2 in
  set_timersRef ∅
    (set_pending (filter (λ tm, handle tm ∉ hs) (pending w)) w).

(** [item.duration ?? DEFAULT_DURATION] *)
Definition resolved_duration (d : jsval Z) : jsval Z :=
  nullish d (val DEFAULT_DURATION).

(** One iteration of the loop of [schedule] (lines 284-296). *)
Definition schedule_item (w : world) (item : ToastItem) : world :=
  if item_exiting item then w
  else
    let key := timeoutKey item in
    if bool_decide (is_Some (timersRef w !! key)) then w
    else
      match resolved_duration (item_duration item) with
      | val dur =>
          if bool_decide (dur ≤ 0) then w
          else
            let '(w1, h) := setTimeout (CbDismiss (item_id item)) dur w in
            set_timersRef (<[key := h]> (timersRef w1)) w1
      | _ => w   (* dur === null *)
      end.

(** [schedule] (lines 281-297) *)
Definition schedule (items : list ToastItem) (w : world) : world :=
  if hoverRef w then w else foldl schedule_item w items.

(** The effect that runs whenever the rendered list changes
    (lines 310-323): record the list, clear and forget the timers whose
    key belongs to no toast of the list, then [schedule]. *)
Definition timer_effect (l : list ToastItem) (w : world) : world :=
  let w1 := set_listRef l w in
  let toastKeys := timeoutKey <$> l in
  let stale :=
    (map_to_list (filter (λ kv, kv.1 ∉ toastKeys) (timersRef w1))).*2 in
  let w2 := set_pending (filter (λ tm, handle tm ∉ stale) (pending w1)) w1 in
  let w3 := set_timersRef (filter (λ kv, kv.1 ∈ toastKeys) (timersRef w2)) w2 in
  schedule l w3.

(** [handleMouseEnter] (lines 329-333) *)
Definition handleMouseEnter (w : world) : world :=
  if hoverRef w then w else clearAllTimers (set_hoverRef true w).

(** [handleMouseLeave] (lines 335-339) *)
Definition handleMouseLeave (w : world) : world :=
  if hoverRef w then
    let w1 := set_hoverRef false w in schedule (listRef w1) w1
  else w.

(** ** The store (lines 84-98)

    [store.update(fn)] replaces the list and emits; the listener of the
    mounted [Toaster] stores the new list in its state, which re-renders it
    and runs [timer_effect] on that list. *)
Definition store_update (fn : list ToastItem → list ToastItem) (w : world)
  : world :=
  let l := fn (toasts w) in
  timer_effect l (set_toasts l w).

(** ** Toast API *)

(** [store.toasts.find((t) => t.id === id)] *)
Definition find_id (i : string) (l : list ToastItem) : option ToastItem :=
  list_find (λ t, item_id t = i) l ≫= λ p, Some p.2.

(** [dismissToast] (lines 108-120) *)
Definition dismissToast (i : string) (w : world) : world :=
  match find_id i (toasts w) with
  | None => w
  | Some item =>
      if item_exiting item then w
      else
        let w1 :=
          store_update
            (map (λ t, if bool_decide (item_id t = i) then mark_exiting t else t))
            w in
        (setTimeout (CbRemove i) EXIT_DURATION w1).1
  end.

(** The callback of the exit timer (line 117). *)
Definition removeToast (i : string) (w : world) : world :=
  store_update (filter (λ t, item_id t ≠ i)) w.

(** [resolveAutopilot] (lines 122-133); the result is the pair
    [(expandDelayMs, collapseDelayMs)]. *)
Definition clamp (duration v : Z) : Z := Z.min duration (Z.max 0 v).

Definition resolveAutopilot (opts : ToastOptions) (duration : jsval Z)
  : option Z * option Z :=
  let off :=                               (* opts.autopilot === false *)
    match o_autopilot opts with
    | Some (AutopilotBool false) => true
    | _ => false
    end in
  let falsy :=                             (* !duration *)
    match duration with
    | val d => bool_decide (d = 0)
    | _ => true
    end in
  let nonpos :=                            (* duration <= 0 *)
    match duration with
    | val d => bool_decide (d ≤ 0)
    | _ => true
    end in
  if off || falsy || nonpos then (None, None)
  else
    let cfg :=              (* typeof opts.autopilot === "object" ? ... *)
      match o_autopilot opts with
      | Some (AutopilotCfg e c) => (e, c)
      | _ => (None, None)
      end in
    match duration with
    | val d =>
        (Some (clamp d (default AUTO_EXPAND_DELAY cfg.1)),
         Some (clamp d (default AUTO_COLLAPSE_DELAY cfg.2)))
    | _ => (None, None)
    end.

(** [{ ...a, ...b }] on style objects. *)
Definition merge_styles (a b : ToastStyles) : ToastStyles :=
  {| st_title := orElse (st_title b) (st_title a);
     st_description := orElse (st_description b) (st_description a);
     st_badge := orElse (st_badge b) (st_badge a);
     st_button := orElse (st_button b) (st_button a) |}.

Definition no_styles : ToastStyles := mkStyles None None None None.

(** [{ ...a, ...b }] on a property that may hold [null]: a key present in
    [b] wins, whatever its value. *)
Definition spread {A} (a b : jsval A) : jsval A :=
  match b with
  | undefined => a
  | _ => b
  end.

(** [{ ...store.options, ...options,
       styles: { ...store.options?.styles, ...options.styles } }]
    (lines 137-141 and 168-172). *)
Definition merge_options (defaults : option ToastOptions)
    (options : InternalToastOptions) : InternalToastOptions :=
  let d := default empty_options defaults in
  let o := io_opts options in
  {| io_opts :=
       {| o_title := orElse (o_title o) (o_title d);
          o_description := orElse (o_description o) (o_description d);
          o_position := orElse (o_position o) (o_position d);
          o_duration := spread (o_duration d) (o_duration o);
          o_icon := spread (o_icon d) (o_icon o);
          o_styles :=
            Some (merge_styles (default no_styles (o_styles d))
                               (default no_styles (o_styles o)));
          o_fill := orElse (o_fill o) (o_fill d);
          o_roundness := orElse (o_roundness o) (o_roundness d);
          o_autopilot := orElse (o_autopilot o) (o_autopilot d);
          o_button := orElse (o_button o) (o_button d) |};
     io_id := io_id options;
     io_state := io_state options |}.

(** [{ ...o, position: p }] *)
Definition with_position (p : option ToastPosition) (o : ToastOptions)
  : ToastOptions :=
  {| o_title := o_title o; o_description := o_description o;
     o_position := p; o_duration := o_duration o; o_icon := o_icon o;
     o_styles := o_styles o; o_fill := o_fill o;
     o_roundness := o_roundness o; o_autopilot := o_autopilot o;
     o_button := o_button o |}.

(** The object literal of lines 151-158 and 178-185. *)
Definition build_item (merged : InternalToastOptions) (i inst : string)
    (pos : option ToastPosition) : ToastItem :=
  let duration := resolved_duration (o_duration (io_opts merged)) in
  let auto := resolveAutopilot (io_opts merged) duration in
  {| item_opts := with_position pos (io_opts merged);
     item_state := io_state merged;
     item_id := i;
     item_instanceId := inst;
     item_exiting := false;
     autoExpandDelayMs := auto.1;
     autoCollapseDelayMs := auto.2 |}.

(** Everything [createToast] computes before it touches the store
    (lines 136-158): the world after the calls of [generateId] and the new
    item. [e1] feeds the call that makes up a stable id (when one is
    needed), [e2] the call for the instance id. *)
Definition new_item (options : InternalToastOptions) (e1 e2 : entropy)
    (w : world) : world * ToastItem :=
  let live := filter (λ t, item_exiting t = false) (toasts w) in
  let merged := merge_options (store_options w) options in
  let prev :=
    match io_id merged with
    | Some i => if truthy_str i then find_id i live else last live
    | None => last live
    end in
  let '(w1, i) :=
    match io_id merged, prev with
    | Some i, _ => (w, i)
    | None, Some p => (w, item_id p)
    | None, None => generateId e1 w
    end in
  let '(w2, inst) := generateId e2 w1 in
  let pos :=
    orElse (o_position (io_opts merged))
      (orElse (prev ≫= item_position) (Some (store_position w))) in
  (w2, build_item merged i inst pos).

(** [createToast] (lines 135-162); returns the world and [{ id, duration }]. *)
Definition createToast (options : InternalToastOptions) (e1 e2 : entropy)
    (w : world) : world * (string * jsval Z) :=
  let '(w2, item) := new_item options e1 e2 w in
  let merged := merge_options (store_options w) options in
  (store_update (λ _, [item]) w2,
   (item_id item, resolved_duration (o_duration (io_opts merged)))).

(** [updateToast] (lines 164-188) *)
Definition updateToast (i : string) (options : InternalToastOptions)
    (e : entropy) (w : world) : world :=
  match find_id i (toasts w) with
  | None => w
  | Some existing =>
      let merged := merge_options (store_options w) options in
      let '(w1, inst) := generateId e w in
      let pos :=
        orElse (o_position (io_opts merged))
          (orElse (item_position existing) (Some (store_position w))) in
      let item := build_item merged i inst pos in
      store_update (map (λ t, if bool_decide (item_id t = i) then item else t)) w1
  end.


(** ** The exported [sileo] object (lines 197-246)

    The wrappers are typed with [ToastOptions], whose declaration has no
    [id]; the object is passed on as it is, so the embedding takes the
    run-time object, an [InternalToastOptions]. *)

(** [{ ...opts, state: s }] *)
Definition with_state (s : SileoState) (opts : InternalToastOptions)
  : InternalToastOptions :=
  {| io_opts := io_opts opts; io_id := io_id opts; io_state := Some s |}.

Inductive settlement (T E : Type) : Type :=
  | Fulfilled (data : T)
  | Rejected (err : E).
Arguments Fulfilled {T E} data.
Arguments Rejected {T E} err.

(** [ToastOptions | ((x: A) => ToastOptions)] *)
Inductive opts_or_fn (A : Type) : Type :=
  | Static (o : ToastOptions)
  | Computed (f : A → ToastOptions).
Arguments Static {A} o.
Arguments Computed {A} f.

(** [typeof x === "function" ? x(a) : x] *)
Definition resolve_opts {A} (x : opts_or_fn A) (a : A) : ToastOptions :=
  match x with
  | Static o => o
  | Computed f => f a
  end.

(** [interface ToastPromiseOptions<T>]; [loading] is
    [Pick<ToastOptions, "title" | "icon">]. *)
Record ToastPromiseOptions (T E : Type) := mkPromiseOptions {
  p_loading_title : option string;
  p_loading_icon : jsval string;
  p_success : opts_or_fn T;
  p_error : opts_or_fn E;
  p_action : option (opts_or_fn T);
}.
Arguments p_loading_title {T E} _.
Arguments p_loading_icon {T E} _.
Arguments p_success {T E} _.
Arguments p_error {T E} _.
Arguments p_action {T E} _.

(** A promise is represented by its fate: [None] never settles. The
    argument of [sileo.promise] is a promise or a thunk that makes one. *)
Definition promise_t (T E : Type) : Type := option (settlement T E).

Inductive promise_arg (T E : Type) : Type :=
  | Direct (p : promise_t T E)
  | Thunk (f : unit → promise_t T E).
Arguments Direct {T E} p.
Arguments Thunk {T E} f.

Module sileo.

Definition show (opts : InternalToastOptions) e1 e2 w : world * string :=
  let r := createToast opts e1 e2 w in (r.1, r.2.1).
Definition success (opts : InternalToastOptions) e1 e2 w : world * string :=
  let r := createToast (with_state Success opts) e1 e2 w in (r.1, r.2.1).
Definition error (opts : InternalToastOptions) e1 e2 w : world * string :=
  let r := createToast (with_state Error opts) e1 e2 w in (r.1, r.2.1).
Definition warning (opts : InternalToastOptions) e1 e2 w : world * string :=
  let r := createToast (with_state Warning opts) e1 e2 w in (r.1, r.2.1).
Definition info (opts : InternalToastOptions) e1 e2 w : world * string :=
  let r := createToast (with_state Info opts) e1 e2 w in (r.1, r.2.1).
Definition action (opts : InternalToastOptions) e1 e2 w : world * string :=
  let r := createToast (with_state Action opts) e1 e2 w in (r.1, r.2.1).

(** The options of the loading toast (lines 211-215):
    [{ ...opts.loading, state: "loading", duration: null }]. *)
Definition loading_options {T E} (opts : ToastPromiseOptions T E)
  : InternalToastOptions :=
  {| io_opts :=
       {| o_title := p_loading_title opts; o_description := None;
          o_position := None; o_duration := null;
          o_icon := p_loading_icon opts; o_styles := None; o_fill := None;
          o_roundness := None; o_autopilot := None; o_button := None |};
     io_id := None;
     io_state := Some Loading |}.

(** The synchronous part of [promise] (lines 211-217 and 237): the loading
    toast is created, the promise is obtained and handed back. The result
    is the world, the id captured by the reactions and the returned
    promise. *)
Definition promise {T E} (p : promise_arg T E) (opts : ToastPromiseOptions T E)
    (e1 e2 : entropy) (w : world) : world * string * promise_t T E :=
  let r := createToast (loading_options opts) e1 e2 w in
  let p' := match p with Direct q => q | Thunk f => f () end in
  (r.1, r.2.1, p').

(** The reactions registered by [p.then(...).catch(...)] (lines 219-235),
    run when the promise settles. *)
Definition promise_settled {T E} (i : string) (opts : ToastPromiseOptions T E)
    (r : settlement T E) (e : entropy) (w : world) : world :=
  match r with
  | Fulfilled data =>
      match p_action opts with
      | Some a =>
          updateToast i
            {| io_opts := resolve_opts a data; io_id := Some i;
               io_state := Some Action |} e w
      | None =>
          updateToast i
            {| io_opts := resolve_opts (p_success opts) data; io_id := Some i;
               io_state := Some Success |} e w
      end
  | Rejected err =>
      updateToast i
        {| io_opts := resolve_opts (p_error opts) err; io_id := Some i;
           io_state := Some Error |} e w
  end.

Definition dismiss : string → world → world := dismissToast.

(** [clear] (lines 242-245) *)
Definition clear (position : option ToastPosition) (w : world) : world :=
  store_update
    (λ prev,
       match position with
       | Some p => filter (λ t, item_position t ≠ Some p) prev
       | None => []
       end) w.

End sileo.

(** ** Running the timer queue on the logical clock *)

(** The pending timeout that comes due first (the earliest registered one
    among equals). *)
Fixpoint next_due (l : list timeout) : option timeout :=
  match l with
  | [] => None
  | tm :: l' =>
      match next_due l' with
      | Some tm' => if bool_decide (due tm' < due tm) then Some tm' else Some tm
      | None => Some tm
      end
  end.

(** The timeout [tm] comes due: it leaves the queue and its callback runs. *)
Definition fire (tm : timeout) (w : world) : world :=
  let w1 :=
    set_clock (Z.max (clock w) (due tm))
      (set_pending (filter (λ x, handle x ≠ handle tm) (pending w)) w) in
  match cb tm with
  | CbDismiss i => dismissToast i w1
  | CbRemove i => removeToast i w1
  end.

(** Let the clock advance to [until], running every timeout that comes due
    on the way; each unit of fuel pays for one callback. *)
Fixpoint run (fuel : nat) (until : Z) (w : world) : world :=
  match next_due (pending w) with
  | Some tm =>
      if bool_decide (due tm ≤ until) then
        match fuel with
        | O => w
        | S n => run n until (fire tm w)
        end
      else set_clock (Z.max (clock w) until) w
  | None => set_clock (Z.max (clock w) until) w
  end.

(** No timeout is left that is due at [until] or before. *)
Definition settled_until (until : Z) (w : world) : Prop :=
  ∀ tm, tm ∈ pending w → until < due tm.

(** ** Whatever can happen to the world *)

Inductive event :=
  | EvCreate (options : InternalToastOptions) (e1 e2 : entropy)
  | EvUpdate (i : string) (options : InternalToastOptions) (e : entropy)
  | EvDismiss (i : string)
  | EvClear (position : option ToastPosition)
  | EvMouseEnter
  | EvMouseLeave
  | EvProps (position : ToastPosition) (options : option ToastOptions)
  | EvWait (d : Z)
  | EvFire (h : N).

Definition set_props (p : ToastPosition) (o : option ToastOptions) (w : world)
  : world :=
  {| toasts := toasts w; store_position := p; store_options := o;
     idCounter := idCounter w; clock := clock w; nextHandle := nextHandle w;
     pending := pending w; hoverRef := hoverRef w; timersRef := timersRef w;
     listRef := listRef w |}.

Definition step (ev : event) (w : world) : world :=
  match ev with
  | EvCreate o e1 e2 => (createToast o e1 e2 w).1
  | EvUpdate i o e => updateToast i o e w
  | EvDismiss i => dismissToast i w
  | EvClear p => sileo.clear p w
  | EvMouseEnter => handleMouseEnter w
  | EvMouseLeave => handleMouseLeave w
  | EvProps p o => set_props p o w            (* lines 270-273 *)
  | EvWait d => set_clock (clock w + Z.max 0 d) w
  | EvFire h =>
      match list_find (λ tm, handle tm = h) (pending w) with
      | Some (_, tm) => fire tm w
      | None => w
      end
  end.

Definition steps (evs : list event) (w : world) : world := foldl (λ w ev, step ev w) w evs.

Definition reachable (w : world) : Prop := ∃ evs, w = steps evs init.

(** ** Vocabulary of the statements *)

(** The fields of the world that the timer bookkeeping never writes. *)
Definition same_store (w w' : world) : Prop :=
  toasts w' = toasts w ∧ store_position w' = store_position w ∧
  store_options w' = store_options w ∧ idCounter w' = idCounter w ∧
  clock w' = clock w.

(** Clamping into [[0, duration]], case by case. *)
Definition clamp_spec (duration v : Z) : Z :=
  if bool_decide (v < 0) then 0
  else if bool_decide (duration < v) then duration
  else v.

(** [autopilot: false] *)
Definition autopilot_disabled (o : ToastOptions) : Prop :=
  o_autopilot o = Some (AutopilotBool false).

(** A duration that is [null], [0] or negative. *)
Definition not_positive (d : jsval Z) : Prop :=
  match d with
  | val x => x ≤ 0
  | _ => True
  end.

(** The configured overrides of the autopilot delays, or the defaults. *)
Definition expand_setting (o : ToastOptions) : Z :=
  match o_autopilot o with
  | Some (AutopilotCfg (Some v) _) => v
  | _ => AUTO_EXPAND_DELAY
  end.

Definition collapse_setting (o : ToastOptions) : Z :=
  match o_autopilot o with
  | Some (AutopilotCfg _ (Some v)) => v
  | _ => AUTO_COLLAPSE_DELAY
  end.

(** The two delays [e] and [c] are as they should be for the merged
    options [o] and the resolved duration [d]. *)
Definition autopilot_resolved (o : ToastOptions) (d : jsval Z)
    (e c : option Z) : Prop :=
  (e = None ∧ c = None ∧ (autopilot_disabled o ∨ not_positive d))
  ∨ (∃ x, d = val x ∧ 0 < x ∧ ¬ autopilot_disabled o ∧
       e = Some (clamp_spec x (expand_setting o)) ∧
       c = Some (clamp_spec x (collapse_setting o)) ∧
       0 ≤ clamp_spec x (expand_setting o) ≤ x ∧
       0 ≤ clamp_spec x (collapse_setting o) ≤ x).

(** [t] is a record that the call [createToast options] or the call
    [updateToast i options] has just put into the store of [w]. *)
Definition produced (w : world) (options : InternalToastOptions)
    (e1 e2 : entropy) (i : string) (t : ToastItem) : Prop :=
  t ∈ toasts (createToast options e1 e2 w).1
  ∨ (is_Some (find_id i (toasts w)) ∧
     t ∈ toasts (updateToast i options e2 w) ∧ item_id t = i).

(** [dismiss(i)] does nothing in [w]: no record has the id, or the record
    found is already exiting. *)
Definition unknown_or_exiting (i : string) (w : world) : Prop :=
  match find_id i (toasts w) with
  | None => True
  | Some t => item_exiting t = true
  end.

(** The exit timer that [dismissToast i] registers in [w]. *)
Definition exit_timer (i : string) (w : world) : timeout :=
  {| handle := nextHandle (store_update
                  (map (λ t, if bool_decide (item_id t = i)
                             then mark_exiting t else t)) w);
     due := clock w + EXIT_DURATION;
     cb := CbRemove i |}.

(** Every pending timeout of [w] other than [tm] is due after [until]. *)
Definition quiet_but (tm : timeout) (until : Z) (w : world) : Prop :=
  ∀ x, x ∈ pending w → x ≠ tm → until < due x.

(** ** Sample inputs *)

Definition e0 : entropy := mkEntropy "k2x9" "q1w2e3".

Definition titled (title : string) (d : jsval Z) : InternalToastOptions :=
  {| io_opts :=
       {| o_title := Some title; o_description := None; o_position := None;
          o_duration := d; o_icon := undefined; o_styles := None;
          o_fill := None; o_roundness := None; o_autopilot := None;
          o_button := None |};
     io_id := None; io_state := None |}.

(** [show({ title: "Saved", duration: 3000 })] on a fresh page. *)
Definition saved : world := (createToast (titled "Saved" (val 3000)) e0 e0 init).1.
Definition saved_item : ToastItem := (new_item (titled "Saved" (val 3000)) e0 e0 init).2.

(** ** Invariants of the reachable worlds *)

(** The timer queue and the viewport's map of handles agree. *)
Record timers_ok (w : world) : Prop := mkTimersOk {
  (** handles are handed out in increasing order *)
  pending_below : ∀ tm, tm ∈ pending w → (handle tm < nextHandle w)%N;
  pending_nodup : NoDup (handle <$> pending w);
  map_below : ∀ k h, timersRef w !! k = Some h → (h < nextHandle w)%N;
  (** no two keys share a handle *)
  map_inj : ∀ k1 k2 h,
    timersRef w !! k1 = Some h → timersRef w !! k2 = Some h → k1 = k2;
  (** every pending dismiss timer is held by the viewport *)
  dismiss_held : ∀ tm, tm ∈ pending w → is_dismiss tm = true →
    ∃ k, timersRef w !! k = Some (handle tm);
  (** and the viewport holds nothing but dismiss timers *)
  held_dismiss : ∀ k tm, timersRef w !! k = Some (handle tm) →
    tm ∈ pending w → is_dismiss tm = true;
}.

(** The viewport is in step with the store. *)
Record view_ok (w : world) : Prop := mkViewOk {
  list_synced : listRef w = toasts w;
  hover_empty : hoverRef w = true → timersRef w = ∅;
  keys_current : ∀ k, is_Some (timersRef w !! k) →
    k ∈ timeoutKey <$> toasts w;
}.

(** The store holds at most one record, whose instance id was generated
    from a counter value already used. *)
Record store_ok (w : world) : Prop := mkStoreOk {
  at_most_one : (length (toasts w) ≤ 1)%nat;
  instance_generated : ∀ t, t ∈ toasts w →
    ∃ c e, (c ≤ idCounter w)%N ∧ item_instanceId t = render_id c e;
}.

Definition wf (w : world) : Prop := timers_ok w ∧ view_ok w ∧ store_ok w.

(** The pending timeouts that the viewport holds under [key]. *)
Definition timers_for (key : string) (w : world) : list timeout :=
  filter (λ tm, timersRef w !! key = Some (handle tm)) (pending w).

(** The pending dismiss timers. *)
Definition dismiss_timers (w : world) : list timeout :=
  filter (λ tm, is_dismiss tm = true) (pending w).

(** What [schedule_item] does when it arms a timer: the dismiss timer of
    [item] with delay [d], held under the item's key. *)
Definition arm (item : ToastItem) (d : Z) (w : world) : world :=
  {| toasts := toasts w; store_position := store_position w;
     store_options := store_options w; idCounter := idCounter w;
     clock := clock w; nextHandle := (nextHandle w + 1)%N;
     pending :=
       pending w
       ++ [mkTimeout (nextHandle w) (clock w + d) (CbDismiss (item_id item))];
     hoverRef := hoverRef w;
     timersRef := <[timeoutKey item := nextHandle w]> (timersRef w);
     listRef := listRef w |}.

(** The delay of the dismiss timer of [t], if it is to have one: it is
    live and its duration, or the default when it has none, is positive. *)
Definition timer_delay (t : ToastItem) : option Z :=
  if item_exiting t then None
  else
    match resolved_duration (item_duration t) with
    | val d => if bool_decide (d ≤ 0) then None else Some d
    | _ => None
    end.

(** The string has no ["-"] in it. *)
Fixpoint dashless (s : string) : Prop :=
  match s with
  | EmptyString => True
  | String c s' => c ≠ "-"%char ∧ dashless s'
  end.

(** The timers around a record [old] whose content was replaced by [new],
    from the world [w] to the world [w']: the instance id is another one,
    the viewport holds nothing under the old key any more and no pending
    timeout has the old handle; under the new key it holds, when it is not
    hovered and the new record is to have a timer, exactly one timeout with
    a handle never used before, due a full delay from now, and none
    otherwise. *)
Definition replaced_timer (w w' : world) (old new : ToastItem) : Prop :=
  item_instanceId new ≠ item_instanceId old
  ∧ timersRef w' !! timeoutKey old = None
  ∧ (∀ h tm, timersRef w !! timeoutKey old = Some h →
       tm ∈ pending w' → handle tm ≠ h)
  ∧ timers_for (timeoutKey new) w'
    = if hoverRef w then []
      else
        match timer_delay new with
        | Some d =>
            [mkTimeout (nextHandle w) (clock w + d) (CbDismiss (item_id new))]
        | None => []
        end.

(** ** More sample worlds *)

(** [show({ title: "Saved", duration: null })] on a fresh page. *)
Definition sticky : world := (createToast (titled "Saved" null) e0 e0 init).1.

(** The pointer is over the toast of [saved]. *)
Definition hovered : world := handleMouseEnter saved.

(** The creation claim in the spec's words: every record of [before] is
    still there, unchanged, with the new one at the end, unless an id was
    given and a live record has it, which is then the one replaced. *)
Definition appended_or_replaced (explicit : option string)
    (before after : list ToastItem) : Prop :=
  match explicit ≫= λ i, find_id i (filter (λ t, item_exiting t = false) before) with
  | Some _ =>
      ∃ item, length after = length before
              ∧ ∀ k t, before !! k = Some t →
                  after !! k
                  = Some (if bool_decide (Some (item_id t) = explicit)
                          then item else t)
  | None => ∃ item, after = before ++ [item]
  end.

(** The last live record, whose id a create call without an id takes over. *)
Definition last_live (w : world) : option ToastItem :=
  last (filter (λ t, item_exiting t = false) (toasts w)).

(** ** Vocabulary of the promise flow *)

(** The state that a settled promise is shown in. *)
Definition settled_state {T E} (opts : ToastPromiseOptions T E)
    (r : settlement T E) : SileoState :=
  match r with
  | Fulfilled _ =>
      match p_action opts with
      | Some _ => Action
      | None => Success
      end
  | Rejected _ => Error
  end.

(** The options that a settled promise is shown with: the configured
    static value, or the configured function applied to the value or the
    error. *)
Definition settled_options {T E} (opts : ToastPromiseOptions T E)
    (r : settlement T E) : ToastOptions :=
  match r with
  | Fulfilled data =>
      match p_action opts with
      | Some a => resolve_opts a data
      | None => resolve_opts (p_success opts) data
      end
  | Rejected err => resolve_opts (p_error opts) err
  end.

(** The store shows the id [i] in state [st]. *)
Definition shown_as (i : string) (st : SileoState) (w : world) : Prop :=
  ∃ t, find_id i (toasts w) = Some t ∧ item_state t = Some st.

(** [promise(fetchUser(), { loading: { title: "Loading" },
      success: { title: "Done" }, error: { title: "Failed" } })] *)
Definition fetch_opts : ToastPromiseOptions unit string :=
  {| p_loading_title := Some "Loading"; p_loading_icon := undefined;
     p_success := Static (io_opts (titled "Done" undefined));
     p_error := Static (io_opts (titled "Failed" undefined));
     p_action := None |}.

Definition fetching : world * string * promise_t unit string :=
  sileo.promise (Direct (Some (Fulfilled ()))) fetch_opts e0 e0 init.

(** The loading toast was dismissed and its exit timer has run before the
    promise settles. *)
Definition abandoned : world :=
  run 1 600 (sileo.dismiss fetching.1.2 fetching.1.1).

(** ** The rest of the [Toaster] component *)

(** [latest] (lines 345-350): the loop runs from the end of the list to
    its start and returns the id of the first live record it meets. *)
Fixpoint first_live (l : list ToastItem) : option string :=
  match l with
  | [] => None
  | t :: l' => if item_exiting t then first_live l' else Some (item_id t)
  end.

Definition latest (l : list ToastItem) : option string := first_live (rev l).

(** The state behind [canExpand]: the [activeId] cell and [latestRef]. *)
Record expansion := mkExpansion {
  activeId : option string;
  latestRef : option string;
}.

(** The effect of lines 352-355, run when [latest] changes. *)
Definition syncLatest (l : list ToastItem) (v : expansion) : expansion :=
  {| activeId := latest l; latestRef := latest l |}.

(** The [enter] handler of a toast (lines 363-366), its part on
    [activeId]. *)
Definition enterToast (toastId : string) (v : expansion) : expansion :=
  {| activeId :=
       if bool_decide (activeId v = Some toastId) then activeId v
       else Some toastId;
     latestRef := latestRef v |}.

(** The [leave] handler of a toast (lines 367-372), its part on
    [activeId]. *)
Definition leaveToast (v : expansion) : expansion :=
  {| activeId :=
       if bool_decide (activeId v = latestRef v) then activeId v
       else latestRef v;
     latestRef := latestRef v |}.

(** [canExpand={activeId === undefined || activeId === item.id}]
    (line 459) *)
Definition canExpandOf (v : expansion) (item : ToastItem) : bool :=
  match activeId v with
  | None => true
  | Some a => bool_decide (a = item_id item)
  end.

(** [byPosition] (lines 403-415). The object [map] is a function from
    positions to arrays; [arr.push(t)] on the array stored under a
    position is an update of that entry. *)
Definition position_map : Type := ToastPosition → option (list ToastItem).

Definition position_map_set (m : position_map) (pos : ToastPosition)
    (arr : list ToastItem) : position_map :=
  λ p, if bool_decide (p = pos) then Some arr else m p.

Definition byPosition_step (position : ToastPosition) (m : position_map)
    (t : ToastItem) : position_map :=
  let pos := default position (item_position t) in
  match m pos with
  | Some arr => position_map_set m pos (arr ++ [t])
  | None => position_map_set m pos [t]
  end.

Definition byPosition (l : list ToastItem) (position : ToastPosition)
  : position_map :=
  foldl (byPosition_step position) (λ _, None) l.

(** [TOAST_POSITIONS] (lines 27-34) *)
Definition TOAST_POSITIONS : list ToastPosition :=
  [top_left; top_center; top_right; bottom_left; bottom_center; bottom_right].

(** [items?.length], as a condition *)
Definition has_items (items : option (list ToastItem)) : bool :=
  match items with
  | Some (_ :: _) => true
  | _ => false
  end.

(** The positions that get a [<section>] (lines 420-422): those whose
    group is there and not empty. *)
Definition rendered_positions (l : list ToastItem) (position : ToastPosition)
  : list ToastPosition :=
  filter (λ pos, has_items (byPosition l position pos) = true)
    TOAST_POSITIONS.

(** [getViewportStyle] (lines 380-400) *)
Inductive ToasterOffsetValue :=
  | OffsetNumber (n : Z)
  | OffsetString (s : string).

Record ToasterOffsetConfig := mkOffsetConfig {
  off_top : option ToasterOffsetValue;
  off_right : option ToasterOffsetValue;
  off_bottom : option ToasterOffsetValue;
  off_left : option ToasterOffsetValue;
}.

(** [offset?: ToasterOffsetValue | ToasterOffsetConfig] *)
Inductive ToasterOffset :=
  | OffsetAll (v : ToasterOffsetValue)
  | OffsetEdges (c : ToasterOffsetConfig).

(** The value of an inset. [px] turns a number [v] into the template
    literal [`${v}px`] and leaves a string as it is: [CssPx v] stands for
    that literal, the number as JavaScript prints it followed by [px], and
    keeps the number instead of its digits; [CssText s] is the string
    [s]. *)
Inductive css_length :=
  | CssPx (v : Z)
  | CssText (s : string).

Record viewport_style := mkViewportStyle {
  css_top : option css_length;
  css_bottom : option css_length;
  css_left : option css_length;
  css_right : option css_length;
}.

(** [typeof v === "number" ? `${v}px` : v] *)
Definition px (v : ToasterOffsetValue) : css_length :=
  match v with
  | OffsetNumber n => CssPx n
  | OffsetString s => CssText s
  end.

(** Truthiness of an offset value: [0] and [""] are falsy. *)
Definition truthy_offset (v : option ToasterOffsetValue) : bool :=
  match v with
  | Some (OffsetNumber n) => negb (bool_decide (n = 0))
  | Some (OffsetString s) => truthy_str s
  | None => false
  end.

Definition starts_top (pos : ToastPosition) : bool :=
  match pos with top_left | top_center | top_right => true | _ => false end.
Definition starts_bottom (pos : ToastPosition) : bool :=
  match pos with
  | bottom_left | bottom_center | bottom_right => true
  | _ => false
  end.
Definition ends_left (pos : ToastPosition) : bool :=
  match pos with top_left | bottom_left => true | _ => false end.
Definition ends_right (pos : ToastPosition) : bool :=
  match pos with top_right | bottom_right => true | _ => false end.

Definition getViewportStyle (offset : option ToasterOffset)
    (pos : ToastPosition) : option viewport_style :=
  match offset with
  | None => None
  | Some off =>
      let o :=
        match off with
        | OffsetEdges c => c
        | OffsetAll v =>
            {| off_top := Some v; off_right := Some v;
               off_bottom := Some v; off_left := Some v |}
        end in
      let edge (on : bool) (v : option ToasterOffsetValue)
          : option css_length :=
        if on && truthy_offset v then px <$> v else None in
      Some {| css_top := edge (starts_top pos) (off_top o);
              css_bottom := edge (starts_bottom pos) (off_bottom o);
              css_left := edge (ends_left pos) (off_left o);
              css_right := edge (ends_right pos) (off_right o) |}
  end.

(** ** The dismissal claim in the spec's words *)

(** After [dismiss(i)] in [w] the record of [i] is in the store at every
    instant before the exit delay has passed, and gone once it has. *)
Definition removed_on_time (i : string) (w : world) : Prop :=
  (∀ fuel until, until < clock w + EXIT_DURATION →
     is_Some (find_id i (toasts (run fuel until (dismissToast i w)))))
  ∧ ∃ fuel,
      find_id i (toasts (run fuel (clock w + EXIT_DURATION)
                           (dismissToast i w))) = None.

(** The state of the store and of the queue between a dismissal and the
    removal: the world is well formed, [tm] is the only exit timer for [i],
    and the store is the list [flagged] as long as [tm] is pending and empty
    once it has fired. *)
Definition exiting_alone (i : string) (tm : timeout)
    (flagged : list ToastItem) (w : world) : Prop :=
  wf w
  ∧ (∀ y, y ∈ pending w → cb y = CbRemove i → y = tm)
  ∧ (tm ∈ pending w → toasts w = flagged)
  ∧ (tm ∉ pending w → toasts w = []).

(** The toast of [saved] is dismissed at once, brought back by an update
    100 ms later, and it is now another 100 ms later. *)
Definition revived : world :=
  steps [EvDismiss (item_id saved_item); EvWait 100;
         EvUpdate (item_id saved_item) (titled "Done" undefined) e0;
         EvWait 100] saved.

(** The toast of [saved], 2700 ms after it was shown. *)
Definition late : world := steps [EvWait 2700] saved.

End Toast.

(** * The [Sileo] widget ([src/sileo.tsx])

    The component function is modelled by its state: the [useState] cells,
    the refs, and the timers it has armed. A handler or an effect changes
    the state, and the render that follows ([render]) runs the body of the
    component, which is where [frozenExpandedRef] is written. *)

Module Widget.

Import Toast.

(** ** Config (lines 28-35) *)

Definition HEIGHT : Z := 40.
Definition WIDTH : Z := 350.
Definition DEFAULT_ROUNDNESS : Z := 18.
Definition PILL_PADDING : Z := 10.
(** [HEIGHT * MIN_EXPAND_RATIO], with [MIN_EXPAND_RATIO = 2.25] *)
Definition minExpanded : Z := HEIGHT * 225 / 100.
Definition SWAP_COLLAPSE_MS : Z := 200.
Definition HEADER_EXIT_MS : Z := 150.

Record View := mkView {
  v_title : option string;
  v_description : option string;
  v_state : SileoState;
  v_icon : jsval string;
  v_styles : option ToastStyles;
  v_button : option ToastButton;
  v_fill : string;
}.

(** [SileoProps], after the defaults of the parameter list; [next] is the
    memoised view built from the props (lines 157-160). *)
Record Props := mkProps {
  id : string;
  next : View;
  exiting : bool;
  p_autoExpandDelayMs : option Z;
  p_autoCollapseDelayMs : option Z;
  canExpand : option bool;
  interruptKey : option string;
  refreshKey : option string;
}.

Record widget := mkWidget {
  view : View;
  applied : option string;
  isExpanded : bool;
  contentHeight : Z;
  frozenExpandedRef : Z;
  pendingRef : option (option string * View);
  lastRefreshKeyRef : option string;
  swapTimerRef : bool;              (* the swap timer is armed *)
  autoExpandRef : option Z;         (* armed auto-expand timer, its delay *)
  autoCollapseRef : option Z;       (* armed auto-collapse timer, its delay *)
}.

(** ** Derived values (lines 168-173 and 364-381) *)

(** [Boolean(view.description) || Boolean(view.button)] *)
Definition hasDesc (w : widget) : bool :=
  match v_description (view w) with
  | Some d => truthy_str d
  | None => false
  end
  || bool_decide (is_Some (v_button (view w))).

Definition isLoading (w : widget) : bool :=
  bool_decide (v_state (view w) = Loading).

Definition open (w : widget) : bool :=
  hasDesc w && isExpanded w && negb (isLoading w).

(** [isLoading ? false : (canExpand ?? (!interruptKey || interruptKey === id))] *)
Definition allowExpand (p : Props) (w : widget) : bool :=
  if isLoading w then false
  else
    match canExpand p with
    | Some b => b
    | None =>
        match interruptKey p with
        | Some k => negb (truthy_str k) || bool_decide (k = id p)
        | None => true
        end
    end.

Definition rawExpanded (w : widget) : Z :=
  if hasDesc w then Z.max minExpanded (HEIGHT + contentHeight w)
  else minExpanded.

Definition set_frozen (h : Z) (w : widget) : widget :=
  {| view := view w; applied := applied w; isExpanded := isExpanded w;
     contentHeight := contentHeight w; frozenExpandedRef := h;
     pendingRef := pendingRef w; lastRefreshKeyRef := lastRefreshKeyRef w;
     swapTimerRef := swapTimerRef w; autoExpandRef := autoExpandRef w;
     autoCollapseRef := autoCollapseRef w |}.

(** The part of the component body that writes a ref (lines 373-376). *)
Definition render (w : widget) : widget :=
  if open w then set_frozen (rawExpanded w) w else w.

(** [expanded], [svgHeight] and [expandedContent] as the body computes
    them (lines 378-380). *)
Definition expanded (w : widget) : Z :=
  if open w then rawExpanded w else frozenExpandedRef w.

Definition svgHeight (w : widget) : Z :=
  if hasDesc w then Z.max (expanded w) minExpanded else HEIGHT.

Definition expandedContent (w : widget) : Z := Z.max 0 (expanded w - HEIGHT).

(** ** Mount: the initial values of the state cells and refs, with the
    first render done. *)
Definition mount (p : Props) : widget :=
  let w0 :=
    {| view := next p; applied := refreshKey p; isExpanded := false;
       contentHeight := 0; frozenExpandedRef := 0;
       pendingRef := None; lastRefreshKeyRef := refreshKey p;
       swapTimerRef := false; autoExpandRef := None;
       autoCollapseRef := None |} in
  set_frozen (rawExpanded w0) w0.      (* useRef(rawExpanded) *)

(** ** Handlers, effects and timers *)

Definition set_isExpanded (b : bool) (w : widget) : widget :=
  {| view := view w; applied := applied w; isExpanded := b;
     contentHeight := contentHeight w;
     frozenExpandedRef := frozenExpandedRef w;
     pendingRef := pendingRef w; lastRefreshKeyRef := lastRefreshKeyRef w;
     swapTimerRef := swapTimerRef w; autoExpandRef := autoExpandRef w;
     autoCollapseRef := autoCollapseRef w |}.

Definition set_contentHeight (h : Z) (w : widget) : widget :=
  {| view := view w; applied := applied w; isExpanded := isExpanded w;
     contentHeight := h; frozenExpandedRef := frozenExpandedRef w;
     pendingRef := pendingRef w; lastRefreshKeyRef := lastRefreshKeyRef w;
     swapTimerRef := swapTimerRef w; autoExpandRef := autoExpandRef w;
     autoCollapseRef := autoCollapseRef w |}.

Definition set_auto (e c : option Z) (w : widget) : widget :=
  {| view := view w; applied := applied w; isExpanded := isExpanded w;
     contentHeight := contentHeight w;
     frozenExpandedRef := frozenExpandedRef w;
     pendingRef := pendingRef w; lastRefreshKeyRef := lastRefreshKeyRef w;
     swapTimerRef := swapTimerRef w; autoExpandRef := e;
     autoCollapseRef := c |}.

(** [handleEnter] (lines 423-429) *)
Definition handleEnter (w : widget) : widget :=
  if hasDesc w then set_isExpanded true w else w.

(** [handleLeave] (lines 431-437) *)
Definition handleLeave (w : widget) : widget := set_isExpanded false w.

(** The content measurement (lines 225-240): [h] is the [scrollHeight] of
    the content element, [None] when the element is missing. *)
Definition measure (h : option Z) (w : widget) : widget :=
  if hasDesc w then
    match h with
    | Some h' => set_contentHeight h' w
    | None => w
    end
  else set_contentHeight 0 w.

(** [setView(payload); setApplied(key); pendingRef.current = null], with
    the swap timer cleared. *)
Definition commit_view (key : option string) (payload : View) (w : widget)
  : widget :=
  {| view := payload; applied := key; isExpanded := isExpanded w;
     contentHeight := contentHeight w;
     frozenExpandedRef := frozenExpandedRef w;
     pendingRef := None; lastRefreshKeyRef := lastRefreshKeyRef w;
     swapTimerRef := false; autoExpandRef := autoExpandRef w;
     autoCollapseRef := autoCollapseRef w |}.

(** The refresh effect (lines 279-313). *)
Definition refresh (p : Props) (w : widget) : widget :=
  match refreshKey p with
  | None =>
      {| view := next p; applied := None; isExpanded := isExpanded w;
         contentHeight := contentHeight w;
         frozenExpandedRef := frozenExpandedRef w;
         pendingRef := None; lastRefreshKeyRef := None;
         swapTimerRef := swapTimerRef w; autoExpandRef := autoExpandRef w;
         autoCollapseRef := autoCollapseRef w |}
  | Some k =>
      if bool_decide (lastRefreshKeyRef w = Some k) then w
      else if open w then
        {| view := view w; applied := applied w; isExpanded := false;
           contentHeight := contentHeight w;
           frozenExpandedRef := frozenExpandedRef w;
           pendingRef := Some (Some k, next p);
           lastRefreshKeyRef := Some k;
           swapTimerRef := true; autoExpandRef := autoExpandRef w;
           autoCollapseRef := autoCollapseRef w |}
      else
        {| view := next p; applied := Some k; isExpanded := isExpanded w;
           contentHeight := contentHeight w;
           frozenExpandedRef := frozenExpandedRef w;
           pendingRef := None; lastRefreshKeyRef := Some k;
           swapTimerRef := false; autoExpandRef := autoExpandRef w;
           autoCollapseRef := autoCollapseRef w |}
  end.

(** The swap timer fires after [SWAP_COLLAPSE_MS] (lines 300-307). *)
Definition swapTimerFire (w : widget) : widget :=
  if swapTimerRef w then
    match pendingRef w with
    | Some (k, payload) => commit_view k payload w
    | None =>
        {| view := view w; applied := applied w; isExpanded := isExpanded w;
           contentHeight := contentHeight w;
           frozenExpandedRef := frozenExpandedRef w;
           pendingRef := None; lastRefreshKeyRef := lastRefreshKeyRef w;
           swapTimerRef := false; autoExpandRef := autoExpandRef w;
           autoCollapseRef := autoCollapseRef w |}
    end
  else w.

(** [handleTransitionEnd] for a height or transform transition
    (lines 439-457). *)
Definition handleTransitionEnd (w : widget) : widget :=
  if open w then w
  else
    match pendingRef w with
    | Some (k, payload) => commit_view k payload w
    | None => w
    end.

(** The auto expand/collapse effect (lines 317-360); the cleanup of its
    previous run has cleared both timers. *)
Definition autoEffect (p : Props) (w : widget) : widget :=
  let w0 := set_auto None None w in
  if negb (hasDesc w) then w0
  else if exiting p || negb (allowExpand p w) then set_isExpanded false w0
  else
    match p_autoExpandDelayMs p, p_autoCollapseDelayMs p with
    | None, None => w0
    | e, c =>
        let expandDelay := default 0 e in
        let collapseDelay := default 0 c in
        let w1 :=
          if bool_decide (0 < expandDelay)
          then set_auto (Some expandDelay) None w0
          else set_isExpanded true w0 in
        if bool_decide (0 < collapseDelay)
        then set_auto (autoExpandRef w1) (Some collapseDelay) w1
        else w1
    end.

(** The armed auto-expand timer fires: [setIsExpanded(true)]. *)
Definition autoExpandFire (w : widget) : widget :=
  match autoExpandRef w with
  | Some _ => set_isExpanded true (set_auto None (autoCollapseRef w) w)
  | None => w
  end.

(** The armed auto-collapse timer fires: [setIsExpanded(false)]. *)
Definition autoCollapseFire (w : widget) : widget :=
  match autoCollapseRef w with
  | Some _ => set_isExpanded false (set_auto (autoExpandRef w) None w)
  | None => w
  end.

Inductive event :=
  | EvEnter
  | EvLeave
  | EvMeasure (h : option Z)
  | EvRefresh (p : Props)
  | EvSwapTimer
  | EvTransitionEnd
  | EvAutoEffect (p : Props)
  | EvAutoExpand
  | EvAutoCollapse.

Definition handle_event (ev : event) (w : widget) : widget :=
  match ev with
  | EvEnter => handleEnter w
  | EvLeave => handleLeave w
  | EvMeasure h => measure h w
  | EvRefresh p => refresh p w
  | EvSwapTimer => swapTimerFire w
  | EvTransitionEnd => handleTransitionEnd w
  | EvAutoEffect p => autoEffect p w
  | EvAutoExpand => autoExpandFire w
  | EvAutoCollapse => autoCollapseFire w
  end.

(** An event followed by the render it causes. *)
Definition step (ev : event) (w : widget) : widget :=
  render (handle_event ev w).

Definition steps (evs : list event) (w : widget) : widget :=
  foldl (λ w ev, step ev w) w evs.

(** The widget is collapsed after every event of the trace. *)
Fixpoint closed_along (evs : list event) (w : widget) : bool :=
  match evs with
  | [] => true
  | ev :: evs' => negb (open (step ev w)) && closed_along evs' (step ev w)
  end.

(** ** Vocabulary of the statements *)

(** The render of the current state has been done: the ref holds what an
    open widget shows. *)
Definition rendered (w : widget) : Prop :=
  open w = true → frozenExpandedRef w = rawExpanded w.

(** The props give the right to expand to another notification. *)
Definition owned_by_other (p : Props) : Prop :=
  canExpand p = Some false
  ∨ (canExpand p = None
     ∧ ∃ k, interruptKey p = Some k ∧ truthy_str k = true ∧ k ≠ id p).

(** Hover-in leaves a widget with these props collapsed when another
    notification owns the right to expand. *)
Definition hover_blocked (p : Props) (w : widget) : Prop :=
  owned_by_other p → open (step EvEnter w) = false.

(** ** Sample widgets *)

Definition done_view : View :=
  {| v_title := Some "Done"; v_description := Some "All files uploaded";
     v_state := Success; v_icon := undefined; v_styles := None;
     v_button := None; v_fill := "#FFFFFF" |}.

Definition loading_view : View :=
  {| v_title := Some "Loading"; v_description := Some "Uploading";
     v_state := Loading; v_icon := undefined; v_styles := None;
     v_button := None; v_fill := "#FFFFFF" |}.

(** A toast with a description while another toast owns expansion. *)
Definition sidelined : Props :=
  {| id := "a"; next := done_view; exiting := false;
     p_autoExpandDelayMs := Some 150; p_autoCollapseDelayMs := Some 4000;
     canExpand := Some false; interruptKey := None;
     refreshKey := Some "1" |}.

Definition loading_props : Props :=
  {| id := "a"; next := loading_view; exiting := false;
     p_autoExpandDelayMs := Some 150; p_autoCollapseDelayMs := Some 4000;
     canExpand := Some true; interruptKey := None;
     refreshKey := Some "1" |}.

(** The content of the toast is replaced: a new refresh key and view. *)
Definition failed_view : View :=
  {| v_title := Some "Failed"; v_description := Some "Upload failed";
     v_state := Error; v_icon := undefined; v_styles := None;
     v_button := None; v_fill := "#FFFFFF" |}.

Definition replaced_props : Props :=
  {| id := "a"; next := failed_view; exiting := false;
     p_autoExpandDelayMs := Some 150; p_autoCollapseDelayMs := Some 4000;
     canExpand := Some true; interruptKey := None;
     refreshKey := Some "2" |}.

(** The same toast, hovered open with its content measured at 120px. *)
Definition opened : widget :=
  steps [EvMeasure (Some 120); EvEnter] (mount sidelined).

(** ** The header layer (lines 176 and 191-275) *)

#[global] Instance View_eq_dec : EqDecision View.
Proof. solve_decision. Defined.

Definition state_name (s : SileoState) : string :=
  match s with
  | Success => "success" | Loading => "loading" | Error => "error"
  | Warning => "warning" | Info => "info" | Action => "action"
  end.

(** [`${view.state}-${view.title}`] *)
Definition headerKey (v : View) : string :=
  state_name (v_state v) +:+ "-" +:+ default "undefined" (v_title v).

Record layer := mkLayer {
  l_key : string;
  l_view : View;
}.

#[global] Instance layer_eq_dec : EqDecision layer.
Proof. solve_decision. Defined.

Record headerLayer := mkHeaderLayer {
  current : layer;
  prev : option layer;
}.

(** The initial value of the cell (lines 191-194). *)
Definition initialHeader (v : View) : headerLayer :=
  {| current := mkLayer (headerKey v) v; prev := None |}.

(** The layout effect of lines 247-258, for the view [v]. The source
    compares the two view objects by identity; two views with the same
    content take either branch to the same value. *)
Definition updateHeader (v : View) (st : headerLayer) : headerLayer :=
  if bool_decide (l_key (current st) = headerKey v) then
    if bool_decide (l_view (current st) = v) then st
    else {| current := mkLayer (headerKey v) v; prev := prev st |}
  else {| current := mkLayer (headerKey v) v; prev := Some (current st) |}.

(** The exit timer fires after [HEADER_EXIT_MS] (lines 265-268). *)
Definition headerExit (st : headerLayer) : headerLayer :=
  {| current := current st; prev := None |}.

Inductive header_event :=
  | HeaderView (v : View)
  | HeaderExit.

Definition header_step (st : headerLayer) (ev : header_event) : headerLayer :=
  match ev with
  | HeaderView v => updateHeader v st
  | HeaderExit => headerExit st
  end.

(** ** The swipe gesture ([src/unnamed/part_000], lines 539-611)

    The later revision of the component adds dismissal by a vertical drag
    or by a tap. [clientY] is in whole pixels. The state is the start
    reference, the inline transform of the button ([None] is [""]) and
    whether the move and up listeners are attached; a handler also tells
    whether it has called [onDismiss]. *)

Definition SWIPE_DISMISS : Z := 30.
Definition SWIPE_MAX : Z := 20.

Record gesture := mkGesture {
  pointerStartRef : option Z;
  translateY : option Z;
  listening : bool;
}.

Definition idle : gesture :=
  {| pointerStartRef := None; translateY := None; listening := false |}.

(** What [handlePointerDown] looks at besides the event position. *)
Record swipe_props := mkSwipeProps {
  sw_exiting : bool;       (* exiting *)
  sw_onDismiss : bool;     (* onDismiss is given *)
  sw_dismiss : bool;       (* dismiss: close on tap *)
}.

(** [onMove] (lines 555-562) *)
Definition onMove (clientY : Z) (g : gesture) : gesture :=
  match pointerStartRef g with
  | None => g
  | Some start =>
      let dy := clientY - start in
      let sign := if bool_decide (0 < dy) then 1 else -1 in
      let clamped := Z.min (Z.abs dy) SWIPE_MAX * sign in
      {| pointerStartRef := pointerStartRef g; translateY := Some clamped;
         listening := listening g |}
  end.

(** [onUp] (lines 563-574); the second component tells whether
    [onDismiss] was called. *)
Definition onUp (p : swipe_props) (clientY : Z) (g : gesture)
  : gesture * bool :=
  match pointerStartRef g with
  | None => (g, false)
  | Some start =>
      let dy := clientY - start in
      (idle, bool_decide (SWIPE_DISMISS < Z.abs dy) && sw_onDismiss p)
  end.

(** [handlePointerDown] (lines 588-610); [on_button] tells whether the
    target is inside the action button. *)
Definition handlePointerDown (p : swipe_props) (on_button : bool)
    (clientY : Z) (g : gesture) : gesture * bool :=
  if sw_exiting p || negb (sw_onDismiss p) then (g, false)
  else if on_button then (g, false)
  else if sw_dismiss p then (g, true)
  else
    ({| pointerStartRef := Some clientY; translateY := translateY g;
        listening := true |}, false).

(** The listeners only run while they are attached. *)
Definition pointerMove (clientY : Z) (g : gesture) : gesture :=
  if listening g then onMove clientY g else g.

Definition pointerUp (p : swipe_props) (clientY : Z) (g : gesture)
  : gesture * bool :=
  if listening g then onUp p clientY g else (g, false).

Inductive pointer_event :=
  | PointerDown (on_button : bool) (clientY : Z)
  | PointerMove (clientY : Z)
  | PointerUp (clientY : Z).

(** A gesture state and the number of calls of [onDismiss] so far, through
    one pointer event. *)
Definition pointer_step (p : swipe_props) (st : gesture * nat)
    (ev : pointer_event) : gesture * nat :=
  match ev with
  | PointerDown b y =>
      let r := handlePointerDown p b y st.1 in
      (r.1, if r.2 then S st.2 else st.2)
  | PointerMove y => (pointerMove y st.1, st.2)
  | PointerUp y =>
      let r := pointerUp p y st.1 in
      (r.1, if r.2 then S st.2 else st.2)
  end.

Definition pointer_run (p : swipe_props) (evs : list pointer_event)
  : gesture * nat :=
  foldl (pointer_step p) (idle, 0%nat) evs.

(** The same when the props change between the events: every event comes
    with the props of the render before it ([onUp] reads [onDismissRef],
    which every render sets). *)
Definition pointer_trace (evs : list (swipe_props * pointer_event))
    (st : gesture * nat) : gesture * nat :=
  foldl (λ st pe, pointer_step pe.1 st pe.2) st evs.

Definition is_down (ev : pointer_event) : bool :=
  match ev with
  | PointerDown _ _ => true
  | _ => false
  end.

(** A drag that began at [start] is in progress. *)
Definition dragging (start : Z) (g : gesture) : Prop :=
  pointerStartRef g = Some start ∧ listening g = true.

(** The displacement shown for a pointer [dy] px from the start. *)
Definition shown_offset (dy c : Z) : Prop :=
  -SWIPE_MAX ≤ c ≤ SWIPE_MAX
  ∧ (Z.abs dy ≤ SWIPE_MAX → c = dy)
  ∧ (SWIPE_MAX < dy → c = SWIPE_MAX)
  ∧ (dy < -SWIPE_MAX → c = -SWIPE_MAX).

(** A toast that can be swiped away. *)
Definition swipeable : swipe_props :=
  {| sw_exiting := false; sw_onDismiss := true; sw_dismiss := false |}.

(** The same toast once it is on its way out. *)
Definition leaving : swipe_props :=
  {| sw_exiting := true; sw_onDismiss := true; sw_dismiss := false |}.

End Widget.

(** * Facts about the store and the toast API *)

Module ToastFacts.

Import Toast.

(** ** What the viewport's bookkeeping leaves alone *)

Section Frame.

Lemma same_store_refl w : same_store w w.
Proof. by repeat split. Qed.

Lemma same_store_trans w1 w2 w3 :
  same_store w1 w2 → same_store w2 w3 → same_store w1 w3.
Proof.
  intros (?&?&?&?&?) (?&?&?&?&?). repeat split; congruence.
Qed.

Lemma schedule_item_same_store w t : same_store w (schedule_item w t).
Proof.
  unfold schedule_item.
  destruct (item_exiting t); [apply same_store_refl|].
  case_bool_decide; [apply same_store_refl|].
  destruct (resolved_duration _); try apply same_store_refl.
  case_bool_decide; [apply same_store_refl|]. by repeat split.
Qed.

Lemma schedule_items_same_store l w :
  same_store w (foldl schedule_item w l).
Proof.
  revert w. induction l as [|t l IH]; intros w; simpl.
  - apply same_store_refl.
  - eapply same_store_trans; [apply schedule_item_same_store | apply IH].
Qed.

Lemma schedule_same_store l w : same_store w (schedule l w).
Proof.
  unfold schedule. destruct (hoverRef w);
    [apply same_store_refl | apply schedule_items_same_store].
Qed.

Lemma timer_effect_same_store l w : same_store w (timer_effect l w).
Proof.
  unfold timer_effect.
  eapply same_store_trans; [|apply schedule_same_store]. by repeat split.
Qed.

Lemma store_update_toasts fn w : toasts (store_update fn w) = fn (toasts w).
Proof.
  unfold store_update.
  by destruct (timer_effect_same_store (fn (toasts w))
                 (set_toasts (fn (toasts w)) w)) as (->&_).
Qed.

Lemma store_update_clock fn w : clock (store_update fn w) = clock w.
Proof.
  unfold store_update.
  by destruct (timer_effect_same_store (fn (toasts w))
                 (set_toasts (fn (toasts w)) w)) as (_&_&_&_&->).
Qed.

Lemma store_update_idCounter fn w :
  idCounter (store_update fn w) = idCounter w.
Proof.
  unfold store_update.
  by destruct (timer_effect_same_store (fn (toasts w))
                 (set_toasts (fn (toasts w)) w)) as (_&_&_&->&_).
Qed.

End Frame.

(** ** Looking a record up by id *)

Lemma find_id_None i l :
  find_id i l = None ↔ ∀ t, t ∈ l → item_id t ≠ i.
Proof.
  unfold find_id. split.
  - intros H t Ht Hi.
    destruct (list_find (λ t, item_id t = i) l) as [[k x]|] eqn:E; [done|].
    apply list_find_None in E. rewrite Forall_forall in E. by apply (E t).
  - intros H.
    destruct (list_find (λ t, item_id t = i) l) as [[k x]|] eqn:E; [|done].
    apply list_find_Some in E as (Hk & Hx & _).
    exfalso. apply (H x); [by eapply list_elem_of_lookup_2|done].
Qed.

Lemma find_id_Some i l t :
  find_id i l = Some t → t ∈ l ∧ item_id t = i.
Proof.
  unfold find_id.
  destruct (list_find (λ t, item_id t = i) l) as [[k x]|] eqn:E; [|done].
  simpl. intros [= <-].
  apply list_find_Some in E as (Hk & Hx & _).
  split; [by eapply list_elem_of_lookup_2|done].
Qed.


(** ** Autopilot delays *)

Lemma clamp_is_clamp_spec d v : 0 < d → clamp d v = clamp_spec d v.
Proof.
  intros Hd. unfold clamp, clamp_spec. repeat case_bool_decide; lia.
Qed.

Lemma clamp_spec_range d v : 0 < d → 0 ≤ clamp_spec d v ≤ d.
Proof.
  intros Hd. unfold clamp_spec. repeat case_bool_decide; lia.
Qed.

Lemma resolveAutopilot_resolved o d :
  autopilot_resolved o d (resolveAutopilot o d).1 (resolveAutopilot o d).2.
Proof.
  unfold autopilot_resolved, resolveAutopilot, autopilot_disabled,
    expand_setting, collapse_setting.
  destruct d as [| |x]; simpl.
  - left. rewrite orb_true_r. simpl. repeat split; by right.
  - left. rewrite orb_true_r. simpl. repeat split; by right.
  - destruct (decide (x ≤ 0)) as [Hx|Hx].
    + left. rewrite (bool_decide_eq_true_2 (x ≤ 0)) by done.
      rewrite orb_true_r. simpl. repeat split; by right.
    + rewrite (bool_decide_eq_false_2 (x ≤ 0)) by done.
      rewrite (bool_decide_eq_false_2 (x = 0)) by lia.
      rewrite !orb_false_r.
      destruct (o_autopilot o) as [[[|]|e c]|] eqn:Ha; simpl.
      * right. exists x. rewrite !clamp_is_clamp_spec by lia.
        repeat split; try done; try (apply clamp_spec_range; lia); lia.
      * left. repeat split; by left.
      * right. exists x. rewrite !clamp_is_clamp_spec by lia.
        destruct e, c; simpl;
          repeat split; try done; try (apply clamp_spec_range; lia); lia.
      * right. exists x. rewrite !clamp_is_clamp_spec by lia.
        repeat split; try done; try (apply clamp_spec_range; lia); lia.
Qed.

Lemma build_item_resolved merged i inst pos :
  let t := build_item merged i inst pos in
  autopilot_resolved (io_opts merged)
    (resolved_duration (o_duration (io_opts merged)))
    (autoExpandDelayMs t) (autoCollapseDelayMs t).
Proof. simpl. apply resolveAutopilot_resolved. Qed.

(** ** The shape of what [createToast] and [updateToast] store *)

Lemma new_item_is_built options e1 e2 w :
  ∃ i inst pos,
    (new_item options e1 e2 w).2
    = build_item (merge_options (store_options w) options) i inst pos.
Proof.
  unfold new_item, generateId.
  destruct (io_id (merge_options (store_options w) options)) as [j|];
    [|destruct (last _)]; simpl; eauto.
Qed.

Lemma createToast_toasts options e1 e2 w :
  toasts (createToast options e1 e2 w).1 = [(new_item options e1 e2 w).2].
Proof.
  unfold createToast. destruct (new_item options e1 e2 w) as [w2 item].
  simpl. by rewrite store_update_toasts.
Qed.

Lemma updateToast_unknown i options e w :
  find_id i (toasts w) = None → updateToast i options e w = w.
Proof. unfold updateToast. by intros ->. Qed.

Lemma updateToast_toasts i options e w existing :
  find_id i (toasts w) = Some existing →
  ∃ inst pos,
    toasts (updateToast i options e w)
    = map (λ t, if bool_decide (item_id t = i)
                then build_item (merge_options (store_options w) options)
                       i inst pos
                else t) (toasts w).
Proof.
  unfold updateToast. intros ->. simpl.
  eexists _, _. by rewrite store_update_toasts.
Qed.

(** C10. Every record that a create or an update call puts into the store
    has its two autopilot delays either both absent, exactly when the
    autopilot is switched off or the resolved duration is not positive, or
    both present and inside [[0, duration]], an override below 0 raised to
    0 and one above the duration lowered to it. *)
Theorem autopilot_delays_resolved w options e1 e2 i t :
  produced w options e1 e2 i t →
  let merged := io_opts (merge_options (store_options w) options) in
  autopilot_resolved merged (resolved_duration (o_duration merged))
    (autoExpandDelayMs t) (autoCollapseDelayMs t).
Proof.
  intros [Hc|(Hsome & Hu & Hid)] merged.
  - rewrite createToast_toasts in Hc. apply list_elem_of_singleton in Hc as ->.
    destruct (new_item_is_built options e1 e2 w) as (j & inst & pos & ->).
    apply build_item_resolved.
  - destruct Hsome as [existing Hex].
    destruct (updateToast_toasts i options e2 w existing Hex)
      as (inst & pos & Heq).
    rewrite Heq in Hu. apply list_elem_of_fmap in Hu as (t0 & -> & Ht0).
    case_bool_decide as Hi.
    + apply build_item_resolved.
    + done.
Qed.


Lemma autopilot_delays_resolved_witness :
  produced init (titled "Saved" (val 3000)) e0 e0 "" saved_item
  ∧ autopilot_resolved
      (io_opts (merge_options None (titled "Saved" (val 3000))))
      (val 3000) (Some 150) (Some 3000).
Proof.
  assert (H : produced init (titled "Saved" (val 3000)) e0 e0 "" saved_item).
  { left. vm_compute. constructor. }
  split; [exact H|].
  exact (autopilot_delays_resolved init _ e0 e0 "" saved_item H).
Defined.

(** ** Dismissal *)

(** C5. Dismissing an id that is unknown or whose record is already exiting
    changes nothing in the world, so the store is untouched and no removal
    is scheduled; updating an unknown id changes nothing either. Both are
    total functions: there is no failure to raise. *)
Theorem unknown_or_exiting_ignored w i :
  unknown_or_exiting i w →
  dismissToast i w = w
  ∧ (find_id i (toasts w) = None →
     ∀ options e, updateToast i options e w = w).
Proof.
  unfold unknown_or_exiting, dismissToast. intros H. split.
  - destruct (find_id i (toasts w)) as [t|]; [by rewrite H|done].
  - intros Hn options e. by apply updateToast_unknown.
Qed.

Lemma unknown_or_exiting_ignored_witness :
  (unknown_or_exiting "nobody" saved
   ∧ dismissToast "nobody" saved = saved
   ∧ updateToast "nobody" (titled "Late" undefined) e0 saved = saved)
  ∧ (unknown_or_exiting (item_id saved_item) (dismissToast (item_id saved_item) saved)
     ∧ dismissToast (item_id saved_item) (dismissToast (item_id saved_item) saved)
       = dismissToast (item_id saved_item) saved).
Proof.
  split.
  - assert (H : unknown_or_exiting "nobody" saved) by (vm_compute; exact I).
    destruct (unknown_or_exiting_ignored saved "nobody" H) as [Hd Hu].
    split; [exact H|]. split; [exact Hd|].
    apply Hu. vm_compute. reflexivity.
  - assert (H : unknown_or_exiting (item_id saved_item)
                  (dismissToast (item_id saved_item) saved))
      by (vm_compute; reflexivity).
    split; [exact H|].
    exact (proj1 (unknown_or_exiting_ignored _ _ H)).
Defined.


(** ** The timer queue *)

Lemma next_due_None l : next_due l = None → l = [].
Proof.
  destruct l as [|a l]; [done|]. simpl.
  destruct (next_due l); [by case_bool_decide|done].
Qed.

Lemma next_due_spec l tm :
  next_due l = Some tm → tm ∈ l ∧ ∀ x, x ∈ l → due tm ≤ due x.
Proof.
  revert tm. induction l as [|a l IH]; intros tm; simpl; [done|].
  destruct (next_due l) as [b|] eqn:E.
  - destruct (IH b eq_refl) as [Hb Hmin].
    case_bool_decide as Hlt; intros [= <-].
    + split; [by right|]. intros x [->|Hx]%elem_of_cons; [lia|auto].
    + split; [by left|]. intros x [->|Hx]%elem_of_cons; [lia|].
      specialize (Hmin x Hx). lia.
  - intros [= <-]. apply next_due_None in E as ->.
    split; [by left|]. by intros x ->%list_elem_of_singleton.
Qed.

Lemma run_idle fuel until w :
  (∀ x, x ∈ pending w → until < due x) →
  run fuel until w = set_clock (Z.max (clock w) until) w.
Proof.
  intros Hq.
  assert (H : match next_due (pending w) with
              | Some tm => bool_decide (due tm ≤ until) = false
              | None => True
              end).
  { destruct (next_due (pending w)) as [tm|] eqn:E; [|done].
    apply next_due_spec in E as [Hin _]. apply bool_decide_eq_false_2.
    specialize (Hq tm Hin). lia. }
  destruct fuel; simpl; destruct (next_due (pending w)); by rewrite ?H.
Qed.

Lemma run_fire fuel until w tm :
  next_due (pending w) = Some tm → due tm ≤ until →
  run (S fuel) until w = run fuel until (fire tm w).
Proof.
  intros E Hd. simpl. rewrite E. by rewrite bool_decide_eq_true_2.
Qed.

(** A timeout that the viewport's bookkeeping leaves in the queue was there
    before or comes due strictly later than now. *)
Lemma schedule_item_pending w t x :
  x ∈ pending (schedule_item w t) → x ∈ pending w ∨ clock w < due x.
Proof.
  unfold schedule_item.
  destruct (item_exiting t); [by left|].
  case_bool_decide; [by left|].
  destruct (resolved_duration _) as [| |d]; try by left.
  case_bool_decide as Hd; [by left|]. simpl.
  intros [Hx| ->%list_elem_of_singleton]%elem_of_app; [by left|].
  right. simpl. lia.
Qed.

Lemma schedule_items_pending l w x :
  x ∈ pending (foldl schedule_item w l) → x ∈ pending w ∨ clock w < due x.
Proof.
  revert w. induction l as [|t l IH]; intros w; simpl; [by left|].
  intros [Hx|Hx]%IH.
  - by apply schedule_item_pending in Hx.
  - right. by destruct (schedule_item_same_store w t) as (_&_&_&_&<-).
Qed.

Lemma schedule_pending l w x :
  x ∈ pending (schedule l w) → x ∈ pending w ∨ clock w < due x.
Proof.
  unfold schedule. destruct (hoverRef w); [by left|apply schedule_items_pending].
Qed.

Lemma timer_effect_pending l w x :
  x ∈ pending (timer_effect l w) → x ∈ pending w ∨ clock w < due x.
Proof.
  unfold timer_effect. intros [Hx|Hx]%schedule_pending; [|by right].
  left. simpl in Hx. by apply list_elem_of_filter in Hx as [_ Hx].
Qed.

Lemma store_update_pending fn w x :
  x ∈ pending (store_update fn w) → x ∈ pending w ∨ clock w < due x.
Proof. unfold store_update. by intros Hx%timer_effect_pending. Qed.

Lemma fire_remove_toasts tm w i :
  cb tm = CbRemove i →
  toasts (fire tm w) = filter (λ t, item_id t ≠ i) (toasts w).
Proof.
  intros Hcb. unfold fire. rewrite Hcb. unfold removeToast.
  by rewrite store_update_toasts.
Qed.

Lemma dismissToast_live w i t :
  find_id i (toasts w) = Some t → item_exiting t = false →
  dismissToast i w
  = (setTimeout (CbRemove i) EXIT_DURATION
       (store_update
          (map (λ t, if bool_decide (item_id t = i) then mark_exiting t else t))
          w)).1.
Proof. unfold dismissToast. by intros -> ->. Qed.

Lemma filter_flagged i (l : list ToastItem) :
  filter (λ t, item_id t ≠ i)
    (map (λ t, if bool_decide (item_id t = i) then mark_exiting t else t) l)
  = filter (λ t, item_id t ≠ i) l.
Proof.
  induction l as [|a l IH]; [done|]. simpl.
  case_bool_decide as Ha.
  - rewrite !filter_cons. simpl. rewrite !decide_False by (by intros []).
    done.
  - rewrite !filter_cons. rewrite !decide_True by done. by rewrite IH.
Qed.


Lemma EXIT_DURATION_ms : EXIT_DURATION = 600.
Proof. reflexivity. Qed.

Lemma exit_timer_due i w : due (exit_timer i w) = clock w + 600.
Proof. reflexivity. Qed.

Lemma exit_timer_cb i w : cb (exit_timer i w) = CbRemove i.
Proof. reflexivity. Qed.

Lemma dismissToast_live_pending w i t :
  find_id i (toasts w) = Some t → item_exiting t = false →
  pending (dismissToast i w)
  = pending (store_update
               (map (λ t, if bool_decide (item_id t = i)
                          then mark_exiting t else t)) w)
    ++ [exit_timer i w].
Proof.
  intros Hfind Hlive. rewrite (dismissToast_live w i t Hfind Hlive).
  unfold setTimeout, exit_timer. simpl. by rewrite store_update_clock.
Qed.

Lemma dismissToast_live_toasts w i t :
  find_id i (toasts w) = Some t → item_exiting t = false →
  toasts (dismissToast i w)
  = map (λ t, if bool_decide (item_id t = i) then mark_exiting t else t)
      (toasts w).
Proof.
  intros Hfind Hlive. rewrite (dismissToast_live w i t Hfind Hlive).
  unfold setTimeout. simpl. by rewrite store_update_toasts.
Qed.

Lemma dismissToast_live_clock w i t :
  find_id i (toasts w) = Some t → item_exiting t = false →
  clock (dismissToast i w) = clock w.
Proof.
  intros Hfind Hlive. rewrite (dismissToast_live w i t Hfind Hlive).
  unfold setTimeout. simpl. by rewrite store_update_clock.
Qed.

(** The exit timer on the clock: with nothing else due by then, the store
    is untouched before the timer's instant and filtered at it. *)
Lemma exit_timer_runs w' tm i (deadline : Z) :
  tm ∈ pending w' → due tm = deadline → cb tm = CbRemove i →
  clock w' ≤ deadline →
  quiet_but tm deadline w' →
  (∀ fuel until, until < deadline → toasts (run fuel until w') = toasts w')
  ∧ (∀ fuel, toasts (run (S fuel) deadline w')
             = filter (λ t, item_id t ≠ i) (toasts w')).
Proof.
  intros Hin Hdue Hcb Hclock Hquiet. split.
  - intros fuel until Hlt. rewrite run_idle; [done|].
    intros x Hx. destruct (decide (x = tm)) as [->|Hne]; [lia|].
    specialize (Hquiet x Hx Hne). lia.
  - intros fuel.
    assert (Hnext : next_due (pending w') = Some tm).
    { destruct (next_due (pending w')) as [tm'|] eqn:E.
      - destruct (next_due_spec _ _ E) as [Hin' Hmin].
        destruct (decide (tm' = tm)) as [->|Hne]; [done|].
        specialize (Hquiet tm' Hin' Hne). specialize (Hmin tm Hin). lia.
      - apply next_due_None in E. rewrite E in Hin.
        by apply elem_of_nil in Hin. }
    rewrite (run_fire _ _ _ tm Hnext) by lia.
    rewrite run_idle.
    + simpl. by rewrite (fire_remove_toasts tm w' i).
    + intros x Hx. unfold fire in Hx. rewrite Hcb in Hx.
      unfold removeToast in Hx.
      apply store_update_pending in Hx as [Hx|Hx]; simpl in Hx.
      * apply list_elem_of_filter in Hx as [Hh Hx].
        apply Hquiet; [done|]. by intros ->.
      * lia.
Qed.

(** ** What [schedule] does *)

Lemma schedule_item_cases w t :
  match timer_delay t with
  | Some d =>
      if bool_decide (is_Some (timersRef w !! timeoutKey t))
      then schedule_item w t = w
      else schedule_item w t = arm t d w
  | None => schedule_item w t = w
  end.
Proof.
  unfold schedule_item, timer_delay.
  destruct (item_exiting t); [done|].
  destruct (resolved_duration (item_duration t)) as [| |d];
    try by case_bool_decide.
  destruct (bool_decide (d ≤ 0)); by case_bool_decide.
Qed.

Lemma handles_in_map (m : gmap string N) h :
  h ∈ (map_to_list m).*2 ↔ ∃ k, m !! k = Some h.
Proof.
  rewrite list_elem_of_fmap. split.
  - intros ([k h'] & -> & Hin). exists k. by apply elem_of_map_to_list.
  - intros (k & Hk). exists (k, h). split; [done|].
    by apply elem_of_map_to_list.
Qed.


(** ** The queue and the map of handles stay in agreement *)

Section TimersOk.

Lemma timers_ok_ext w w' :
  pending w' = pending w → timersRef w' = timersRef w →
  nextHandle w' = nextHandle w → timers_ok w → timers_ok w'.
Proof.
  intros Hp Hm Hn [H1 H2 H3 H4 H5 H6].
  split; rewrite ?Hp, ?Hm, ?Hn; auto.
Qed.

Lemma NoDup_handles_filter (P : timeout → Prop) `{∀ x, Decision (P x)}
    (l : list timeout) :
  NoDup (handle <$> l) → NoDup (handle <$> filter P l).
Proof.
  intros Hnd. eapply sublist_NoDup; [exact Hnd|].
  apply fmap_sublist, sublist_filter.
Qed.

Lemma fresh_handle_not_pending w :
  timers_ok w → nextHandle w ∉ handle <$> pending w.
Proof.
  intros Hok (tm & Heq & Hin)%list_elem_of_fmap.
  apply (pending_below w Hok) in Hin. lia.
Qed.

Lemma timers_ok_arm w t d :
  timers_ok w → timersRef w !! timeoutKey t = None → timers_ok (arm t d w).
Proof.
  intros Hok Hnone. pose proof Hok as [H1 H2 H3 H4 H5 H6].
  split; simpl.
  - intros tm [Hin| ->%list_elem_of_singleton]%elem_of_app.
    + specialize (H1 tm Hin). lia.
    + simpl. lia.
  - rewrite fmap_app. simpl. apply NoDup_app. split; [done|].
    split; [|apply NoDup_singleton].
    intros h Hh ->%list_elem_of_singleton.
    by apply (fresh_handle_not_pending w Hok).
  - intros k h. rewrite lookup_insert. case_decide.
    + intros [= <-]. lia.
    + intros Hk. specialize (H3 k h Hk). lia.
  - intros k1 k2 h. rewrite !lookup_insert.
    repeat case_decide; subst; try done.
    + intros [= <-] Hk. specialize (H3 _ _ Hk). lia.
    + intros Hk [= <-]. specialize (H3 _ _ Hk). lia.
    + apply H4.
  - intros tm [Hin| ->%list_elem_of_singleton]%elem_of_app Hd.
    + destruct (H5 tm Hin Hd) as [k Hk]. exists k.
      rewrite lookup_insert_ne; [done|]. intros <-. congruence.
    + exists (timeoutKey t). simpl. by rewrite lookup_insert_eq.
  - intros k tm. rewrite lookup_insert. case_decide.
    + intros [= Hh] [Hin| ->%list_elem_of_singleton]%elem_of_app; [|done].
      specialize (H1 tm Hin). lia.
    + intros Hk [Hin| ->%list_elem_of_singleton]%elem_of_app.
      * by apply (H6 k).
      * simpl in Hk. specialize (H3 _ _ Hk). lia.
Qed.

(** Dropping the keys outside [P] from the map, and their timers from
    the queue. *)
Lemma timers_ok_prune (P : string * N → Prop) `{∀ kv, Decision (P kv)}
    w w' :
  nextHandle w' = nextHandle w →
  timersRef w' = filter P (timersRef w) →
  pending w'
  = filter (λ tm, handle tm ∉
              (map_to_list (filter (λ kv, ¬ P kv) (timersRef w))).*2)
      (pending w) →
  timers_ok w → timers_ok w'.
Proof.
  intros Hn Hm Hp [H1 H2 H3 H4 H5 H6].
  split; rewrite ?Hn, ?Hm, ?Hp.
  - intros tm [_ Hin]%list_elem_of_filter. auto.
  - by apply NoDup_handles_filter.
  - intros k h [Hk _]%map_lookup_filter_Some. eauto.
  - intros k1 k2 h [Hk1 _]%map_lookup_filter_Some
      [Hk2 _]%map_lookup_filter_Some. eauto.
  - intros tm [Hout Hin]%list_elem_of_filter Hd.
    destruct (H5 tm Hin Hd) as [k Hk]. exists k.
    apply map_lookup_filter_Some. split; [done|].
    destruct (decide (P (k, handle tm))) as [|HnP]; [done|].
    exfalso. apply Hout. apply handles_in_map. exists k.
    by apply map_lookup_filter_Some.
  - intros k tm [Hk _]%map_lookup_filter_Some [_ Hin]%list_elem_of_filter.
    by apply (H6 k).
Qed.

Lemma timers_ok_clearAllTimers w : timers_ok w → timers_ok (clearAllTimers w).
Proof.
  intros [H1 H2 H3 H4 H5 H6]. unfold clearAllTimers. split; simpl.
  - intros tm [_ Hin]%list_elem_of_filter. auto.
  - by apply NoDup_handles_filter.
  - intros k h. by rewrite lookup_empty.
  - intros k1 k2 h. by rewrite lookup_empty.
  - intros tm [Hout Hin]%list_elem_of_filter Hd.
    destruct (H5 tm Hin Hd) as [k Hk].
    exfalso. apply Hout. apply handles_in_map. by exists k.
  - intros k tm. by rewrite lookup_empty.
Qed.

Lemma timers_ok_exit_timer w i delay :
  timers_ok w → timers_ok (setTimeout (CbRemove i) delay w).1.
Proof.
  intros Hok. pose proof Hok as [H1 H2 H3 H4 H5 H6].
  unfold setTimeout. split; simpl.
  - intros tm [Hin| ->%list_elem_of_singleton]%elem_of_app.
    + specialize (H1 tm Hin). lia.
    + simpl. lia.
  - rewrite fmap_app. simpl. apply NoDup_app. split; [done|].
    split; [|apply NoDup_singleton].
    intros h Hh ->%list_elem_of_singleton.
    by apply (fresh_handle_not_pending w Hok).
  - intros k h Hk. specialize (H3 k h Hk). lia.
  - exact H4.
  - intros tm [Hin| ->%list_elem_of_singleton]%elem_of_app Hd; [auto|done].
  - intros k tm Hk [Hin| ->%list_elem_of_singleton]%elem_of_app.
    + by apply (H6 k).
    + simpl in Hk. specialize (H3 _ _ Hk). lia.
Qed.

(** A timeout leaves the queue. *)
Lemma timers_ok_unqueue w h :
  timers_ok w →
  timers_ok (set_pending (filter (λ x, handle x ≠ h) (pending w)) w).
Proof.
  intros [H1 H2 H3 H4 H5 H6]. split; simpl.
  - intros tm [_ Hin]%list_elem_of_filter. auto.
  - by apply NoDup_handles_filter.
  - exact H3.
  - exact H4.
  - intros tm [_ Hin]%list_elem_of_filter Hd. auto.
  - intros k tm Hk [_ Hin]%list_elem_of_filter. by apply (H6 k).
Qed.

End TimersOk.


Section Bookkeeping.

Lemma timers_ok_schedule_item w t :
  timers_ok w → timers_ok (schedule_item w t).
Proof.
  intros Hok. pose proof (schedule_item_cases w t) as H.
  destruct (timer_delay t) as [d|]; [|by rewrite H].
  case_bool_decide as Hs; rewrite H; [done|].
  apply timers_ok_arm; [done|]. by apply eq_None_not_Some.
Qed.

Lemma timers_ok_schedule_items l w :
  timers_ok w → timers_ok (foldl schedule_item w l).
Proof.
  revert w. induction l as [|t l IH]; intros w Hok; simpl; [done|].
  by apply IH, timers_ok_schedule_item.
Qed.

Lemma timers_ok_schedule l w : timers_ok w → timers_ok (schedule l w).
Proof.
  unfold schedule. destruct (hoverRef w); [done|].
  apply timers_ok_schedule_items.
Qed.

Lemma timers_ok_timer_effect l w :
  timers_ok w → timers_ok (timer_effect l w).
Proof.
  intros Hok. unfold timer_effect. apply timers_ok_schedule.
  by eapply (timers_ok_prune (λ kv, kv.1 ∈ timeoutKey <$> l) w).
Qed.

Lemma timers_ok_store_update fn w :
  timers_ok w → timers_ok (store_update fn w).
Proof.
  intros Hok. unfold store_update. apply timers_ok_timer_effect.
  by apply (timers_ok_ext w).
Qed.

Lemma schedule_item_refs w t :
  hoverRef (schedule_item w t) = hoverRef w
  ∧ listRef (schedule_item w t) = listRef w.
Proof.
  pose proof (schedule_item_cases w t) as H.
  destruct (timer_delay t) as [d|]; [|by rewrite H].
  case_bool_decide; by rewrite H.
Qed.

Lemma schedule_items_refs l w :
  hoverRef (foldl schedule_item w l) = hoverRef w
  ∧ listRef (foldl schedule_item w l) = listRef w.
Proof.
  revert w. induction l as [|t l IH]; intros w; simpl; [done|].
  destruct (IH (schedule_item w t)) as [-> ->]. apply schedule_item_refs.
Qed.

Lemma schedule_refs l w :
  hoverRef (schedule l w) = hoverRef w ∧ listRef (schedule l w) = listRef w.
Proof.
  unfold schedule. destruct (hoverRef w) eqn:E; [done|].
  rewrite <-E. apply schedule_items_refs.
Qed.

Lemma schedule_items_keys (keys : list string) l w :
  (∀ k, is_Some (timersRef w !! k) → k ∈ keys) →
  (∀ t, t ∈ l → timeoutKey t ∈ keys) →
  ∀ k, is_Some (timersRef (foldl schedule_item w l) !! k) → k ∈ keys.
Proof.
  revert w. induction l as [|t l IH]; intros w Hw Hl; simpl; [done|].
  apply IH; [|intros t' Ht'; apply Hl; by right].
  intros k. pose proof (schedule_item_cases w t) as H.
  destruct (timer_delay t) as [d|]; [|rewrite H; auto].
  case_bool_decide; rewrite H; [auto|]. simpl.
  rewrite lookup_insert. case_decide as Hk; [|auto].
  intros _. subst k. apply Hl. by left.
Qed.

Lemma view_ok_timer_effect w :
  (hoverRef w = true → timersRef w = ∅) →
  view_ok (timer_effect (toasts w) w).
Proof.
  intros Hhover. unfold timer_effect.
  set (keys := timeoutKey <$> toasts w).
  set (w3 := set_timersRef _ _).
  assert (Htoasts : toasts (schedule (toasts w) w3) = toasts w).
  { by destruct (schedule_same_store (toasts w) w3) as (-> & _). }
  destruct (schedule_refs (toasts w) w3) as [Hh Hl].
  split.
  - by rewrite Hl, Htoasts.
  - rewrite Hh. simpl. intros Hov. unfold schedule. simpl. rewrite Hov.
    simpl. rewrite (Hhover Hov). apply map_filter_empty.
  - rewrite Htoasts. fold keys. unfold schedule.
    destruct (hoverRef w3) eqn:E.
    + simpl. intros k [h [_ Hk]%map_lookup_filter_Some]. done.
    + apply schedule_items_keys.
      * simpl. intros k [h [_ Hk]%map_lookup_filter_Some]. done.
      * intros t Ht. by apply list_elem_of_fmap_2.
Qed.

Lemma view_ok_store_update fn w :
  (hoverRef w = true → timersRef w = ∅) → view_ok (store_update fn w).
Proof.
  intros Hhover. unfold store_update.
  by apply (view_ok_timer_effect (set_toasts (fn (toasts w)) w)).
Qed.

Lemma view_ok_ext w w' :
  toasts w' = toasts w → listRef w' = listRef w →
  hoverRef w' = hoverRef w → timersRef w' = timersRef w →
  view_ok w → view_ok w'.
Proof.
  intros Ht Hl Hh Hm [H1 H2 H3]. split; rewrite ?Ht, ?Hl, ?Hh, ?Hm; auto.
Qed.

End Bookkeeping.


(** ** Every reachable world is well formed *)

Section WellFormed.

Lemma store_ok_from w w' :
  (idCounter w ≤ idCounter w')%N →
  (length (toasts w') ≤ 1)%nat →
  (∀ t, t ∈ toasts w' →
     ∃ t0, t0 ∈ toasts w ∧ item_instanceId t = item_instanceId t0) →
  store_ok w → store_ok w'.
Proof.
  intros Hc Hlen Hsub [H1 H2]. split; [done|].
  intros t Ht. destruct (Hsub t Ht) as (t0 & Ht0 & ->).
  destruct (H2 t0 Ht0) as (c & e & Hle & ->). exists c, e. split; [lia|done].
Qed.

Lemma new_item_world options e1 e2 w :
  ∃ c, (new_item options e1 e2 w).1 = set_idCounter c w
       ∧ (idCounter w < c)%N
       ∧ item_instanceId (new_item options e1 e2 w).2 = render_id c e2.
Proof.
  unfold new_item, generateId.
  destruct (io_id (merge_options (store_options w) options)) as [j|];
    [|destruct (last _)]; simpl;
    eexists; (split; [reflexivity|]); (split; [lia|reflexivity]).
Qed.

Lemma wf_store_update fn w :
  wf w →
  (length (fn (toasts w)) ≤ 1)%nat →
  (∀ t, t ∈ fn (toasts w) →
     ∃ t0, t0 ∈ toasts w ∧ item_instanceId t = item_instanceId t0) →
  wf (store_update fn w).
Proof.
  intros (Ht & Hv & Hs) Hlen Hsub. split; [|split].
  - by apply timers_ok_store_update.
  - apply view_ok_store_update. apply (hover_empty w Hv).
  - apply (store_ok_from w); [|by rewrite store_update_toasts| |done].
    + rewrite store_update_idCounter. lia.
    + intros t. rewrite store_update_toasts. auto.
Qed.

Lemma wf_createToast options e1 e2 w :
  wf w → wf (createToast options e1 e2 w).1.
Proof.
  intros (Ht & Hv & Hs). unfold createToast.
  destruct (new_item_world options e1 e2 w) as (c & Hw & Hc & Hinst).
  destruct (new_item options e1 e2 w) as [w2 item]. simpl in *. subst w2.
  split; [|split].
  - apply timers_ok_store_update. by apply (timers_ok_ext w).
  - apply view_ok_store_update. simpl. apply (hover_empty w Hv).
  - split.
    + by rewrite store_update_toasts.
    + intros t. rewrite store_update_toasts.
      intros ->%list_elem_of_singleton.
      exists c, e2. rewrite store_update_idCounter. simpl. split; [lia|done].
Qed.

Lemma wf_updateToast i options e w : wf w → wf (updateToast i options e w).
Proof.
  intros (Ht & Hv & Hs). unfold updateToast.
  destruct (find_id i (toasts w)) as [existing|]; [|done].
  unfold generateId. simpl.
  split; [|split].
  - apply timers_ok_store_update. by apply (timers_ok_ext w).
  - apply view_ok_store_update. simpl. apply (hover_empty w Hv).
  - split.
    + rewrite store_update_toasts. simpl. rewrite length_map.
      apply (at_most_one w Hs).
    + intros t. rewrite store_update_toasts. simpl.
      intros (t0 & -> & Ht0)%list_elem_of_fmap.
      rewrite store_update_idCounter. simpl.
      case_bool_decide.
      * exists (idCounter w + 1)%N, e. split; [lia|done].
      * destruct (instance_generated w Hs t0 Ht0) as (c & e' & Hle & ->).
        exists c, e'. split; [lia|done].
Qed.

Lemma wf_exit_timer i delay w :
  wf w → wf (setTimeout (CbRemove i) delay w).1.
Proof.
  intros (Ht & Hv & Hs). split; [|split].
  - by apply timers_ok_exit_timer.
  - by apply (view_ok_ext w).
  - by apply (store_ok_from w); [done|apply (at_most_one w Hs)|eauto|].
Qed.

Lemma wf_dismissToast i w : wf w → wf (dismissToast i w).
Proof.
  intros Hwf. unfold dismissToast.
  destruct (find_id i (toasts w)) as [t|]; [|done].
  destruct (item_exiting t); [done|].
  apply wf_exit_timer, wf_store_update; [done|..].
  - rewrite length_map. destruct Hwf as (_ & _ & Hs). apply (at_most_one w Hs).
  - intros t' (t0 & -> & Ht0)%list_elem_of_fmap. exists t0.
    split; [done|]. by case_bool_decide.
Qed.

Lemma wf_filter (P : ToastItem → Prop) `{∀ t, Decision (P t)} w :
  wf w → wf (store_update (filter P) w).
Proof.
  intros Hwf. apply wf_store_update; [done|..].
  - destruct Hwf as (_ & _ & Hs). pose proof (at_most_one w Hs).
    pose proof (length_filter P (toasts w)). lia.
  - intros t [_ Ht]%list_elem_of_filter. eauto.
Qed.

Lemma wf_clear position w : wf w → wf (sileo.clear position w).
Proof.
  intros Hwf. unfold sileo.clear. destruct position as [p|].
  - by apply (wf_filter (λ t, item_position t ≠ Some p)).
  - apply wf_store_update; [done|simpl; lia|].
    by intros t ?%elem_of_nil.
Qed.

Lemma wf_unqueue h c w :
  wf w →
  wf (set_clock c (set_pending (filter (λ x, handle x ≠ h) (pending w)) w)).
Proof.
  intros (Ht & Hv & Hs). split; [|split].
  - eapply timers_ok_ext; [..|by apply (timers_ok_unqueue w h)]; done.
  - by apply (view_ok_ext w).
  - by apply (store_ok_from w); [done|apply (at_most_one w Hs)|eauto|].
Qed.

Lemma wf_fire tm w : wf w → wf (fire tm w).
Proof.
  intros Hwf. unfold fire. destruct (cb tm) as [i|i].
  - by apply wf_dismissToast, wf_unqueue.
  - unfold removeToast.
    by apply (wf_filter (λ t, item_id t ≠ i)), wf_unqueue.
Qed.

Lemma wf_handleMouseEnter w : wf w → wf (handleMouseEnter w).
Proof.
  intros (Ht & Hv & Hs). unfold handleMouseEnter.
  destruct (hoverRef w) eqn:E; [done|].
  split; [|split].
  - apply timers_ok_clearAllTimers. by apply (timers_ok_ext w).
  - destruct Hv as [H1 H2 H3]. split; simpl; [done|done|].
    intros k [h Hk]. by rewrite lookup_empty in Hk.
  - by apply (store_ok_from w); [done|apply (at_most_one w Hs)|eauto|].
Qed.

Lemma wf_handleMouseLeave w : wf w → wf (handleMouseLeave w).
Proof.
  intros (Ht & Hv & Hs). unfold handleMouseLeave.
  destruct (hoverRef w) eqn:E; [|done].
  set (w1 := set_hoverRef false w).
  destruct (schedule_refs (listRef w1) w1) as [Hh Hl].
  destruct (schedule_same_store (listRef w1) w1) as (Hto & _ & _ & Hc & _).
  split; [|split].
  - apply timers_ok_schedule. by apply (timers_ok_ext w).
  - split.
    + rewrite Hl, Hto. simpl. apply (list_synced w Hv).
    + by rewrite Hh.
    + rewrite Hto. simpl. unfold schedule. simpl.
      apply schedule_items_keys.
      * simpl. rewrite (hover_empty w Hv E). intros k [h Hk].
        by rewrite lookup_empty in Hk.
      * intros t Ht'. rewrite (list_synced w Hv) in Ht'.
        by apply list_elem_of_fmap_2.
  - apply (store_ok_from w); [by rewrite Hc|rewrite Hto; apply (at_most_one w Hs)| |done].
    rewrite Hto. eauto.
Qed.

Lemma wf_init : wf init.
Proof.
  split; [|split]; split; simpl; try done;
    try (by intros tm ?%elem_of_nil);
    try (by intros k tm ? ?%elem_of_nil);
    try (by intros k [h Hk]);
    try apply NoDup_nil_2; try lia.
Qed.

Lemma wf_step ev w : wf w → wf (step ev w).
Proof.
  intros Hwf. destruct ev; simpl.
  - by apply wf_createToast.
  - by apply wf_updateToast.
  - by apply wf_dismissToast.
  - by apply wf_clear.
  - by apply wf_handleMouseEnter.
  - by apply wf_handleMouseLeave.
  - destruct Hwf as (Ht & Hv & Hs). split; [|split].
    + by apply (timers_ok_ext w).
    + by apply (view_ok_ext w).
    + by apply (store_ok_from w); [done|apply (at_most_one w Hs)|eauto|].
  - destruct Hwf as (Ht & Hv & Hs). split; [|split].
    + by apply (timers_ok_ext w).
    + by apply (view_ok_ext w).
    + by apply (store_ok_from w); [done|apply (at_most_one w Hs)|eauto|].
  - destruct (list_find _ _) as [[k tm]|]; [|done]. by apply wf_fire.
Qed.

Lemma steps_snoc evs ev w : steps (evs ++ [ev]) w = step ev (steps evs w).
Proof. unfold steps. by rewrite foldl_app. Qed.

Lemma wf_steps evs w : wf w → wf (steps evs w).
Proof.
  intros Hwf. induction evs as [|ev evs IH] using rev_ind; [done|].
  rewrite steps_snoc. by apply wf_step.
Qed.

Lemma reachable_wf w : reachable w → wf w.
Proof. intros [evs ->]. apply wf_steps, wf_init. Qed.

Lemma reachable_step ev w : reachable w → reachable (step ev w).
Proof. intros [evs ->]. exists (evs ++ [ev]). by rewrite steps_snoc. Qed.

End WellFormed.


(** ** Generated ids never repeat *)

Section Ids.

Lemma dashless_app s1 s2 : dashless s1 → dashless s2 → dashless (s1 +:+ s2).
Proof. induction s1 as [|c s1 IH]; simpl; [done|]. intros [? ?] ?. auto. Qed.

Lemma pretty_N_char_dashless x : pretty_N_char x ≠ "-"%char.
Proof. unfold pretty_N_char. by repeat case_match. Qed.

Lemma pretty_N_go_dashless x s : dashless s → dashless (pretty_N_go x s).
Proof.
  revert s. induction (N.lt_wf_0 x) as [x _ IH]; intros s Hs.
  assert (x = 0 ∨ 0 < x)%N as [->|Hx] by lia.
  - by rewrite pretty_N_go_0.
  - rewrite pretty_N_go_step by done. apply IH.
    + by apply N.div_lt.
    + split; [apply pretty_N_char_dashless|done].
Qed.

Lemma pretty_N_dashless (x : N) : dashless (pretty x).
Proof.
  unfold pretty, pretty_N. case_decide.
  - by split.
  - by apply pretty_N_go_dashless.
Qed.

(** The text before the first dash determines the rest. *)
Lemma dash_split s1 s2 r1 r2 :
  dashless s1 → dashless s2 →
  s1 +:+ "-" +:+ r1 = s2 +:+ "-" +:+ r2 → s1 = s2.
Proof.
  revert s2. induction s1 as [|c s1 IH]; intros [|c2 s2]; simpl; try done.
  - intros _ [Hc _] [= <-]. done.
  - intros [Hc _] _ [= ->]. done.
  - intros [_ H1] [_ H2] [= -> Heq]. f_equal. by apply IH.
Qed.

Lemma render_id_counter c e c' e' :
  render_id c e = render_id c' e' → c = c'.
Proof.
  unfold render_id. intros Heq.
  apply dash_split in Heq; try apply pretty_N_dashless.
  by apply (inj pretty) in Heq.
Qed.

Lemma timeoutKey_same_id t t' :
  item_id t = item_id t' → timeoutKey t = timeoutKey t' →
  item_instanceId t = item_instanceId t'.
Proof.
  unfold timeoutKey. intros -> Heq.
  assert (Happ : ∀ a b c : string, a +:+ b = a +:+ c → b = c).
  { intros a b c. induction a as [|x a IH]; simpl; [done|].
    intros [= H]. auto. }
  apply Happ in Heq. by injection Heq.
Qed.

End Ids.


(** ** One timer per key *)

Section PerKey.

Lemma filter_none {A} (P : A → Prop) `{∀ x, Decision (P x)} (l : list A) :
  (∀ x, x ∈ l → ¬ P x) → filter P l = [].
Proof.
  induction l as [|a l IH]; [done|]. intros Hl.
  rewrite filter_cons, decide_False by (apply Hl; by left).
  apply IH. intros x Hx. apply Hl. by right.
Qed.

Lemma filter_at_most_one (P : timeout → Prop) `{∀ x, Decision (P x)}
    (l : list timeout) :
  NoDup (handle <$> l) →
  (∀ x y, P x → P y → handle x = handle y) →
  (length (filter P l) ≤ 1)%nat.
Proof.
  intros Hnd HP. induction l as [|a l IH]; [simpl; lia|].
  apply NoDup_cons in Hnd as [Ha Hnd]. rewrite filter_cons.
  destruct (decide (P a)) as [Hpa|]; [|by apply IH].
  rewrite (filter_none P l); [simpl; lia|].
  intros x Hx Hpx. apply Ha. rewrite (HP a x Hpa Hpx).
  by apply list_elem_of_fmap_2.
Qed.

Lemma timers_for_none key w :
  timersRef w !! key = None → timers_for key w = [].
Proof.
  intros Hn. unfold timers_for. apply filter_none. intros x _.
  by rewrite Hn.
Qed.

Lemma timers_for_length key w :
  timers_ok w → (length (timers_for key w) ≤ 1)%nat.
Proof.
  intros Hok. unfold timers_for.
  apply filter_at_most_one; [apply (pending_nodup w Hok)|].
  intros x y Hx Hy. congruence.
Qed.

Lemma timers_for_arm t d w :
  timers_ok w →
  timers_for (timeoutKey t) (arm t d w)
  = [mkTimeout (nextHandle w) (clock w + d) (CbDismiss (item_id t))].
Proof.
  intros Hok. unfold timers_for, arm. simpl. rewrite filter_app.
  rewrite filter_none.
  - rewrite filter_cons, decide_True; [done|]. simpl.
    by rewrite lookup_insert_eq.
  - intros x Hx. rewrite lookup_insert_eq. intros [= Heq].
    apply (pending_below w Hok) in Hx. lia.
Qed.

Lemma dismiss_timers_none w :
  timers_ok w → timersRef w = ∅ → dismiss_timers w = [].
Proof.
  intros Hok Hm. unfold dismiss_timers. apply filter_none.
  intros tm Hin Hd. destruct (dismiss_held w Hok tm Hin Hd) as [k Hk].
  by rewrite Hm, lookup_empty in Hk.
Qed.

(** With a key that the map does not hold yet, the clean-up of the timer
    effect on the one-record list is [clearAllTimers]. *)
Lemma timer_effect_fresh t w :
  timersRef w !! timeoutKey t = None →
  (∀ k, is_Some (timersRef w !! k) → k ≠ timeoutKey t) →
  timer_effect [t] w = schedule [t] (clearAllTimers (set_listRef [t] w)).
Proof.
  intros Hn Hne. unfold timer_effect, clearAllTimers. simpl.
  assert (H1 : filter (λ kv : string * N, kv.1 ∈ [timeoutKey t]) (timersRef w)
               = ∅).
  { apply map_eq. intros k. rewrite lookup_empty.
    apply map_lookup_filter_None. right. intros h Hk Hin. simpl in Hin.
    apply list_elem_of_singleton in Hin. apply (Hne k); eauto. }
  assert (H2 : filter (λ kv : string * N, kv.1 ∉ [timeoutKey t]) (timersRef w)
               = timersRef w).
  { apply map_eq. intros k. destruct (timersRef w !! k) as [h|] eqn:E.
    - apply map_lookup_filter_Some. split; [done|]. simpl.
      intros Hin%list_elem_of_singleton. apply (Hne k); eauto.
    - apply map_lookup_filter_None. by left. }
  by rewrite H1, H2.
Qed.

Lemma schedule_single t w :
  timersRef w !! timeoutKey t = None →
  schedule [t] w
  = if hoverRef w then w
    else match timer_delay t with Some d => arm t d w | None => w end.
Proof.
  intros Hn. unfold schedule. destruct (hoverRef w); [done|]. simpl.
  pose proof (schedule_item_cases w t) as H.
  destruct (timer_delay t) as [d|]; [|done].
  rewrite bool_decide_eq_false_2 in H; [done|].
  rewrite Hn. by intros [].
Qed.

(** The timers after the store has become the single record [new],
    whose key the viewport does not hold. *)
Lemma replacement_effect w old new :
  timers_ok w → timersRef w !! timeoutKey new = None →
  timeoutKey old ≠ timeoutKey new →
  timersRef (timer_effect [new] w) !! timeoutKey old = None
  ∧ (∀ h tm, timersRef w !! timeoutKey old = Some h →
       tm ∈ pending (timer_effect [new] w) → handle tm ≠ h)
  ∧ timers_for (timeoutKey new) (timer_effect [new] w)
    = if hoverRef w then []
      else
        match timer_delay new with
        | Some d =>
            [mkTimeout (nextHandle w) (clock w + d)
               (CbDismiss (item_id new))]
        | None => []
        end.
Proof.
  intros Hok Hn Hne.
  rewrite timer_effect_fresh; [|done|by intros k [h Hk] ->; congruence].
  set (wc := clearAllTimers (set_listRef [new] w)).
  assert (Hokc : timers_ok wc).
  { apply timers_ok_clearAllTimers. by apply (timers_ok_ext w). }
  assert (Hmc : timersRef wc = ∅) by done.
  rewrite schedule_single by (by rewrite Hmc, lookup_empty).
  change (hoverRef wc) with (hoverRef w).
  assert (Hgone : ∀ h tm, timersRef w !! timeoutKey old = Some h →
                    tm ∈ pending wc → handle tm ≠ h).
  { intros h tm Hk [Hout _]%list_elem_of_filter Heq. apply Hout.
    apply handles_in_map. exists (timeoutKey old). by rewrite Heq. }
  destruct (hoverRef w).
  { split; [done|]. split; [exact Hgone|]. by apply timers_for_none. }
  destruct (timer_delay new) as [d|].
  - split; [|split].
    + simpl. by rewrite lookup_insert_ne.
    + intros h tm Hk [Hin| ->%list_elem_of_singleton]%elem_of_app.
      * by apply Hgone.
      * simpl. apply (map_below w Hok) in Hk. lia.
    + by rewrite timers_for_arm.
  - split; [done|]. split; [exact Hgone|]. by apply timers_for_none.
Qed.

Lemma single_toast w t : store_ok w → t ∈ toasts w → toasts w = [t].
Proof.
  intros Hs Ht. pose proof (at_most_one w Hs) as Hlen.
  destruct (toasts w) as [|a [|b l]]; simpl in *; [by apply elem_of_nil in Ht| |lia].
  by apply list_elem_of_singleton in Ht as ->.
Qed.

Lemma find_id_single t : find_id (item_id t) [t] = Some t.
Proof. unfold find_id. simpl. by rewrite decide_True. Qed.

(** In a well-formed world a record with the stable id of [old] and an
    instance id made from a later counter value has a key that the
    viewport does not hold. *)
Lemma later_key_fresh w old new c e :
  wf w → old ∈ toasts w → item_id new = item_id old →
  item_instanceId new = render_id c e → (idCounter w < c)%N →
  item_instanceId new ≠ item_instanceId old
  ∧ timeoutKey old ≠ timeoutKey new
  ∧ timersRef w !! timeoutKey new = None.
Proof.
  intros (Ht & Hv & Hs) Hold Hid Hinst Hc.
  assert (Hne : item_instanceId new ≠ item_instanceId old).
  { destruct (instance_generated w Hs old Hold) as (c0 & e0 & Hle & Ho).
    rewrite Hinst, Ho. intros Heq%render_id_counter. lia. }
  assert (Hk : timeoutKey old ≠ timeoutKey new).
  { intros Heq. symmetry in Heq. by apply timeoutKey_same_id in Heq. }
  split; [done|]. split; [done|].
  destruct (timersRef w !! timeoutKey new) as [h|] eqn:E; [|done].
  exfalso. assert (Hin : timeoutKey new ∈ timeoutKey <$> toasts w).
  { apply (keys_current w Hv). by rewrite E. }
  rewrite (single_toast w old Hs Hold) in Hin. simpl in Hin.
  apply list_elem_of_singleton in Hin. by apply Hk.
Qed.

Lemma update_replaces_timer w i options e old new :
  wf w → old ∈ toasts w → item_id old = i →
  new ∈ toasts (updateToast i options e w) →
  replaced_timer w (updateToast i options e w) old new.
Proof.
  intros Hwf Hold Hid. pose proof Hwf as (Ht & Hv & Hs).
  pose proof (single_toast w old Hs Hold) as Hl.
  unfold updateToast. rewrite Hl. rewrite <-Hid, find_id_single.
  unfold generateId. simpl.
  set (item := build_item _ _ _ _).
  unfold store_update. simpl. rewrite Hl. simpl.
  rewrite bool_decide_eq_true_2 by done.
  set (w0 := set_toasts [item] (set_idCounter (idCounter w + 1) w)).
  destruct (timer_effect_same_store [item] w0) as (Hto & _).
  rewrite Hto. simpl. intros ->%list_elem_of_singleton.
  destruct (later_key_fresh w old item (idCounter w + 1)%N e Hwf Hold)
    as (Hinst & Hkey & Hfresh); [done|done|lia|].
  destruct (replacement_effect w0 old item) as (H1 & H2 & H3);
    [by apply (timers_ok_ext w)|done|done|].
  split; [done|]. split; [done|]. split; done.
Qed.

Lemma create_replaces_timer w options e1 e2 old new :
  wf w → old ∈ toasts w →
  new ∈ toasts (createToast options e1 e2 w).1 →
  item_id new = item_id old →
  replaced_timer w (createToast options e1 e2 w).1 old new.
Proof.
  intros Hwf Hold. pose proof Hwf as (Ht & Hv & Hs).
  unfold createToast.
  destruct (new_item_world options e1 e2 w) as (c & Hw & Hc & Hinst).
  destruct (new_item options e1 e2 w) as [w2 item]. simpl in *. subst w2.
  unfold store_update. simpl.
  set (w0 := set_toasts [item] (set_idCounter c w)).
  destruct (timer_effect_same_store [item] w0) as (Hto & _).
  rewrite Hto. simpl. intros ->%list_elem_of_singleton Hid.
  destruct (later_key_fresh w old item c e2 Hwf Hold)
    as (Hi & Hkey & Hfresh); [done|done|lia|].
  destruct (replacement_effect w0 old item) as (H1 & H2 & H3);
    [by apply (timers_ok_ext w)|done|done|].
  split; [done|]. split; [done|]. split; done.
Qed.

End PerKey.


Lemma reachable_saved : reachable saved.
Proof.
  exists [EvCreate (titled "Saved" (val 3000)) e0 e0]. vm_compute. reflexivity.
Qed.

Lemma reachable_hovered : reachable hovered.
Proof.
  exists [EvCreate (titled "Saved" (val 3000)) e0 e0; EvMouseEnter].
  vm_compute. reflexivity.
Qed.

(** C8. In every reachable world the viewport holds at most one pending
    timeout under a key, and every pending dismiss timer is held under
    exactly one key. When the content of a record is replaced, by an update
    or by a create that keeps its stable id, the new instance id differs,
    the old key and its timer are gone, and the new key holds a timer of
    its own, with a handle never used before and due a full delay from
    now, whenever the new record is due one (the viewport is not hovered
    and the duration is positive). *)
Theorem one_timer_per_key w :
  reachable w →
  (∀ key, (length (timers_for key w) ≤ 1)%nat)
  ∧ (∀ tm, tm ∈ pending w → is_dismiss tm = true →
       ∃ key, tm ∈ timers_for key w
              ∧ ∀ key', tm ∈ timers_for key' w → key' = key)
  ∧ (∀ i options e old new,
       old ∈ toasts w → item_id old = i →
       new ∈ toasts (updateToast i options e w) →
       replaced_timer w (updateToast i options e w) old new)
  ∧ (∀ options e1 e2 old new,
       old ∈ toasts w →
       new ∈ toasts (createToast options e1 e2 w).1 →
       item_id new = item_id old →
       replaced_timer w (createToast options e1 e2 w).1 old new).
Proof.
  intros Hwf%reachable_wf. pose proof Hwf as (Ht & Hv & Hs).
  split; [|split; [|split]].
  - intros key. by apply timers_for_length.
  - intros tm Hin Hd. destruct (dismiss_held w Ht tm Hin Hd) as [k Hk].
    exists k. split.
    + apply list_elem_of_filter. by split.
    + intros k' [Hk' _]%list_elem_of_filter. by apply (map_inj w Ht k' k (handle tm)).
  - intros i options e old new. by apply update_replaces_timer.
  - intros options e1 e2 old new. by apply create_replaces_timer.
Qed.

Lemma one_timer_per_key_witness :
  reachable saved
  ∧ (length (timers_for (timeoutKey saved_item) saved) ≤ 1)%nat.
Proof.
  split; [exact reachable_saved|].
  exact (proj1 (one_timer_per_key saved reachable_saved) (timeoutKey saved_item)).
Defined.

(** ** Hovering *)

(** C9. While the viewport is hovered it holds no timer, no dismiss timer
    is pending (so none can fire) and [schedule] arms none; entering the
    viewport makes it hovered. When the pointer leaves, every record of the
    store that is due a timer (live, positive duration) gets one timeout
    under its key, with a new handle and due its full delay from now; a
    record that is due none gets none. *)
Theorem hover_pauses_timers w :
  reachable w →
  hoverRef (handleMouseEnter w) = true
  ∧ (hoverRef w = true →
     timersRef w = ∅ ∧ dismiss_timers w = [] ∧ (∀ l, schedule l w = w))
  ∧ (hoverRef w = true →
     ∀ t, t ∈ toasts w →
       timers_for (timeoutKey t) (handleMouseLeave w)
       = match timer_delay t with
         | Some d =>
             [mkTimeout (nextHandle w) (clock w + d) (CbDismiss (item_id t))]
         | None => []
         end).
Proof.
  intros Hwf%reachable_wf. pose proof Hwf as (Ht & Hv & Hs).
  split; [|split].
  - unfold handleMouseEnter. by destruct (hoverRef w) eqn:E.
  - intros Hh. pose proof (hover_empty w Hv Hh) as Hm.
    split; [done|]. split; [by apply dismiss_timers_none|].
    intros l. unfold schedule. by rewrite Hh.
  - intros Hh t Hin. pose proof (hover_empty w Hv Hh) as Hm.
    unfold handleMouseLeave. rewrite Hh. simpl.
    rewrite (list_synced w Hv), (single_toast w t Hs Hin).
    rewrite schedule_single by (simpl; by rewrite Hm, lookup_empty).
    simpl. destruct (timer_delay t) as [d|].
    + rewrite timers_for_arm; [done|]. by apply (timers_ok_ext w).
    + apply timers_for_none. simpl. by rewrite Hm, lookup_empty.
Qed.

Lemma hover_pauses_timers_witness :
  reachable hovered
  ∧ hoverRef hovered = true
  ∧ timers_for (timeoutKey saved_item) (handleMouseLeave hovered)
    = [mkTimeout (nextHandle hovered) (clock hovered + 3000)
         (CbDismiss (item_id saved_item))].
Proof.
  split; [exact reachable_hovered|].
  assert (Hh : hoverRef hovered = true) by reflexivity.
  split; [exact Hh|].
  destruct (hover_pauses_timers hovered reachable_hovered) as (_ & _ & Hleave).
  apply (Hleave Hh saved_item). vm_compute. constructor.
Defined.


(** ** Creation *)

Lemma new_item_id options e1 e2 w :
  item_id (new_item options e1 e2 w).2
  = match io_id options with
    | Some i => i
    | None =>
        match last_live w with
        | Some p => item_id p
        | None => render_id (idCounter w + 1) e1
        end
    end.
Proof.
  unfold new_item, last_live, generateId. simpl.
  destruct (io_id options) as [j|]; [done|].
  by destruct (last _).
Qed.

(** The claim of C1 as the spec words it fails: a second [show] on a page
    that shows one toast leaves one record in the store, not two. *)
Lemma create_does_not_append :
  ¬ appended_or_replaced None (toasts saved)
      (toasts (createToast (titled "Again" undefined) e0 e0 saved).1).
Proof.
  unfold appended_or_replaced. simpl. intros [item H].
  apply (f_equal length) in H. rewrite length_app in H.
  vm_compute in H. discriminate.
Qed.

(** C1, amended. After a create call the store holds exactly one record,
    the new one: whatever was there before is dropped. The new record is
    live, carries the id given with the call, else the id of the last live
    record, else a generated id, and a generated instance id; the call
    returns the id of the record. *)
Theorem create_leaves_one_record w options e1 e2 :
  toasts (createToast options e1 e2 w).1 = [(new_item options e1 e2 w).2]
  ∧ (createToast options e1 e2 w).2.1 = item_id (new_item options e1 e2 w).2
  ∧ item_id (new_item options e1 e2 w).2
    = match io_id options with
      | Some i => i
      | None =>
          match last_live w with
          | Some p => item_id p
          | None => render_id (idCounter w + 1) e1
          end
      end
  ∧ item_exiting (new_item options e1 e2 w).2 = false
  ∧ ∃ c, (idCounter w < c)%N
         ∧ idCounter (createToast options e1 e2 w).1 = c
         ∧ item_instanceId (new_item options e1 e2 w).2 = render_id c e2.
Proof.
  split; [apply createToast_toasts|].
  split; [unfold createToast; by destruct (new_item options e1 e2 w)|].
  split; [apply new_item_id|].
  split.
  { destruct (new_item_is_built options e1 e2 w) as (i & inst & pos & ->).
    done. }
  destruct (new_item_world options e1 e2 w) as (c & Hw & Hc & Hinst).
  exists c. split; [done|]. split; [|done].
  unfold createToast. destruct (new_item options e1 e2 w) as [w2 item].
  simpl in *. subst w2. by rewrite store_update_idCounter.
Qed.

(** ** Persistent toasts *)

(** C2, the failing input. A toast created with [duration: null] on a fresh
    page gets a dismiss timer all the same, with the default delay of
    6000 ms: it is flagged exiting when that timer runs and is gone from
    the store 600 ms later. *)
Theorem persistent_toast_expires :
  item_duration <$> toasts sticky = [null]
  ∧ pending sticky = [mkTimeout 1 6000 (CbDismiss "1-k2x9-q1w2e3")]
  ∧ timersRef sticky !! "1-k2x9-q1w2e3:2-k2x9-q1w2e3" = Some 1%N
  ∧ item_exiting <$> toasts (run 2 5999 sticky) = [false]
  ∧ item_exiting <$> toasts (run 2 6000 sticky) = [true]
  ∧ toasts (run 2 6600 sticky) = [].
Proof. vm_compute. repeat split. Qed.

(** ** Promises *)

Lemma build_item_fields merged i inst pos :
  item_id (build_item merged i inst pos) = i
  ∧ item_instanceId (build_item merged i inst pos) = inst
  ∧ item_state (build_item merged i inst pos) = io_state merged
  ∧ item_exiting (build_item merged i inst pos) = false
  ∧ item_opts (build_item merged i inst pos)
    = with_position pos (io_opts merged).
Proof. done. Qed.

(** The claim of C3 as the spec words it fails: when the loading toast has
    been dismissed and removed before the promise is fulfilled, nothing is
    shown as a success. *)
Lemma settled_after_dismissal_shows_nothing :
  ¬ shown_as fetching.1.2 Success
      (sileo.promise_settled fetching.1.2 fetch_opts (Fulfilled ()) e0
         abandoned).
Proof.
  intros (t & Hfind & _). vm_compute in Hfind. discriminate.
Qed.

(** C3, amended. [promise] creates the loading record before it returns:
    it is the record of the store, live, in state "loading" with
    [duration: null], and its id is the one the reactions use; the promise
    handed back is the one passed in (or made by the thunk), so it settles
    as that one does. When the promise settles and the store still has a
    record of that id, every record of that id is replaced in place by one
    of the same id in state "success" ("action" when an action is
    configured) or "error", built from the configured static options or
    from the configured function applied to the value or the error; when
    the store has no such record, nothing changes. *)
Theorem promise_lifecycle {T E} (p : promise_arg T E)
    (opts : ToastPromiseOptions T E) e1 e2 w :
  (∃ t, toasts (sileo.promise p opts e1 e2 w).1.1 = [t]
        ∧ item_id t = (sileo.promise p opts e1 e2 w).1.2
        ∧ item_state t = Some Loading
        ∧ item_duration t = null
        ∧ item_exiting t = false)
  ∧ (sileo.promise p opts e1 e2 w).2
    = match p with Direct q => q | Thunk f => f () end
  ∧ ∀ i (r : settlement T E) e w2,
      match find_id i (toasts w2) with
      | None => sileo.promise_settled i opts r e w2 = w2
      | Some _ =>
          ∃ item pos,
            toasts (sileo.promise_settled i opts r e w2)
            = map (λ t, if bool_decide (item_id t = i) then item else t)
                (toasts w2)
            ∧ item_id item = i
            ∧ item_state item = Some (settled_state opts r)
            ∧ item_exiting item = false
            ∧ item_opts item
              = with_position pos
                  (io_opts
                     (merge_options (store_options w2)
                        (mkInternal (settled_options opts r) (Some i)
                           (Some (settled_state opts r)))))
      end.
Proof.
  split; [|split; [done|]].
  - unfold sileo.promise. simpl.
    exists (new_item (sileo.loading_options opts) e1 e2 w).2.
    split; [apply createToast_toasts|].
    split; [unfold createToast; by destruct (new_item _ e1 e2 w)|].
    destruct (new_item_is_built (sileo.loading_options opts) e1 e2 w)
      as (i & inst & pos & ->).
    done.
  - intros i r e w2. destruct (find_id i (toasts w2)) as [existing|] eqn:Hf.
    + assert (Hupd : ∀ o st,
        ∃ item pos,
          toasts (updateToast i (mkInternal o (Some i) (Some st)) e w2)
          = map (λ t, if bool_decide (item_id t = i) then item else t)
              (toasts w2)
          ∧ item_id item = i ∧ item_state item = Some st
          ∧ item_exiting item = false
          ∧ item_opts item
            = with_position pos
                (io_opts (merge_options (store_options w2)
                            (mkInternal o (Some i) (Some st))))).
      { intros o st.
        destruct (updateToast_toasts i (mkInternal o (Some i) (Some st)) e w2
                    existing Hf) as (inst & pos & Heq).
        eexists _, pos. split; [exact Heq|]. done. }
      unfold sileo.promise_settled, settled_state, settled_options.
      destruct r as [data|err]; [destruct (p_action opts)|]; apply Hupd.
    + unfold sileo.promise_settled.
      destruct r as [data|err]; [destruct (p_action opts)|];
        by apply updateToast_unknown.
Qed.

(** ** Life of a toast with a duration *)

Lemma reachable_init : reachable init.
Proof. by exists []. Qed.

Lemma schedule_no_delay l w :
  (∀ t, t ∈ l → timer_delay t = None) → schedule l w = w.
Proof.
  unfold schedule. destruct (hoverRef w); [done|].
  revert w. induction l as [|t l IH]; intros w Hl; simpl; [done|].
  pose proof (schedule_item_cases w t) as H.
  rewrite (Hl t) in H by (by left). rewrite H.
  apply IH. intros t' Ht'. apply Hl. by right.
Qed.

Lemma timer_effect_no_delay l w x :
  (∀ t, t ∈ l → timer_delay t = None) →
  x ∈ pending (timer_effect l w) → x ∈ pending w.
Proof.
  intros Hl. unfold timer_effect. rewrite schedule_no_delay by done.
  simpl. by intros [_ Hx]%list_elem_of_filter.
Qed.

Lemma new_item_delay options e1 e2 w :
  timer_delay (new_item options e1 e2 w).2
  = match resolved_duration
            (o_duration (io_opts (merge_options (store_options w) options)))
    with
    | val d => if bool_decide (d ≤ 0) then None else Some d
    | _ => None
    end.
Proof.
  destruct (new_item_is_built options e1 e2 w) as (i & inst & pos & ->).
  done.
Qed.

(** The world right after a create call whose record has a key that the
    viewport does not hold. *)
Lemma createToast_world options e1 e2 w :
  timers_ok w →
  timersRef w !! timeoutKey (new_item options e1 e2 w).2 = None →
  ∃ c,
    (createToast options e1 e2 w).1
    = schedule [(new_item options e1 e2 w).2]
        (clearAllTimers
           (set_listRef [(new_item options e1 e2 w).2]
              (set_toasts [(new_item options e1 e2 w).2]
                 (set_idCounter c w)))).
Proof.
  intros Hok Hn. unfold createToast.
  destruct (new_item_world options e1 e2 w) as (c & Hw & Hc & Hinst).
  destruct (new_item options e1 e2 w) as [w2 item]. simpl in *. subst w2.
  exists c. unfold store_update. simpl.
  apply timer_effect_fresh; [done|]. intros k [h Hk] ->. simpl in Hk.
  congruence.
Qed.

Lemma createToast_pending options e1 e2 w :
  timers_ok w →
  timersRef w !! timeoutKey (new_item options e1 e2 w).2 = None →
  pending (createToast options e1 e2 w).1
  = filter (λ tm, handle tm ∉ (map_to_list (timersRef w)).*2) (pending w)
    ++ (if hoverRef w then []
        else
          match timer_delay (new_item options e1 e2 w).2 with
          | Some d =>
              [mkTimeout (nextHandle w) (clock w + d)
                 (CbDismiss (item_id (new_item options e1 e2 w).2))]
          | None => []
          end).
Proof.
  intros Hok Hn. destruct (createToast_world options e1 e2 w Hok Hn) as [c ->].
  rewrite schedule_single by done. simpl.
  destruct (hoverRef w); [by rewrite app_nil_r|].
  destruct (timer_delay _); [done|by rewrite app_nil_r].
Qed.

Lemma createToast_clock options e1 e2 w :
  clock (createToast options e1 e2 w).1 = clock w.
Proof.
  unfold createToast.
  destruct (new_item_world options e1 e2 w) as (c & Hw & _).
  destruct (new_item options e1 e2 w) as [w2 item]. simpl in *. subst w2.
  by rewrite store_update_clock.
Qed.

(** After a create call only exit timers of before and the dismiss timer
    of the new record are pending. *)
Lemma createToast_pending_cases options e1 e2 w x :
  timers_ok w →
  timersRef w !! timeoutKey (new_item options e1 e2 w).2 = None →
  x ∈ pending (createToast options e1 e2 w).1 →
  (x ∈ pending w ∧ is_dismiss x = false)
  ∨ (hoverRef w = false
     ∧ ∃ d, timer_delay (new_item options e1 e2 w).2 = Some d
            ∧ x = mkTimeout (nextHandle w) (clock w + d)
                    (CbDismiss (item_id (new_item options e1 e2 w).2))).
Proof.
  intros Hok Hn. rewrite createToast_pending by done.
  intros [[Hout Hin]%list_elem_of_filter|Hx]%elem_of_app.
  - left. split; [done|]. destruct (is_dismiss x) eqn:E; [|done].
    exfalso. apply Hout. apply handles_in_map.
    by apply (dismiss_held w Hok).
  - right. destruct (hoverRef w); [by apply elem_of_nil in Hx|].
    split; [done|]. destruct (timer_delay _) as [d|];
      [|by apply elem_of_nil in Hx].
    exists d. split; [done|]. by apply list_elem_of_singleton in Hx.
Qed.

Lemma next_due_unique l tm :
  tm ∈ l → (∀ x, x ∈ l → x ≠ tm → due tm < due x) → next_due l = Some tm.
Proof.
  intros Hin Hothers. destruct (next_due l) as [tm'|] eqn:E.
  - destruct (next_due_spec _ _ E) as [Hin' Hmin].
    destruct (decide (tm' = tm)) as [->|Hne]; [done|].
    specialize (Hothers tm' Hin' Hne). specialize (Hmin tm Hin). lia.
  - apply next_due_None in E. rewrite E in Hin. by apply elem_of_nil in Hin.
Qed.

Lemma timer_delay_Some t d :
  timer_delay t = Some d → item_exiting t = false ∧ 0 < d.
Proof.
  unfold timer_delay. destruct (item_exiting t); [done|].
  destruct (resolved_duration _) as [| |x]; try done.
  case_bool_decide; [done|]. intros [= <-]. split; [done|lia].
Qed.

Lemma timer_delay_exiting t : timer_delay (mark_exiting t) = None.
Proof. done. Qed.

(** The record [t] is the whole store and its dismiss timer [tm] comes
    due: the record is flagged and the exit timer is the only new
    timeout. *)
Lemma dismiss_timer_fires w t tm :
  toasts w = [t] → item_exiting t = false →
  cb tm = CbDismiss (item_id t) → clock w ≤ due tm →
  toasts (fire tm w) = [mark_exiting t]
  ∧ clock (fire tm w) = due tm
  ∧ ∃ tme, tme ∈ pending (fire tm w)
           ∧ due tme = due tm + 600 ∧ cb tme = CbRemove (item_id t)
           ∧ ∀ x, x ∈ pending (fire tm w) →
               x = tme ∨ (x ∈ pending w ∧ x ≠ tm).
Proof.
  intros Hto Hlive Hcb Hclock. unfold fire. rewrite Hcb.
  set (wq := set_clock _ _).
  assert (Hfind : find_id (item_id t) (toasts wq) = Some t).
  { simpl. rewrite Hto. apply find_id_single. }
  rewrite (dismissToast_live_toasts wq _ t Hfind Hlive).
  rewrite (dismissToast_live_clock wq _ t Hfind Hlive).
  rewrite (dismissToast_live_pending wq _ t Hfind Hlive).
  split; [|split].
  - simpl. rewrite Hto. simpl. by rewrite bool_decide_eq_true_2.
  - simpl. lia.
  - exists (exit_timer (item_id t) wq).
    split; [apply elem_of_app; right; by left|].
    split; [rewrite exit_timer_due; simpl; lia|].
    split; [done|].
    intros x [Hx| ->%list_elem_of_singleton]%elem_of_app; [|by left].
    right. unfold store_update in Hx.
    apply timer_effect_no_delay in Hx.
    + simpl in Hx. apply list_elem_of_filter in Hx as [Hh Hx].
      split; [done|]. by intros ->.
    + simpl. rewrite Hto. simpl. rewrite bool_decide_eq_true_2 by done.
      intros t' ->%list_elem_of_singleton. apply timer_delay_exiting.
Qed.

(** X1. A toast created with a positive duration [d] of at most
    [MAX_TIMEOUT_DELAY] ms (the longest delay the browser's timer keeps)
    on a viewport that is not hovered, while nothing else is due in the
    meantime, is live until [d] ms have passed, is then flagged exiting,
    and is removed from the store exactly [EXIT_DURATION] later. *)
Theorem auto_dismiss_timeline w options e1 e2 d :
  reachable w → hoverRef w = false →
  timer_delay (new_item options e1 e2 w).2 = Some d →
  d ≤ MAX_TIMEOUT_DELAY →
  timersRef w !! timeoutKey (new_item options e1 e2 w).2 = None →
  (∀ x, x ∈ pending w → is_dismiss x = false → clock w + d + 600 < due x) →
  (∀ fuel until, until < clock w + d →
     toasts (run fuel until (createToast options e1 e2 w).1)
     = [(new_item options e1 e2 w).2])
  ∧ (∀ fuel until, clock w + d ≤ until < clock w + d + 600 →
       toasts (run (S fuel) until (createToast options e1 e2 w).1)
       = [mark_exiting (new_item options e1 e2 w).2])
  ∧ (∀ fuel,
       toasts (run (S (S fuel)) (clock w + d + 600)
                 (createToast options e1 e2 w).1) = []).
Proof.
  intros (Hok & Hv & Hs)%reachable_wf Hhov Hdelay _ Hfresh Hquiet.
  destruct (timer_delay_Some _ _ Hdelay) as [Hlive Hd].
  pose proof (createToast_toasts options e1 e2 w) as Hto.
  pose proof (createToast_clock options e1 e2 w) as Hcl.
  pose proof (createToast_pending options e1 e2 w Hok Hfresh) as Hpend.
  rewrite Hhov, Hdelay in Hpend.
  assert (Hcases : ∀ x, x ∈ pending (createToast options e1 e2 w).1 →
            x = mkTimeout (nextHandle w) (clock w + d)
                  (CbDismiss (item_id (new_item options e1 e2 w).2))
            ∨ clock w + d + 600 < due x).
  { intros x Hx.
    destruct (createToast_pending_cases options e1 e2 w x Hok Hfresh Hx)
      as [[Hin Hnd]|(_ & d' & Hd' & ->)].
    - right. by apply Hquiet.
    - left. rewrite Hdelay in Hd'. by injection Hd' as <-. }
  set (new := (new_item options e1 e2 w).2) in *.
  set (tmd := mkTimeout (nextHandle w) (clock w + d) (CbDismiss (item_id new)))
    in *.
  assert (Hin : tmd ∈ pending (createToast options e1 e2 w).1).
  { rewrite Hpend. apply elem_of_app. right. by left. }
  generalize dependent (createToast options e1 e2 w).1.
  intros w' Hto Hcl _ Hcases Hin.
  assert (Hnext : next_due (pending w') = Some tmd).
  { apply next_due_unique; [done|]. intros x Hx Hne.
    destruct (Hcases x Hx) as [->|Hlt]; [done|]. simpl. lia. }
  destruct (dismiss_timer_fires w' new tmd Hto Hlive eq_refl)
    as (Hto1 & Hcl1 & tme & Hme & Hdue & Hcb & Hp1); [simpl; lia|].
  simpl in Hdue.
  assert (Hlater : ∀ x, x ∈ pending (fire tmd w') →
            x = tme ∨ clock w + d + 600 < due x).
  { intros x Hx. destruct (Hp1 x Hx) as [->|[Hx' Hne]]; [by left|].
    right. destruct (Hcases x Hx') as [->|Hlt]; done. }
  split; [|split].
  - intros fuel until Hlt. rewrite run_idle; [done|].
    intros x Hx. destruct (Hcases x Hx) as [->|Hx']; simpl; lia.
  - intros fuel until [Hle Hlt].
    rewrite (run_fire _ _ _ tmd Hnext) by (simpl; lia).
    rewrite run_idle; [done|].
    intros x Hx. destruct (Hlater x Hx) as [->|Hx']; lia.
  - intros fuel.
    rewrite (run_fire _ _ _ tmd Hnext) by (simpl; lia).
    destruct (exit_timer_runs (fire tmd w') tme (item_id new)
                (clock w + d + 600)) as [_ Hat]; try done.
    + rewrite Hcl1. simpl. lia.
    + intros x Hx Hne. by destruct (Hlater x Hx).
    + rewrite Hat, Hto1. rewrite filter_cons, decide_False; [done|].
      by intros [].
Qed.

Lemma auto_dismiss_timeline_witness :
  reachable init ∧ hoverRef init = false
  ∧ timer_delay (new_item (titled "Saved" (val 3000)) e0 e0 init).2
    = Some 3000
  ∧ 3000 ≤ MAX_TIMEOUT_DELAY
  ∧ toasts (run 2 (clock init + 3000 + 600)
              (createToast (titled "Saved" (val 3000)) e0 e0 init).1) = [].
Proof.
  assert (H1 : timer_delay (new_item (titled "Saved" (val 3000)) e0 e0 init).2
               = Some 3000) by (vm_compute; reflexivity).
  assert (H2 : 3000 ≤ MAX_TIMEOUT_DELAY) by (unfold MAX_TIMEOUT_DELAY; lia).
  split; [exact reachable_init|]. split; [reflexivity|]. split; [exact H1|].
  split; [exact H2|].
  refine (proj2 (proj2 (auto_dismiss_timeline init
            (titled "Saved" (val 3000)) e0 e0 3000
            reachable_init eq_refl H1 H2 _ _)) 0%nat).
  - vm_compute. reflexivity.
  - intros x Hx. simpl in Hx. by apply elem_of_nil in Hx.
Defined.

(** Running the queue keeps a property of the world that every firing
    keeps and that does not depend on the clock. *)
Lemma run_invariant (P : world → Prop) fuel until w :
  (∀ w c, P w → P (set_clock c w)) →
  (∀ w tm, P w → tm ∈ pending w → P (fire tm w)) →
  P w → P (run fuel until w).
Proof.
  intros Hclock Hfire. revert w.
  induction fuel as [|fuel IH]; intros w HP; simpl;
    destruct (next_due (pending w)) as [tm|] eqn:E; auto;
    case_bool_decide; auto.
  apply IH, Hfire; [done|]. by apply next_due_spec in E as [? _].
Qed.

(** X2. A toast created with a duration of 0 or less gets no dismiss
    timer: after the call the viewport holds no timer and no dismiss timer
    is pending; and as long as no exit timer for its id is left over from
    before, it stays in the store however long the queue runs. *)
Theorem no_timer_without_duration w options e1 e2 d :
  reachable w →
  o_duration (io_opts (merge_options (store_options w) options)) = val d →
  d ≤ 0 →
  timersRef w !! timeoutKey (new_item options e1 e2 w).2 = None →
  timersRef (createToast options e1 e2 w).1 = ∅
  ∧ dismiss_timers (createToast options e1 e2 w).1 = []
  ∧ ((∀ x, x ∈ pending w →
        cb x ≠ CbRemove (item_id (new_item options e1 e2 w).2)) →
     ∀ fuel until,
       toasts (run fuel until (createToast options e1 e2 w).1)
       = [(new_item options e1 e2 w).2]).
Proof.
  intros Hr Hdur Hd Hfresh. pose proof (reachable_wf w Hr) as (Hok & Hv & Hs).
  assert (Hdelay : timer_delay (new_item options e1 e2 w).2 = None).
  { rewrite new_item_delay. unfold resolved_duration. rewrite Hdur. simpl.
    by rewrite bool_decide_eq_true_2. }
  assert (Hmap : timersRef (createToast options e1 e2 w).1 = ∅).
  { destruct (createToast_world options e1 e2 w Hok Hfresh) as [c ->].
    rewrite schedule_single by done. rewrite Hdelay. simpl.
    by destruct (hoverRef w). }
  split; [done|]. split.
  { apply dismiss_timers_none; [|done].
    apply reachable_wf. by apply (reachable_step (EvCreate options e1 e2)). }
  intros Hnone fuel until.
  set (new := (new_item options e1 e2 w).2) in *.
  apply (run_invariant
           (λ w', toasts w' = [new]
                  ∧ ∀ x, x ∈ pending w' →
                      ∃ i, cb x = CbRemove i ∧ i ≠ item_id new)).
  - intros w' c [H1 H2]. by split.
  - intros w' tm [H1 H2] Htm. destruct (H2 tm Htm) as (i & Hcb & Hi).
    split.
    + rewrite (fire_remove_toasts tm w' i Hcb), H1.
      rewrite filter_cons, decide_True by done. done.
    + intros x Hx. unfold fire in Hx. rewrite Hcb in Hx.
      unfold removeToast, store_update in Hx.
      apply timer_effect_no_delay in Hx.
      * simpl in Hx. apply list_elem_of_filter in Hx as [_ Hx]. auto.
      * simpl. rewrite H1. rewrite filter_cons, decide_True by done.
        by intros t ->%list_elem_of_singleton.
  - split; [apply createToast_toasts|].
    intros x Hx.
    destruct (createToast_pending_cases options e1 e2 w x Hok Hfresh Hx)
      as [[Hin Hnd]|(_ & d' & Hd' & _)]; [|fold new in Hd'; congruence].
    specialize (Hnone x Hin). unfold is_dismiss in Hnd.
    destruct (cb x) as [i|i]; [done|]. exists i. split; [done|].
    intros ->. done.
Qed.

Lemma no_timer_without_duration_witness :
  reachable init
  ∧ dismiss_timers (createToast (titled "Pinned" (val 0)) e0 e0 init).1 = [].
Proof.
  split; [exact reachable_init|].
  refine (proj1 (proj2 (no_timer_without_duration init
            (titled "Pinned" (val 0)) e0 e0 0 reachable_init eq_refl _ _))).
  - lia.
  - vm_compute. reflexivity.
Defined.

(** ** Dismissing twice *)

Lemma find_id_cons i a l :
  find_id i (a :: l) = if decide (item_id a = i) then Some a else find_id i l.
Proof.
  unfold find_id. simpl. destruct (decide (item_id a = i)); [done|].
  by destruct (list_find _ l) as [[k x]|].
Qed.

Lemma find_id_flagged i l t :
  find_id i l = Some t →
  find_id i (map (λ t, if bool_decide (item_id t = i)
                       then mark_exiting t else t) l)
  = Some (mark_exiting t).
Proof.
  induction l as [|a l IH]; [done|]. simpl. rewrite !find_id_cons.
  destruct (decide (item_id a = i)) as [Ha|Ha].
  - intros [= <-]. rewrite bool_decide_eq_true_2 by done. simpl.
    by rewrite decide_True.
  - intros Hf. rewrite bool_decide_eq_false_2 by done.
    rewrite decide_False by done. auto.
Qed.

(** X3. Dismissing is idempotent: a second [dismiss] of the same id, before
    the exit timer has run, changes nothing at all, so only one exit timer
    is ever registered for a dismissal. *)
Theorem dismiss_twice w i :
  dismissToast i (dismissToast i w) = dismissToast i w.
Proof.
  destruct (find_id i (toasts w)) as [t|] eqn:Hf.
  - destruct (item_exiting t) eqn:He.
    + assert (Hw : dismissToast i w = w).
      { unfold dismissToast. by rewrite Hf, He. }
      by rewrite !Hw.
    + pose proof (dismissToast_live_toasts w i t Hf He) as Hto.
      apply find_id_flagged in Hf. rewrite <-Hto in Hf.
      generalize dependent (dismissToast i w). intros w' Hf _.
      unfold dismissToast. by rewrite Hf.
  - assert (Hw : dismissToast i w = w).
    { unfold dismissToast. by rewrite Hf. }
    by rewrite !Hw.
Qed.

(** ** What every reachable world looks like *)

(** X4. The store never holds more than one record, so an id never has
    two records, and the list the viewport renders is the list of the
    store. *)
Theorem single_record_store w :
  reachable w →
  (length (toasts w) ≤ 1)%nat
  ∧ (∀ t1 t2, t1 ∈ toasts w → t2 ∈ toasts w → t1 = t2)
  ∧ listRef w = toasts w.
Proof.
  intros (Hok & Hv & Hs)%reachable_wf.
  split; [apply (at_most_one w Hs)|]. split; [|apply (list_synced w Hv)].
  intros t1 t2 H1 H2. rewrite (single_toast w t1 Hs H1) in H2.
  by apply list_elem_of_singleton in H2.
Qed.

Lemma single_record_store_witness :
  reachable saved ∧ (length (toasts saved) ≤ 1)%nat.
Proof.
  split; [exact reachable_saved|].
  exact (proj1 (single_record_store saved reachable_saved)).
Defined.

(** X7. No dismiss timer dangles: every pending dismiss timer is held by
    the viewport under the key of a record that is in the store. *)
Theorem dismiss_timers_belong w tm :
  reachable w → tm ∈ pending w → is_dismiss tm = true →
  ∃ t, t ∈ toasts w ∧ timersRef w !! timeoutKey t = Some (handle tm).
Proof.
  intros (Hok & Hv & Hs)%reachable_wf Hin Hd.
  destruct (dismiss_held w Hok tm Hin Hd) as [k Hk].
  assert (Hkey : k ∈ timeoutKey <$> toasts w).
  { apply (keys_current w Hv). by rewrite Hk. }
  apply list_elem_of_fmap in Hkey as (t & -> & Ht). eauto.
Qed.

Lemma dismiss_timers_belong_witness :
  reachable saved
  ∧ mkTimeout 1 3000 (CbDismiss (item_id saved_item)) ∈ pending saved
  ∧ ∃ t, t ∈ toasts saved ∧ timersRef saved !! timeoutKey t = Some 1%N.
Proof.
  assert (Hin : mkTimeout 1 3000 (CbDismiss (item_id saved_item))
                ∈ pending saved) by (vm_compute; constructor).
  split; [exact reachable_saved|]. split; [exact Hin|].
  exact (dismiss_timers_belong saved _ reachable_saved Hin eq_refl).
Defined.

(** ** Exit timers are out of the viewport's reach *)

Lemma schedule_item_keeps w t x :
  x ∈ pending w → x ∈ pending (schedule_item w t).
Proof.
  intros Hx. pose proof (schedule_item_cases w t) as H.
  destruct (timer_delay t) as [d|]; [|by rewrite H].
  case_bool_decide; rewrite H; [done|]. simpl. apply elem_of_app. by left.
Qed.

Lemma schedule_keeps l w x : x ∈ pending w → x ∈ pending (schedule l w).
Proof.
  unfold schedule. destruct (hoverRef w); [done|].
  revert w. induction l as [|t l IH]; intros w Hx; simpl; [done|].
  by apply IH, schedule_item_keeps.
Qed.

Lemma not_held_not_dismiss w tm k :
  timers_ok w → tm ∈ pending w → is_dismiss tm = false →
  timersRef w !! k ≠ Some (handle tm).
Proof.
  intros Hok Hin Hd Hk. pose proof (held_dismiss w Hok k tm Hk Hin).
  congruence.
Qed.

(** X6. Nothing the viewport does cancels an exit timer: a pending exit
    timer is still pending after the pointer enters or leaves, after
    [clearAllTimers], and after any update of the store, so a dismissed
    toast is removed on time even while the viewport is hovered. *)
Theorem exit_timers_survive w tm :
  reachable w → tm ∈ pending w → is_dismiss tm = false →
  tm ∈ pending (handleMouseEnter w)
  ∧ tm ∈ pending (handleMouseLeave w)
  ∧ tm ∈ pending (clearAllTimers w)
  ∧ ∀ fn, tm ∈ pending (store_update fn w).
Proof.
  intros (Hok & Hv & Hs)%reachable_wf Hin Hd.
  assert (Hclear : tm ∈ pending (clearAllTimers w)).
  { unfold clearAllTimers. simpl. apply list_elem_of_filter. split; [|done].
    intros (k & Hk)%handles_in_map.
    by apply (not_held_not_dismiss w tm k). }
  split; [|split; [|split]].
  - unfold handleMouseEnter. by destruct (hoverRef w).
  - unfold handleMouseLeave. destruct (hoverRef w); [|done].
    by apply schedule_keeps.
  - done.
  - intros fn. unfold store_update, timer_effect. apply schedule_keeps.
    simpl. apply list_elem_of_filter. split; [|done].
    intros (k & [Hk _]%map_lookup_filter_Some)%handles_in_map.
    by apply (not_held_not_dismiss w tm k).
Qed.

Lemma exit_timers_survive_witness :
  reachable (step (EvDismiss (item_id saved_item)) saved)
  ∧ exit_timer (item_id saved_item) saved
    ∈ pending (handleMouseEnter (step (EvDismiss (item_id saved_item)) saved)).
Proof.
  assert (Hin : exit_timer (item_id saved_item) saved
                ∈ pending (step (EvDismiss (item_id saved_item)) saved)).
  { vm_compute. right. left. }
  split; [exact (reachable_step _ saved reachable_saved)|].
  exact (proj1 (exit_timers_survive _ _
                  (reachable_step _ saved reachable_saved) Hin eq_refl)).
Defined.

(** ** Clearing *)

(** X8. [clear()] empties the store, and with it the viewport lets go of
    every timer: no dismiss timer is pending afterwards. [clear(position)]
    keeps exactly the records at other positions, in order. *)
Theorem clear_cancels_timers w :
  reachable w →
  toasts (sileo.clear None w) = []
  ∧ timersRef (sileo.clear None w) = ∅
  ∧ dismiss_timers (sileo.clear None w) = []
  ∧ ∀ p, toasts (sileo.clear (Some p) w)
         = filter (λ t, item_position t ≠ Some p) (toasts w).
Proof.
  intros Hr.
  pose proof (reachable_wf _ (reachable_step (EvClear None) w Hr))
    as (Hok & Hv & Hs). simpl in *.
  assert (Hto : toasts (sileo.clear None w) = []).
  { unfold sileo.clear. by rewrite store_update_toasts. }
  assert (Hm : timersRef (sileo.clear None w) = ∅).
  { apply map_eq. intros k. rewrite lookup_empty.
    destruct (timersRef (sileo.clear None w) !! k) as [h|] eqn:E; [|done].
    assert (Hk : k ∈ timeoutKey <$> toasts (sileo.clear None w)).
    { apply (keys_current _ Hv). by rewrite E. }
    rewrite Hto in Hk. by apply elem_of_nil in Hk. }
  split; [done|]. split; [done|]. split; [by apply dismiss_timers_none|].
  intros p. unfold sileo.clear. by rewrite store_update_toasts.
Qed.

Lemma clear_cancels_timers_witness :
  reachable saved ∧ dismiss_timers (sileo.clear None saved) = [].
Proof.
  split; [exact reachable_saved|].
  exact (proj1 (proj2 (proj2 (clear_cancels_timers saved reachable_saved)))).
Defined.

(** ** Order of the autopilot delays *)

Lemma clamp_mono d a b : a ≤ b → clamp d a ≤ clamp d b.
Proof. unfold clamp. lia. Qed.

(** X9. Clamping keeps the order of the two autopilot settings: when the
    expand setting is not above the collapse setting, as with the
    defaults 150 and 4000, the resolved expand delay is not above the
    resolved collapse delay, whatever the duration. *)
Theorem autopilot_order o d e c :
  resolveAutopilot o d = (Some e, Some c) →
  expand_setting o ≤ collapse_setting o → e ≤ c.
Proof.
  unfold resolveAutopilot, expand_setting, collapse_setting.
  destruct (_ || _ || _); [done|].
  destruct d as [| |x]; try done.
  destruct (o_autopilot o) as [[[|]|[e'|] [c'|]]|]; simpl;
    intros [= <- <-]; apply clamp_mono.
Qed.

Lemma autopilot_order_witness :
  resolveAutopilot (io_opts (titled "Saved" (val 3000))) (val 3000)
  = (Some 150, Some 3000)
  ∧ 150 ≤ 3000.
Proof.
  assert (H : resolveAutopilot (io_opts (titled "Saved" (val 3000))) (val 3000)
              = (Some 150, Some 3000)) by reflexivity.
  split; [exact H|].
  apply (autopilot_order _ _ _ _ H). vm_compute. discriminate.
Defined.

(** ** Ids along a run *)

Lemma dismissToast_idCounter i w : idCounter (dismissToast i w) = idCounter w.
Proof.
  unfold dismissToast. destruct (find_id i (toasts w)) as [t|]; [|done].
  destruct (item_exiting t); [done|]. simpl. apply store_update_idCounter.
Qed.

Lemma idCounter_step ev w : (idCounter w ≤ idCounter (step ev w))%N.
Proof.
  destruct ev; simpl.
  - unfold createToast.
    destruct (new_item_world options e1 e2 w) as (c & Hw & Hc & _).
    destruct (new_item options e1 e2 w) as [w2 item]. simpl in *. subst w2.
    rewrite store_update_idCounter. simpl. lia.
  - unfold updateToast. destruct (find_id i (toasts w)); [|done].
    simpl. rewrite store_update_idCounter. simpl. lia.
  - by rewrite dismissToast_idCounter.
  - unfold sileo.clear. by rewrite store_update_idCounter.
  - unfold handleMouseEnter. by destruct (hoverRef w).
  - unfold handleMouseLeave. destruct (hoverRef w); [|done].
    by destruct (schedule_same_store (listRef (set_hoverRef false w))
                   (set_hoverRef false w)) as (_ & _ & _ & -> & _).
  - done.
  - done.
  - destruct (list_find _ _) as [[k tm]|]; [|done].
    unfold fire. destruct (cb tm).
    + by rewrite dismissToast_idCounter.
    + unfold removeToast. by rewrite store_update_idCounter.
Qed.

Lemma idCounter_steps evs w : (idCounter w ≤ idCounter (steps evs w))%N.
Proof.
  induction evs as [|ev evs IH] using rev_ind; [done|].
  rewrite steps_snoc. pose proof (idCounter_step ev (steps evs w)). lia.
Qed.

(** X5. Generated ids never repeat on a page: an id generated after any
    sequence of events differs from every id generated before, even when
    the time stamp and the random part are the same. *)
Theorem ids_never_repeat w e evs e' :
  (generateId e' (steps evs (generateId e w).1)).2 ≠ (generateId e w).2.
Proof.
  unfold generateId. simpl. intros Heq%render_id_counter.
  pose proof (idCounter_steps evs (set_idCounter (idCounter w + 1) w)) as H.
  simpl in H. lia.
Qed.

(** ** Who is the latest *)

Lemma first_live_rev l :
  first_live (rev l)
  = item_id <$> last (filter (λ t, item_exiting t = false) l).
Proof.
  induction l as [|t l IH] using rev_ind; [done|].
  rewrite rev_unit. simpl. rewrite filter_app, filter_cons, filter_nil.
  destruct (item_exiting t) eqn:E.
  - rewrite decide_False by done. by rewrite app_nil_r.
  - rewrite decide_True by done. by rewrite last_snoc.
Qed.

(** X10. The toast that the viewport treats as the latest is the last
    live record of the store, and it is the one whose id a create call
    without an id takes over; when there is none, the call generates an
    id. *)
Theorem create_takes_over_latest w options e1 e2 :
  io_id options = None →
  latest (toasts w) = item_id <$> last_live w
  ∧ item_id (new_item options e1 e2 w).2
    = default (render_id (idCounter w + 1) e1) (latest (toasts w)).
Proof.
  intros Hid. unfold latest. rewrite first_live_rev. split; [done|].
  rewrite new_item_id, Hid. unfold last_live. by destruct (last _).
Qed.

Lemma create_takes_over_latest_witness :
  io_id (titled "Again" undefined) = None
  ∧ item_id (new_item (titled "Again" undefined) e0 e0 saved).2
    = default (render_id (idCounter saved + 1) e0) (latest (toasts saved)).
Proof.
  split; [reflexivity|].
  exact (proj2 (create_takes_over_latest saved (titled "Again" undefined)
                  e0 e0 eq_refl)).
Defined.

(** X11. Expansion has one owner at a time. After the pointer has entered
    a toast, exactly the records of its id may expand; after it has left,
    or whenever the list has just changed, the owner is the latest live
    toast again, and when there is no live toast nobody is excluded. *)
Theorem expansion_has_one_owner l v i t :
  (canExpandOf (enterToast i v) t = true ↔ item_id t = i)
  ∧ activeId (leaveToast (enterToast i (syncLatest l v))) = latest l
  ∧ (canExpandOf (syncLatest l v) t = true
     ↔ latest l = None ∨ latest l = Some (item_id t)).
Proof.
  split; [|split].
  - unfold canExpandOf, enterToast. simpl.
    case_bool_decide as Ha.
    + rewrite Ha. rewrite bool_decide_eq_true. split; by intros ->.
    + rewrite bool_decide_eq_true. split; by intros ->.
  - unfold leaveToast, enterToast, syncLatest. simpl.
    repeat case_bool_decide; congruence.
  - unfold canExpandOf, syncLatest. simpl.
    destruct (latest l) as [a|].
    + rewrite bool_decide_eq_true. split; [intros ->; by right|].
      by intros [|[= ->]].
    + split; [by left|done].
Qed.

(** ** Grouping by position *)

Lemma byPosition_snoc l t position :
  byPosition (l ++ [t]) position
  = byPosition_step position (byPosition l position) t.
Proof. unfold byPosition. by rewrite foldl_app. Qed.

(** X12. The group of a position is the list of the records that resolve
    to it (their own position, else the viewport's), in the order of the
    store, and there is no group for a position without records: every
    record is shown in exactly one group, and a position gets a section
    exactly when some record resolves to it. *)
Theorem byPosition_groups l position pos :
  byPosition l position pos
  = match filter (λ t, default position (item_position t) = pos) l with
    | [] => None
    | g => Some g
    end
  ∧ (pos ∈ rendered_positions l position
     ↔ ∃ t, t ∈ l ∧ default position (item_position t) = pos).
Proof.
  assert (Hg : ∀ pos, byPosition l position pos
    = match filter (λ t, default position (item_position t) = pos) l with
      | [] => None
      | g => Some g
      end).
  { clear pos. intros pos. induction l as [|t l IH] using rev_ind; [done|].
    rewrite byPosition_snoc, filter_app, filter_cons, filter_nil.
    unfold byPosition_step.
    destruct (decide (default position (item_position t) = pos)) as [Hp|Hp].
    - rewrite Hp, IH.
      destruct (filter _ l) as [|a g]; simpl;
        unfold position_map_set; by rewrite bool_decide_eq_true_2.
    - rewrite app_nil_r, <-IH.
      destruct (byPosition l position (default position (item_position t)));
        unfold position_map_set; by rewrite bool_decide_eq_false_2. }
  split; [apply Hg|].
  unfold rendered_positions. rewrite list_elem_of_filter, Hg.
  assert (Hall : pos ∈ TOAST_POSITIONS).
  { unfold TOAST_POSITIONS. destruct pos; repeat constructor. }
  split.
  - intros [Hh _].
    destruct (filter _ l) as [|a g] eqn:E; [done|].
    exists a.
    assert (Ha : a ∈ filter (λ t, default position (item_position t) = pos) l)
      by (rewrite E; by left).
    apply list_elem_of_filter in Ha as [Hp Ha]. done.
  - intros (t & Ht & Hp). split; [|done].
    assert (Hin : t ∈ filter (λ t, default position (item_position t) = pos) l)
      by (by apply list_elem_of_filter).
    destruct (filter _ l) as [|a g]; [by apply elem_of_nil in Hin|done].
Qed.

(** ** Viewport insets *)

(** X13. A viewport is inset only from the edges it is anchored to: never
    from both top and bottom or from both left and right, and a centred
    viewport from neither side; an offset of 0 on every edge is dropped; a
    number [n] other than 0 insets a top viewport by the literal
    [`${n}px`], and a non-empty string by the string itself; without
    [offset] there is no style at all. *)
Theorem viewport_insets offset pos :
  match getViewportStyle offset pos with
  | None => offset = None
  | Some s =>
      (css_top s = None ∨ css_bottom s = None)
      ∧ (css_left s = None ∨ css_right s = None)
      ∧ (pos = top_center ∨ pos = bottom_center →
         css_left s = None ∧ css_right s = None)
      ∧ (offset = Some (OffsetAll (OffsetNumber 0)) →
         s = mkViewportStyle None None None None)
      ∧ (∀ n, offset = Some (OffsetAll (OffsetNumber n)) → n ≠ 0 →
         starts_top pos = true → css_top s = Some (CssPx n))
      ∧ (∀ str, offset = Some (OffsetAll (OffsetString str)) →
         truthy_str str = true →
         starts_top pos = true → css_top s = Some (CssText str))
  end.
Proof.
  destruct offset as [off|]; [|done]. simpl.
  split; [destruct pos; simpl; auto|].
  split; [destruct pos; simpl; auto|].
  split; [intros [-> | ->]; simpl; auto|].
  split; [intros [= ->]; simpl; by rewrite !andb_false_r|].
  split.
  - intros n [= ->] Hn Ht. simpl. rewrite Ht. simpl.
    by rewrite bool_decide_eq_false_2.
  - intros str [= ->] Hs Ht. simpl. by rewrite Ht, Hs.
Qed.

(** ** Where a toast is shown *)

Lemma orElse_is_Some {A} (a b : option A) :
  is_Some b → is_Some (orElse a b).
Proof. destruct a; [by eexists|done]. Qed.

(** X20. Every record that a create or an update call stores has a
    position; and an update whose options, like the defaults, give no
    position leaves the record at the position it had. *)
Theorem update_keeps_position w options e1 e2 i t :
  produced w options e1 e2 i t →
  is_Some (item_position t)
  ∧ (∀ existing,
       find_id i (toasts w) = Some existing →
       o_position (io_opts (merge_options (store_options w) options)) = None →
       is_Some (item_position existing) →
       t ∈ toasts (updateToast i options e2 w) → item_id t = i →
       item_position t = item_position existing).
Proof.
  intros Hprod. split.
  - destruct Hprod as [Hc|(Hsome & Hu & Hid)].
    + rewrite createToast_toasts in Hc.
      apply list_elem_of_singleton in Hc as ->.
      unfold new_item, generateId.
      destruct (io_id (merge_options (store_options w) options)) as [j|];
        [|destruct (last _)]; simpl;
        repeat (first [by eexists | apply orElse_is_Some]).
    + destruct Hsome as [existing Hex]. revert Hu.
      unfold updateToast. rewrite Hex. unfold generateId. simpl.
      rewrite store_update_toasts.
      intros (t0 & -> & Ht0)%list_elem_of_fmap.
      case_bool_decide; [|done]. simpl.
      repeat (first [by eexists | apply orElse_is_Some]).
  - intros existing Hex Hpos [p Hp]. unfold updateToast. rewrite Hex.
    unfold generateId. simpl. rewrite store_update_toasts.
    intros (t0 & -> & Ht0)%list_elem_of_fmap.
    case_bool_decide; [|done]. intros _.
    unfold item_position in *. simpl in Hpos |- *. rewrite Hpos. simpl.
    by rewrite Hp.
Qed.

Lemma update_keeps_position_witness :
  produced init (titled "Saved" (val 3000)) e0 e0 "" saved_item
  ∧ is_Some (item_position saved_item).
Proof.
  assert (H : produced init (titled "Saved" (val 3000)) e0 e0 "" saved_item).
  { left. vm_compute. constructor. }
  split; [exact H|].
  exact (proj1 (update_keeps_position init _ e0 e0 "" saved_item H)).
Defined.

(** ** Updating a toast that is on its way out *)

Lemma exit_timer_kept fn w tm :
  timers_ok w → tm ∈ pending w → is_dismiss tm = false →
  tm ∈ pending (store_update fn w).
Proof.
  intros Hok Hin Hd. unfold store_update, timer_effect. apply schedule_keeps.
  simpl. apply list_elem_of_filter. split; [|done].
  intros (k & [Hk _]%map_lookup_filter_Some)%handles_in_map.
  simpl in Hk. by apply (not_held_not_dismiss w tm k).
Qed.

(** X21. An update does not save a toast that has been dismissed: the
    updated record is live again, but the exit timer of the dismissal is
    still pending, and when it runs it removes the record all the same. *)
Theorem update_during_exit w i t options e :
  reachable w → find_id i (toasts w) = Some t → item_exiting t = false →
  (∀ t', t' ∈ toasts (updateToast i options e (dismissToast i w)) →
     item_id t' = i ∧ item_exiting t' = false)
  ∧ exit_timer i w ∈ pending (updateToast i options e (dismissToast i w))
  ∧ toasts (fire (exit_timer i w)
              (updateToast i options e (dismissToast i w))) = [].
Proof.
  intros Hr Hf Hlive.
  pose proof (reachable_wf _ (reachable_step (EvDismiss i) w Hr))
    as (Hok & Hv & Hs). simpl in Hok, Hv, Hs.
  pose proof (dismissToast_live_toasts w i t Hf Hlive) as Hto.
  pose proof (dismissToast_live_pending w i t Hf Hlive) as Hpend.
  pose proof (find_id_flagged i _ t Hf) as Hf1. rewrite <-Hto in Hf1.
  assert (Hin : exit_timer i w ∈ pending (dismissToast i w)).
  { rewrite Hpend. apply elem_of_app. right. by left. }
  pose proof (single_toast _ _ Hs (proj1 (find_id_Some _ _ _ Hf1))) as Hone.
  assert (Hid : item_id (mark_exiting t) = i)
    by apply (find_id_Some _ _ _ Hf1).
  generalize dependent (dismissToast i w). intros w1 Hok Hv Hs _ _ Hf1 Hin Hone.
  assert (Hup : ∃ item,
            item_id item = i ∧ item_exiting item = false
            ∧ toasts (updateToast i options e w1) = [item]
            ∧ exit_timer i w ∈ pending (updateToast i options e w1)).
  { unfold updateToast. rewrite Hf1. unfold generateId. simpl.
    eexists. split; [|split; [|split]].
    3:{ rewrite store_update_toasts. simpl. rewrite Hone. simpl.
        rewrite bool_decide_eq_true_2 by done. reflexivity. }
    - done.
    - done.
    - apply exit_timer_kept; [by apply (timers_ok_ext w1)|done|done]. }
  destruct Hup as (item & Hi & He & Hto2 & Hin2).
  split; [|split; [done|]].
  - intros t'. rewrite Hto2. by intros ->%list_elem_of_singleton.
  - rewrite (fire_remove_toasts _ _ i) by done. rewrite Hto2.
    rewrite filter_cons, decide_False; [done|]. by intros [].
Qed.

Lemma update_during_exit_witness :
  reachable saved
  ∧ find_id (item_id saved_item) (toasts saved) = Some saved_item
  ∧ item_exiting saved_item = false
  ∧ toasts (fire (exit_timer (item_id saved_item) saved)
              (updateToast (item_id saved_item) (titled "Done" undefined) e0
                 (dismissToast (item_id saved_item) saved))) = [].
Proof.
  assert (H1 : find_id (item_id saved_item) (toasts saved) = Some saved_item)
    by (vm_compute; reflexivity).
  split; [exact reachable_saved|]. split; [exact H1|].
  split; [reflexivity|].
  exact (proj2 (proj2 (update_during_exit saved _ saved_item
                         (titled "Done" undefined) e0
                         reachable_saved H1 eq_refl))).
Defined.

(** ** The exit of a dismissed toast, on the clock *)

Lemma run_keeps (P : world → Prop) until fuel w :
  (∀ w c, P w → P (set_clock c w)) →
  (∀ w x, P w → x ∈ pending w → due x ≤ until → P (fire x w)) →
  P w → P (run fuel until w).
Proof.
  intros Hclock Hfire. revert w.
  induction fuel as [|fuel IH]; intros w HP; simpl;
    destruct (next_due (pending w)) as [tm|] eqn:E; auto;
    case_bool_decide; auto.
  apply IH, Hfire; [done| |done]. by apply next_due_spec in E as [? _].
Qed.

(** With a unit of fuel for every pending timeout, and firings that only
    shorten the queue, the run gets to the end of what is due. *)
Lemma run_drains (P : world → Prop) until :
  (∀ w x, P w → x ∈ pending w → due x ≤ until →
     P (fire x w)
     ∧ (length (pending (fire x w)) < length (pending w))%nat) →
  ∀ fuel w, P w → (length (pending w) ≤ fuel)%nat →
    settled_until until (run fuel until w).
Proof.
  intros Hfire. induction fuel as [|fuel IH]; intros w HP Hlen; simpl;
    destruct (next_due (pending w)) as [tm|] eqn:E.
  - destruct (next_due_spec _ _ E) as [Hin _].
    destruct (pending w); [by apply elem_of_nil in Hin|simpl in Hlen; lia].
  - apply next_due_None in E. intros x Hx. simpl in Hx.
    rewrite E in Hx. by apply elem_of_nil in Hx.
  - destruct (next_due_spec _ _ E) as [Hin Hmin].
    case_bool_decide as Hd.
    + destruct (Hfire w tm HP Hin Hd) as [HP' Hlt].
      apply IH; [done|lia].
    + intros x Hx. simpl in Hx. specialize (Hmin x Hx). lia.
  - apply next_due_None in E. intros x Hx. simpl in Hx.
    rewrite E in Hx. by apply elem_of_nil in Hx.
Qed.

Lemma unqueue_shorter (l : list timeout) x :
  x ∈ l → (length (filter (λ y, handle y ≠ handle x) l) < length l)%nat.
Proof.
  induction l as [|a l IH]; [by intros ?%elem_of_nil|].
  intros [->|Hx]%elem_of_cons; rewrite filter_cons.
  - rewrite decide_False by (by intros []).
    pose proof (length_filter (λ y, handle y ≠ handle a) l). simpl. lia.
  - specialize (IH Hx). destruct (decide _); simpl; lia.
Qed.

Lemma dismissToast_all_exiting j w :
  (∀ t, t ∈ toasts w → item_exiting t = true) → dismissToast j w = w.
Proof.
  intros Hall. unfold dismissToast.
  destruct (find_id j (toasts w)) as [t|] eqn:E; [|done].
  by rewrite (Hall t (proj1 (find_id_Some _ _ _ E))).
Qed.

Lemma timer_effect_no_delay_length l w :
  (∀ t, t ∈ l → timer_delay t = None) →
  (length (pending (timer_effect l w)) ≤ length (pending w))%nat.
Proof.
  intros Hl. unfold timer_effect. rewrite schedule_no_delay by done.
  simpl. apply length_filter.
Qed.

Lemma timer_delay_of_exiting t : item_exiting t = true → timer_delay t = None.
Proof. unfold timer_delay. by intros ->. Qed.

Lemma wf_set_clock c w : wf w → wf (set_clock c w).
Proof.
  intros (Ht & Hv & Hs). split; [|split].
  - by apply (timers_ok_ext w).
  - by apply (view_ok_ext w).
  - by apply (store_ok_from w); [done|apply (at_most_one w Hs)|eauto|].
Qed.

(** A timeout of the queue other than the one that fires stays in the
    queue when the firing one is taken out. *)
Lemma unqueue_keeps w x tm :
  timers_ok w → x ∈ pending w → tm ∈ pending w → tm ≠ x →
  tm ∈ filter (λ y, handle y ≠ handle x) (pending w).
Proof.
  intros Hok Hx Htm Hne. apply list_elem_of_filter. split; [|done].
  intros Hh. apply Hne.
  apply list_elem_of_lookup in Hx as [ix Hix].
  apply list_elem_of_lookup in Htm as [it Hit].
  assert (it = ix) as ->; [|congruence].
  eapply NoDup_lookup; [apply (pending_nodup w Hok)|..];
    rewrite list_lookup_fmap; [by rewrite Hit|by rewrite Hix, Hh].
Qed.

(** One firing between a dismissal and the removal: [exiting_alone] is
    kept, the exit timer stays pending unless it is the one that fires,
    and the queue gets shorter. *)
Lemma exit_window w i (flagged : list ToastItem) tm x :
  cb tm = CbRemove i →
  (∀ t, t ∈ flagged → item_id t = i ∧ item_exiting t = true) →
  exiting_alone i tm flagged w →
  x ∈ pending w →
  exiting_alone i tm flagged (fire x w)
  ∧ (x ≠ tm → tm ∈ pending w → tm ∈ pending (fire x w))
  ∧ (length (pending (fire x w)) < length (pending w))%nat.
Proof.
  intros Hcb Hflag (Hwf & Honly & Hin & Hout) Hx.
  pose proof Hwf as (Hok & Hv & Hs).
  assert (Hex : ∀ t, t ∈ toasts w → item_exiting t = true).
  { intros t Ht. destruct (decide (tm ∈ pending w)) as [Htm|Htm].
    - rewrite (Hin Htm) in Ht. by apply Hflag.
    - rewrite (Hout Htm) in Ht. by apply elem_of_nil in Ht. }
  pose proof (wf_unqueue (handle x) (Z.max (clock w) (due x)) w Hwf) as Hwfq.
  pose proof (unqueue_shorter (pending w) x Hx) as Hshort.
  pose proof (unqueue_keeps w x tm Hok Hx) as Hstay.
  assert (Hsub : ∀ y, y ∈ filter (λ y, handle y ≠ handle x) (pending w) →
                      y ∈ pending w ∧ y ≠ x).
  { intros y [Hh Hy]%list_elem_of_filter. split; [done|]. by intros ->. }
  unfold exiting_alone, fire. cbv zeta.
  set (q := filter (λ y, handle y ≠ handle x) (pending w)) in *.
  set (wq := set_clock (Z.max (clock w) (due x)) (set_pending q w)) in *.
  assert (Hpq : pending wq = q) by done.
  assert (Htq : toasts wq = toasts w) by done.
  clearbody wq. clearbody q.
  destruct (cb x) as [j|j] eqn:Hcx.
  - (* a dismiss timer: every record is exiting already *)
    rewrite dismissToast_all_exiting by (by rewrite Htq).
    assert (Hne : x ≠ tm) by (intros ->; congruence).
    rewrite Hpq, Htq.
    split; [split; [done|split; [|split]]|split; [|lia]].
    + intros y Hy. by apply Honly, Hsub.
    + intros Htm. by apply Hin, Hsub.
    + intros Htm. apply Hout. intros Htm'. by apply Htm, Hstay.
    + intros _ Htm. by apply Hstay.
  - (* an exit timer *)
    unfold removeToast.
    assert (Hnd : ∀ t, t ∈ filter (λ t, item_id t ≠ j) (toasts wq) →
                       timer_delay t = None).
    { intros t [_ Ht]%list_elem_of_filter.
      apply timer_delay_of_exiting, Hex. by rewrite <-Htq. }
    assert (Hsub2 : ∀ y, y ∈ pending (store_update (filter (λ t, item_id t ≠ j)) wq)
                         → y ∈ q).
    { intros y Hy. unfold store_update in Hy.
      apply timer_effect_no_delay in Hy; [|done]. simpl in Hy.
      by rewrite Hpq in Hy. }
    assert (Hlen : (length (pending (store_update (filter (λ t, item_id t ≠ j)) wq))
                    ≤ length q)%nat).
    { unfold store_update.
      etrans; [by apply timer_effect_no_delay_length|]. simpl.
      by rewrite Hpq. }
    assert (Hkeep : x ≠ tm → tm ∈ pending w →
              tm ∈ pending (store_update (filter (λ t, item_id t ≠ j)) wq)).
    { intros Hne Htm. apply exit_timer_kept.
      - by destruct Hwfq.
      - rewrite Hpq. by apply Hstay.
      - unfold is_dismiss. by rewrite Hcb. }
    rewrite store_update_toasts, Htq.
    split; [split; [|split; [|split]]|split; [done|lia]].
    + by apply (wf_filter (λ t, item_id t ≠ j)).
    + intros y Hy. by apply Honly, Hsub, Hsub2.
    + intros Htm. pose proof (Hsub tm (Hsub2 tm Htm)) as [Htm' Hne].
      assert (Hj : j ≠ i).
      { intros ->. apply Hne. symmetry. by apply Honly. }
      rewrite (Hin Htm').
      clear -Hflag Hj. induction flagged as [|a l IH]; [done|].
      rewrite filter_cons, decide_True.
      * f_equal. apply IH. intros t Ht. apply Hflag. by right.
      * destruct (Hflag a) as [-> _]; [by left|done].
    + intros Htm.
      destruct (decide (tm ∈ pending w)) as [Htm'|Htm'];
        [|by rewrite (Hout Htm')].
      destruct (decide (x = tm)) as [->|Hne];
        [|by destruct Htm; apply Hkeep].
      rewrite (Hin Htm'). apply filter_none. intros t Ht Hid. apply Hid.
      rewrite Hcb in Hcx. injection Hcx as <-. by apply Hflag.
Qed.

(** From a world in which a dismissed toast waits for its exit timer: the
    store holds the flagged records at every instant before the timer is
    due, and is empty at that instant. *)
Lemma exit_timeline w i flagged tm :
  cb tm = CbRemove i →
  (∀ t, t ∈ flagged → item_id t = i ∧ item_exiting t = true) →
  exiting_alone i tm flagged w → tm ∈ pending w →
  (∀ fuel until, until < due tm → toasts (run fuel until w) = flagged)
  ∧ (∀ fuel, (length (pending w) ≤ fuel)%nat →
       toasts (run fuel (due tm) w) = []).
Proof.
  intros Hcb Hflag Hal Htm.
  assert (Hclock : ∀ w c, exiting_alone i tm flagged w →
                          exiting_alone i tm flagged (set_clock c w)).
  { intros w0 c (Hwf & H1 & H2 & H3). split; [by apply wf_set_clock|done]. }
  split.
  - intros fuel until Hlt.
    cut (exiting_alone i tm flagged (run fuel until w)
         ∧ tm ∈ pending (run fuel until w)).
    { intros [(_ & _ & Hin & _) Hp]. by apply Hin. }
    apply (run_keeps (λ w, exiting_alone i tm flagged w ∧ tm ∈ pending w)).
    + intros w0 c [H1 H2]. split; [by apply Hclock|done].
    + intros w0 x [H1 H2] Hx Hdue.
      destruct (exit_window w0 i flagged tm x Hcb Hflag H1 Hx) as (Ha & Hb & _).
      split; [done|]. apply Hb; [|done]. intros ->. lia.
    + done.
  - intros fuel Hlen.
    assert (Hend : exiting_alone i tm flagged (run fuel (due tm) w)).
    { apply (run_keeps (exiting_alone i tm flagged)); [done| |done].
      intros w0 x H1 Hx _.
      by destruct (exit_window w0 i flagged tm x Hcb Hflag H1 Hx). }
    assert (Hset : settled_until (due tm) (run fuel (due tm) w)).
    { apply (run_drains (exiting_alone i tm flagged)); [|done|done].
      intros w0 x H1 Hx _.
      by destruct (exit_window w0 i flagged tm x Hcb Hflag H1 Hx)
        as (? & _ & ?). }
    destruct Hend as (_ & _ & _ & Hout). apply Hout.
    intros Hp. specialize (Hset tm Hp). lia.
Qed.

(** The claim of C4 as the spec words it fails in a world the calls of the
    interface lead to: a toast that was dismissed, brought back by an
    update and dismissed again 200 ms after the first dismissal is removed
    by the exit timer of the first dismissal, 400 ms after the second one
    and 200 ms before the exit timer of the second one is due. *)
Lemma leftover_exit_timer_removes_early :
  reachable revived
  ∧ (∃ t, find_id (item_id saved_item) (toasts revived) = Some t
          ∧ item_exiting t = false)
  ∧ clock revived = 200
  ∧ due (exit_timer (item_id saved_item) revived) = 800
  ∧ toasts (run 1 600 (dismissToast (item_id saved_item) revived)) = []
  ∧ ¬ removed_on_time (item_id saved_item) revived.
Proof.
  assert (Hgone : toasts (run 1 600
                            (dismissToast (item_id saved_item) revived)) = [])
    by (vm_compute; reflexivity).
  split; [|split; [|split; [|split; [|split]]]].
  - exists [EvCreate (titled "Saved" (val 3000)) e0 e0;
            EvDismiss (item_id saved_item); EvWait 100;
            EvUpdate (item_id saved_item) (titled "Done" undefined) e0;
            EvWait 100].
    vm_compute. reflexivity.
  - assert (H : item_exiting <$> find_id (item_id saved_item) (toasts revived)
                = Some false) by (vm_compute; reflexivity).
    destruct (find_id (item_id saved_item) (toasts revived)) as [t|];
      [|discriminate].
    exists t. split; [done|]. by injection H.
  - vm_compute. reflexivity.
  - vm_compute. reflexivity.
  - exact Hgone.
  - intros [Hbefore _].
    assert (Hlt : 600 < clock revived + EXIT_DURATION)
      by (vm_compute; reflexivity).
    destruct (Hbefore 1%nat 600 Hlt) as [t Ht].
    rewrite Hgone in Ht. discriminate.
Qed.

(** C4, amended. Dismissing the id of a live record flags every record of
    that id as exiting before the call returns and leaves every other
    record as and where it is; it registers one exit timer, due exactly
    [EXIT_DURATION] = 600 ms later, whose callback removes the records of
    that id and keeps the others in order. In a reachable world in which
    no exit timer of an earlier dismissal of that id is still pending,
    whatever else is due in the meantime, the record is in the store at
    every instant before that one and gone at it. *)
Theorem dismiss_live_record w i t :
  find_id i (toasts w) = Some t → item_exiting t = false →
  (toasts (dismissToast i w)
   = map (λ t, if bool_decide (item_id t = i) then mark_exiting t else t)
       (toasts w))
  ∧ (∀ t', t' ∈ toasts (dismissToast i w) →
       item_id t' = i → item_exiting t' = true)
  ∧ (∀ k t', item_id t' ≠ i →
       toasts (dismissToast i w) !! k = Some t' ↔ toasts w !! k = Some t')
  ∧ (∃ rest, pending (dismissToast i w) = rest ++ [exit_timer i w])
  ∧ due (exit_timer i w) = clock w + 600
  ∧ clock (dismissToast i w) = clock w
  ∧ (∀ w2, toasts (fire (exit_timer i w) w2)
           = filter (λ t, item_id t ≠ i) (toasts w2))
  ∧ (reachable w → (∀ x, x ∈ pending w → cb x ≠ CbRemove i) →
     (∀ fuel until, until < clock w + 600 →
        toasts (run fuel until (dismissToast i w))
        = [mark_exiting t])
     ∧ (∀ fuel, (length (pending (dismissToast i w)) ≤ fuel)%nat →
          toasts (run fuel (clock w + 600) (dismissToast i w)) = [])).
Proof.
  intros Hfind Hlive.
  pose proof (dismissToast_live_toasts w i t Hfind Hlive) as Htoasts.
  pose proof (dismissToast_live_clock w i t Hfind Hlive) as Hclock.
  pose proof (dismissToast_live_pending w i t Hfind Hlive) as Hpend.
  pose proof (exit_timer_due i w) as Hdue.
  pose proof (exit_timer_cb i w) as Hcb.
  pose proof (find_id_Some _ _ _ Hfind) as [Hin Hid].
  assert (Hwf : reachable w → wf (dismissToast i w)).
  { intros Hr. apply wf_dismissToast. by apply reachable_wf. }
  assert (Hone : reachable w → toasts (dismissToast i w) = [mark_exiting t]).
  { intros (_ & _ & Hs)%reachable_wf.
    rewrite Htoasts, (single_toast w t Hs Hin). simpl.
    by rewrite bool_decide_eq_true_2. }
  assert (Hold : reachable w → ∀ y, y ∈ pending (dismissToast i w) →
                   y = exit_timer i w ∨ y ∈ pending w).
  { intros (_ & _ & Hs)%reachable_wf y. rewrite Hpend.
    intros [Hy| ->%list_elem_of_singleton]%elem_of_app; [right|by left].
    unfold store_update in Hy. rewrite (single_toast w t Hs Hin) in Hy.
    apply timer_effect_no_delay in Hy; [done|].
    simpl. rewrite bool_decide_eq_true_2 by done.
    by intros t' ->%list_elem_of_singleton. }
  assert (Hlast : exit_timer i w ∈ pending (dismissToast i w)).
  { rewrite Hpend. apply elem_of_app. right. by left. }
  generalize dependent (dismissToast i w).
  intros w' Htoasts Hclock Hpend Hwf Hone Hold Hlast.
  split; [exact Htoasts|].
  split.
  { intros t' Ht' Hid'. rewrite Htoasts in Ht'.
    apply list_elem_of_fmap in Ht' as (t0 & -> & _).
    case_bool_decide; [done|]. by simpl in Hid'. }
  split.
  { intros k t' Hne. rewrite Htoasts.
    match goal with
    | |- map ?f ?l !! _ = _ ↔ _ => change (map f l) with (f <$> l)
    end.
    rewrite list_lookup_fmap.
    destruct (toasts w !! k) as [t0|]; simpl; [|done].
    case_bool_decide as Ht0; [|done].
    split; intros [= <-]; by simpl in *. }
  split; [by eexists|].
  split; [done|].
  split; [done|].
  split; [intros w2; by apply fire_remove_toasts|].
  intros Hr Hnone. rewrite <-Hdue.
  apply (exit_timeline w' i [mark_exiting t] (exit_timer i w)); [done| | |done].
  - by intros t' ->%list_elem_of_singleton.
  - split; [by apply Hwf|]. split; [|split; [intros _; by apply Hone|done]].
    intros y Hy Hcy. destruct (Hold Hr y Hy) as [->|Hy']; [done|].
    by destruct (Hnone y Hy').
Qed.

(** Everyday instance: the toast of [saved], due to expire at 3000 ms, is
    dismissed at 2700 ms; its own dismiss timer fires at 3000 ms to no
    effect, and the record is gone at 3300 ms. *)
Lemma dismiss_live_record_witness :
  clock late = 2700
  ∧ toasts (run 2 (clock late + 600)
              (dismissToast (item_id saved_item) late)) = [].
Proof.
  split; [vm_compute; reflexivity|].
  refine (proj2 (proj2 (proj2 (proj2 (proj2 (proj2 (proj2 (proj2
    (dismiss_live_record late (item_id saved_item) saved_item _ _)))))))
    _ _) 2%nat _).
  - vm_compute; reflexivity.
  - reflexivity.
  - exists [EvCreate (titled "Saved" (val 3000)) e0 e0; EvWait 2700].
    vm_compute; reflexivity.
  - intros x Hx. vm_compute in Hx.
    apply list_elem_of_singleton in Hx as ->. discriminate.
  - vm_compute. lia.
Defined.

End ToastFacts.

(** * Facts about the widget *)

Module WidgetFacts.

Import Toast Widget.

Lemma open_render w : open (render w) = open w.
Proof. unfold render. by destruct (open w) eqn:E. Qed.

Lemma view_render w : view (render w) = view w.
Proof. unfold render. by destruct (open w). Qed.

Lemma expanded_render w : expanded (render w) = expanded w.
Proof.
  unfold expanded. rewrite open_render. unfold render.
  by destruct (open w) eqn:E.
Qed.

Lemma rendered_render w : rendered (render w).
Proof.
  unfold rendered. rewrite open_render. intros Ho. unfold render.
  by rewrite Ho.
Qed.

Lemma rendered_expanded w : rendered w → expanded w = frozenExpandedRef w.
Proof.
  unfold rendered, expanded. destruct (open w); [|done]. intros H.
  by rewrite H.
Qed.

Lemma rendered_mount p : rendered (mount p).
Proof. unfold rendered, mount, open. simpl. by rewrite andb_false_r. Qed.

(** No handler, effect or timer writes the ref: only the render does. *)
Lemma handle_event_frozen ev w :
  frozenExpandedRef (handle_event ev w) = frozenExpandedRef w.
Proof.
  destruct ev; simpl;
    unfold handleEnter, handleLeave, measure, refresh, swapTimerFire,
      handleTransitionEnd, autoEffect, autoExpandFire, autoCollapseFire,
      commit_view;
    repeat (case_match || case_bool_decide); done.
Qed.

Lemma step_closed ev w :
  open (step ev w) = false →
  frozenExpandedRef (step ev w) = frozenExpandedRef w
  ∧ expanded (step ev w) = frozenExpandedRef w.
Proof.
  unfold step. rewrite open_render. intros Ho.
  unfold expanded. rewrite open_render, Ho. unfold render. rewrite Ho.
  split; apply handle_event_frozen.
Qed.

Lemma closed_trace evs w :
  closed_along evs w = true →
  frozenExpandedRef (steps evs w) = frozenExpandedRef w.
Proof.
  revert w. induction evs as [|ev evs IH]; intros w; simpl; [done|].
  intros [Ho Hc]%andb_true_iff. apply negb_true_iff in Ho.
  unfold steps in *. rewrite (IH _ Hc).
  by destruct (step_closed ev w Ho).
Qed.

Lemma rendered_steps evs w : rendered w → rendered (steps evs w).
Proof.
  intros Hr. induction evs as [|ev evs IH] using rev_ind; [done|].
  unfold steps. rewrite foldl_app. simpl. apply rendered_render.
Qed.

(** Measurements of a collapsed widget change the measured height and
    nothing else. *)
Lemma measures_while_collapsed hs w :
  isExpanded w = false →
  view (steps (EvMeasure <$> hs) w) = view w
  ∧ isExpanded (steps (EvMeasure <$> hs) w) = false
  ∧ pendingRef (steps (EvMeasure <$> hs) w) = pendingRef w
  ∧ swapTimerRef (steps (EvMeasure <$> hs) w) = swapTimerRef w
  ∧ frozenExpandedRef (steps (EvMeasure <$> hs) w) = frozenExpandedRef w.
Proof.
  revert w. induction hs as [|h hs IH]; intros w He; [done|].
  assert (Hstep : view (step (EvMeasure h) w) = view w
                  ∧ isExpanded (step (EvMeasure h) w) = false
                  ∧ pendingRef (step (EvMeasure h) w) = pendingRef w
                  ∧ swapTimerRef (step (EvMeasure h) w) = swapTimerRef w
                  ∧ frozenExpandedRef (step (EvMeasure h) w)
                    = frozenExpandedRef w).
  { unfold step, render. simpl.
    assert (Ho : open (measure h w) = false).
    { unfold open, measure. destruct (hasDesc w); [destruct h|]; simpl;
        rewrite He; by rewrite ?andb_false_r. }
    rewrite Ho. unfold measure.
    destruct (hasDesc w); [destruct h|]; done. }
  destruct Hstep as (Hv & He' & Hp & Hs & Hf).
  destruct (IH (step (EvMeasure h) w) He') as (Hv2 & He2 & Hp2 & Hs2 & Hf2).
  change (steps (EvMeasure <$> h :: hs) w)
    with (steps (EvMeasure <$> hs) (step (EvMeasure h) w)).
  rewrite Hv2, He2, Hp2, Hs2, Hf2. by rewrite Hv, Hp, Hs, Hf.
Qed.

(** C6. From a rendered state on, as long as the widget is collapsed after
    every event, the expanded height is the value of the ref, which no
    event changes, whatever is measured. When the content is replaced
    while the widget is open, the refresh keeps the old view, stages the
    new one and collapses the widget; through any measurements that follow
    the expanded height stays what was committed while open, and the view
    stays the old one, until the swap timer commits the staged view. *)
Theorem frozen_while_collapsed w :
  rendered w →
  (∀ evs, closed_along evs w = true →
     expanded (steps evs w) = expanded w
     ∧ frozenExpandedRef (steps evs w) = frozenExpandedRef w)
  ∧ (∀ p k, open w = true → refreshKey p = Some k →
       lastRefreshKeyRef w ≠ Some k →
       open (step (EvRefresh p) w) = false
       ∧ ∀ hs,
           expanded (steps (EvMeasure <$> hs) (step (EvRefresh p) w))
           = expanded w
           ∧ view (steps (EvMeasure <$> hs) (step (EvRefresh p) w)) = view w
           ∧ pendingRef (steps (EvMeasure <$> hs) (step (EvRefresh p) w))
             = Some (Some k, next p)
           ∧ view (step EvSwapTimer
                     (steps (EvMeasure <$> hs) (step (EvRefresh p) w)))
             = next p).
Proof.
  intros Hr. split.
  - intros evs Hc. pose proof (closed_trace evs w Hc) as Hf.
    split; [|done].
    rewrite (rendered_expanded _ (rendered_steps evs w Hr)).
    by rewrite (rendered_expanded w Hr).
  - intros p k Ho Hk Hlast.
    assert (Hh : handle_event (EvRefresh p) w
                 = {| view := view w; applied := applied w;
                      isExpanded := false;
                      contentHeight := contentHeight w;
                      frozenExpandedRef := frozenExpandedRef w;
                      pendingRef := Some (Some k, next p);
                      lastRefreshKeyRef := Some k;
                      swapTimerRef := true;
                      autoExpandRef := autoExpandRef w;
                      autoCollapseRef := autoCollapseRef w |}).
    { simpl. unfold refresh. rewrite Hk.
      rewrite bool_decide_eq_false_2 by done. by rewrite Ho. }
    assert (Hs : step (EvRefresh p) w = handle_event (EvRefresh p) w).
    { unfold step, render. rewrite Hh. unfold open. simpl.
      by rewrite andb_false_r. }
    assert (Hclosed : open (step (EvRefresh p) w) = false).
    { rewrite Hs, Hh. unfold open. simpl. by rewrite andb_false_r. }
    split; [done|]. intros hs.
    destruct (measures_while_collapsed hs (step (EvRefresh p) w))
      as (Hv & He & Hp & Hsw & Hf); [by rewrite Hs, Hh|].
    set (w' := steps (EvMeasure <$> hs) (step (EvRefresh p) w)) in *.
    assert (Ho' : open w' = false).
    { unfold open. rewrite He. by rewrite andb_false_r. }
    split; [|split; [|split]].
    + unfold expanded at 1. rewrite Ho', Hf, Hs, Hh. simpl.
      by rewrite (rendered_expanded w Hr).
    + by rewrite Hv, Hs, Hh.
    + by rewrite Hp, Hs, Hh.
    + unfold step. rewrite view_render. simpl. unfold swapTimerFire.
      by rewrite Hsw, Hp, Hs, Hh.
Qed.

Lemma frozen_while_collapsed_witness :
  rendered opened
  ∧ expanded (steps [EvLeave; EvMeasure (Some 300)] opened) = 160.
Proof.
  assert (Hr : rendered opened) by (intros _; reflexivity).
  split; [exact Hr|].
  destruct (frozen_while_collapsed opened Hr) as [Hc _].
  destruct (Hc [EvLeave; EvMeasure (Some 300)] eq_refl) as [He _].
  rewrite He. reflexivity.
Defined.


(** ** Who may expand *)

Lemma open_loading w : isLoading w = true → open w = false.
Proof. unfold open. intros ->. by rewrite andb_false_r. Qed.

Lemma allowExpand_owned p w : owned_by_other p → allowExpand p w = false.
Proof.
  unfold allowExpand. destruct (isLoading w); [done|].
  intros [->|[-> (k & -> & Hk & Hne)]]; [done|].
  rewrite Hk. simpl. by apply bool_decide_eq_false_2.
Qed.

(** What the auto effect does when expansion is not allowed: the widget is
    collapsed unless it has no body at all, and neither timer is armed. *)
Lemma autoEffect_denied p w :
  allowExpand p w = false →
  autoExpandRef (autoEffect p w) = None
  ∧ autoCollapseRef (autoEffect p w) = None
  ∧ (hasDesc w = true → isExpanded (autoEffect p w) = false).
Proof.
  intros Ha. unfold autoEffect.
  destruct (hasDesc w); simpl; [|done].
  rewrite Ha. simpl. by rewrite orb_true_r.
Qed.

(** The claim of C7 as the spec words it fails for hover-in: a widget with
    a description, told by [canExpand = false] that another notification
    owns expansion, opens when the pointer enters it. *)
Lemma hover_expands_sidelined :
  ¬ hover_blocked sidelined (mount sidelined).
Proof.
  unfold hover_blocked. intros H.
  assert (Ho : owned_by_other sidelined) by (by left).
  specialize (H Ho). vm_compute in H. discriminate.
Qed.

(** C7, amended. A widget whose view is in state "loading" is not open,
    expansion is not allowed for it, and it is still not open after
    hover-in, after the auto-expand timer or after the auto effect. When
    the props give expansion to another notification, expansion is not
    allowed, and the auto effect arms no timer and collapses a widget that
    has a body. Hover-in does not look at the props: it opens every widget
    that has a body and is not loading. *)
Theorem loading_never_open p w :
  (isLoading w = true →
     open w = false ∧ allowExpand p w = false
     ∧ open (step EvEnter w) = false
     ∧ open (step EvAutoExpand w) = false
     ∧ open (step (EvAutoEffect p) w) = false
     ∧ autoExpandRef (step (EvAutoEffect p) w) = None
     ∧ autoCollapseRef (step (EvAutoEffect p) w) = None)
  ∧ (owned_by_other p →
     allowExpand p w = false
     ∧ autoExpandRef (step (EvAutoEffect p) w) = None
     ∧ autoCollapseRef (step (EvAutoEffect p) w) = None
     ∧ open (step (EvAutoEffect p) w) = false)
  ∧ (hasDesc w = true → isLoading w = false → open (step EvEnter w) = true).
Proof.
  assert (Hview : ∀ ev, ev = EvEnter ∨ ev = EvAutoExpand ∨ ev = EvAutoEffect p →
            view (handle_event ev w) = view w).
  { intros ev [->|[->| ->]]; simpl;
      unfold handleEnter, autoExpandFire, autoEffect;
      repeat (case_match || case_bool_decide); done. }
  assert (Hdenied : allowExpand p w = false →
            autoExpandRef (step (EvAutoEffect p) w) = None
            ∧ autoCollapseRef (step (EvAutoEffect p) w) = None
            ∧ open (step (EvAutoEffect p) w) = false).
  { intros Ha. destruct (autoEffect_denied p w Ha) as (He & Hc & Hx).
    assert (Ho : open (autoEffect p w) = false).
    { pose proof (Hview (EvAutoEffect p)) as Hv. simpl in Hv.
      unfold open, hasDesc, isLoading. rewrite Hv by auto.
      fold (hasDesc w). fold (isLoading w).
      destruct (hasDesc w); [|done]. by rewrite Hx. }
    unfold step, render. simpl. by rewrite Ho. }
  assert (Hload : ∀ ev, ev = EvEnter ∨ ev = EvAutoExpand ∨ ev = EvAutoEffect p →
            isLoading w = true → open (step ev w) = false).
  { intros ev Hev Hl. unfold step. rewrite open_render. apply open_loading.
    unfold isLoading. rewrite (Hview ev Hev). exact Hl. }
  split; [|split].
  - intros Hl.
    assert (Ha : allowExpand p w = false) by (unfold allowExpand; by rewrite Hl).
    destruct (Hdenied Ha) as (He & Hc & _).
    repeat split; auto using open_loading.
  - intros Ho. pose proof (allowExpand_owned p w Ho) as Ha.
    destruct (Hdenied Ha) as (He & Hc & Hop). done.
  - intros Hd Hl. unfold step. rewrite open_render. simpl.
    unfold handleEnter. rewrite Hd. unfold open, hasDesc, isLoading in *.
    simpl. by rewrite Hd, Hl.
Qed.

Lemma loading_never_open_witness :
  isLoading (mount loading_props) = true
  ∧ open (step EvEnter (mount loading_props)) = false.
Proof.
  assert (Hl : isLoading (mount loading_props) = true) by reflexivity.
  split; [exact Hl|].
  destruct (loading_never_open loading_props (mount loading_props))
    as (Hload & _ & _).
  destruct (Hload Hl) as (_ & _ & He & _). exact He.
Defined.


(** ** Heights *)

Lemma rawExpanded_min w : 90 ≤ rawExpanded w.
Proof.
  unfold rawExpanded. change minExpanded with 90.
  destruct (hasDesc w); lia.
Qed.

Lemma frozen_min p evs : 90 ≤ frozenExpandedRef (steps evs (mount p)).
Proof.
  induction evs as [|ev evs IH] using rev_ind.
  - simpl. apply rawExpanded_min.
  - unfold steps in *. rewrite foldl_app. simpl.
    unfold step at 1, render.
    destruct (open _); simpl; [apply rawExpanded_min|].
    by rewrite handle_event_frozen.
Qed.

(** X14. In every state that the widget reaches after mounting, the
    expanded height is at least 90 px ([HEIGHT * MIN_EXPAND_RATIO]), so
    the scale [HEIGHT / expanded] of the collapsed pill is defined and
    below one half; the body rectangle is [expanded - 40] px high, at
    least 50, and the drawing is as high as [expanded] when there is a
    body and 40 px when there is none. *)
Theorem expanded_height_bounds p evs :
  90 ≤ expanded (steps evs (mount p))
  ∧ 2 * HEIGHT < expanded (steps evs (mount p))
  ∧ expandedContent (steps evs (mount p))
    = expanded (steps evs (mount p)) - 40
  ∧ svgHeight (steps evs (mount p))
    = if hasDesc (steps evs (mount p))
      then expanded (steps evs (mount p)) else 40.
Proof.
  assert (H : 90 ≤ expanded (steps evs (mount p))).
  { unfold expanded. destruct (open _);
      [apply rawExpanded_min|apply frozen_min]. }
  split; [done|]. split; [change HEIGHT with 40; lia|].
  split.
  - unfold expandedContent. change HEIGHT with 40. lia.
  - unfold svgHeight. change minExpanded with 90. change HEIGHT with 40.
    destruct (hasDesc _); [lia|done].
Qed.

(** ** Committing a staged view *)

(** X15. A staged view is committed once, by whichever comes first of the
    swap timer and the end of the collapse transition; the other one then
    changes nothing. *)
Theorem staged_view_committed_once w k v :
  pendingRef w = Some (k, v) →
  (swapTimerRef w = true →
     view (swapTimerFire w) = v ∧ applied (swapTimerFire w) = k
     ∧ pendingRef (swapTimerFire w) = None
     ∧ handleTransitionEnd (swapTimerFire w) = swapTimerFire w)
  ∧ (open w = false →
     view (handleTransitionEnd w) = v ∧ applied (handleTransitionEnd w) = k
     ∧ pendingRef (handleTransitionEnd w) = None
     ∧ swapTimerFire (handleTransitionEnd w) = handleTransitionEnd w).
Proof.
  intros Hp. split.
  - intros Hs. unfold swapTimerFire. rewrite Hs, Hp.
    repeat split. unfold handleTransitionEnd. simpl.
    by destruct (open _).
  - intros Ho. unfold handleTransitionEnd. rewrite Ho, Hp.
    repeat split.
Qed.

Lemma staged_view_committed_once_witness :
  pendingRef (step (EvRefresh replaced_props) opened)
  = Some (Some "2", failed_view)
  ∧ swapTimerRef (step (EvRefresh replaced_props) opened) = true
  ∧ view (swapTimerFire (step (EvRefresh replaced_props) opened))
    = failed_view.
Proof.
  assert (Hp : pendingRef (step (EvRefresh replaced_props) opened)
               = Some (Some "2", failed_view)) by reflexivity.
  assert (Hs : swapTimerRef (step (EvRefresh replaced_props) opened) = true)
    by reflexivity.
  split; [exact Hp|]. split; [exact Hs|].
  exact (proj1 (proj1 (staged_view_committed_once _ _ _ Hp) Hs)).
Defined.

Lemma open_collapsed w : isExpanded w = false → open w = false.
Proof. unfold open. intros ->. by rewrite andb_false_r. Qed.

Lemma nothing_staged w :
  isExpanded w = false → pendingRef w = None → swapTimerRef w = false →
  step EvSwapTimer w = w ∧ step EvTransitionEnd w = w.
Proof.
  intros He Hp Hs. pose proof (open_collapsed w He) as Ho.
  unfold step, render. simpl. unfold swapTimerFire, handleTransitionEnd.
  by rewrite Hs, Ho, Hp, Ho.
Qed.

(** X16. Of two replacements in a row the later one wins: when the second
    arrives while the first is still staged, it is applied at once, the
    staged one is dropped and its swap timer cleared, so that neither the
    timer nor a transition end can bring the older content back. *)
Theorem latest_refresh_wins w p1 p2 k1 k2 :
  open w = true →
  refreshKey p1 = Some k1 → lastRefreshKeyRef w ≠ Some k1 →
  refreshKey p2 = Some k2 → k2 ≠ k1 →
  view (step (EvRefresh p2) (step (EvRefresh p1) w)) = next p2
  ∧ applied (step (EvRefresh p2) (step (EvRefresh p1) w)) = Some k2
  ∧ pendingRef (step (EvRefresh p2) (step (EvRefresh p1) w)) = None
  ∧ swapTimerRef (step (EvRefresh p2) (step (EvRefresh p1) w)) = false
  ∧ step EvSwapTimer (step (EvRefresh p2) (step (EvRefresh p1) w))
    = step (EvRefresh p2) (step (EvRefresh p1) w)
  ∧ step EvTransitionEnd (step (EvRefresh p2) (step (EvRefresh p1) w))
    = step (EvRefresh p2) (step (EvRefresh p1) w).
Proof.
  intros Ho Hk1 Hlast Hk2 Hne.
  assert (H1 : step (EvRefresh p1) w
               = {| view := view w; applied := applied w;
                    isExpanded := false;
                    contentHeight := contentHeight w;
                    frozenExpandedRef := frozenExpandedRef w;
                    pendingRef := Some (Some k1, next p1);
                    lastRefreshKeyRef := Some k1;
                    swapTimerRef := true;
                    autoExpandRef := autoExpandRef w;
                    autoCollapseRef := autoCollapseRef w |}).
  { unfold step, render. simpl. unfold refresh. rewrite Hk1.
    rewrite bool_decide_eq_false_2 by done. rewrite Ho.
    unfold open. simpl. by rewrite andb_false_r. }
  rewrite H1. clear H1.
  assert (H2 : ∀ w1, isExpanded w1 = false →
            lastRefreshKeyRef w1 = Some k1 →
            step (EvRefresh p2) w1
            = {| view := next p2; applied := Some k2; isExpanded := false;
                 contentHeight := contentHeight w1;
                 frozenExpandedRef := frozenExpandedRef w1;
                 pendingRef := None; lastRefreshKeyRef := Some k2;
                 swapTimerRef := false;
                 autoExpandRef := autoExpandRef w1;
                 autoCollapseRef := autoCollapseRef w1 |}).
  { intros w1 He Hl. unfold step, render. simpl. unfold refresh.
    rewrite Hk2, Hl. rewrite bool_decide_eq_false_2 by congruence.
    assert (Hc : open w1 = false)
      by (unfold open; rewrite He; by rewrite andb_false_r).
    rewrite Hc, He. unfold open. simpl. by rewrite andb_false_r. }
  rewrite H2 by done.
  split; [done|]. split; [done|]. split; [done|]. split; [done|].
  by apply nothing_staged.
Qed.

Lemma latest_refresh_wins_witness :
  open opened = true
  ∧ view (step (EvRefresh loading_props)
            (step (EvRefresh replaced_props) opened)) = loading_view.
Proof.
  split; [reflexivity|].
  refine (proj1 (latest_refresh_wins opened replaced_props loading_props
                   "2" "1" eq_refl eq_refl _ eq_refl _)).
  - vm_compute. discriminate.
  - discriminate.
Defined.


(** ** The header layer *)

(** X17. Through any sequence of view changes and exit timers, the
    current header layer shows the latest view under that view's key, and
    a previous layer, while there is one, has another key than the current
    one: the two layers that are rendered side by side never share a
    React key. *)
Theorem header_layers_distinct v0 evs :
  l_key (current (foldl header_step (initialHeader v0) evs))
  = headerKey (l_view (current (foldl header_step (initialHeader v0) evs)))
  ∧ (∀ p, prev (foldl header_step (initialHeader v0) evs) = Some p →
       l_key p ≠ l_key (current (foldl header_step (initialHeader v0) evs)))
  ∧ (∀ v, current (updateHeader v (foldl header_step (initialHeader v0) evs))
          = mkLayer (headerKey v) v).
Proof.
  assert (Hinv : l_key (current (foldl header_step (initialHeader v0) evs))
      = headerKey (l_view (current (foldl header_step (initialHeader v0) evs)))
      ∧ ∀ p, prev (foldl header_step (initialHeader v0) evs) = Some p →
          l_key p ≠ l_key (current (foldl header_step (initialHeader v0) evs))).
  { induction evs as [|ev evs [IH1 IH2]] using rev_ind; [done|].
    rewrite foldl_app. simpl.
    generalize dependent (foldl header_step (initialHeader v0) evs).
    intros st IH1 IH2. destruct ev as [v|]; simpl; [|done].
    unfold updateHeader. case_bool_decide as Hk.
    - case_bool_decide; [done|]. simpl. split; [done|].
      intros p Hp. rewrite <-Hk. by apply IH2.
    - simpl. split; [done|]. by intros p [= <-]. }
  destruct Hinv as [H1 H2]. split; [done|]. split; [done|].
  intros v. generalize dependent (foldl header_step (initialHeader v0) evs).
  intros st H1 _. unfold updateHeader.
  case_bool_decide as Hk; [|done]. case_bool_decide as Hv; [|done].
  destruct (current st) as [k v']. simpl in *. by subst.
Qed.

(** ** Swiping a toast away *)

Lemma pointerMove_dragging start y g :
  dragging start g →
  dragging start (pointerMove y g)
  ∧ ∃ c, translateY (pointerMove y g) = Some c ∧ shown_offset (y - start) c.
Proof.
  intros [Hs Hl]. unfold pointerMove, onMove. rewrite Hl, Hs. simpl.
  split; [done|]. eexists. split; [done|].
  unfold shown_offset. change SWIPE_MAX with 20.
  case_bool_decide; lia.
Qed.

Lemma pointerUp_dragging p start y g :
  dragging start g →
  pointerUp p y g
  = (idle, bool_decide (SWIPE_DISMISS < Z.abs (y - start)) && sw_onDismiss p).
Proof. intros [Hs Hl]. unfold pointerUp, onUp. by rewrite Hl, Hs. Qed.




(** X19. No gesture starts on a toast that is exiting, or that has no
    [onDismiss], when the pointer goes down: from rest, whatever the
    sequence of pointer events and however the props change between them,
    as long as every pointer down finds the toast in that state, the toast
    is not displaced and [onDismiss] is never called. The test is made at
    pointer down only: a drag in progress goes on displacing the toast, and
    its release more than 30 px from the start calls the [onDismiss] of
    that moment, also when the toast has become exiting since the drag
    began. With [dismiss] set, a pointer down outside the action button
    calls [onDismiss] at once and starts no drag, and one on the button
    does nothing. *)
Theorem swipe_needs_live_toast p evs :
  (sw_exiting p = true ∨ sw_onDismiss p = false →
   pointer_run p evs = (idle, 0%nat))
  ∧ (∀ trace,
       (∀ q ev, (q, ev) ∈ trace → is_down ev = true →
          sw_exiting q = true ∨ sw_onDismiss q = false) →
       pointer_trace trace (idle, 0%nat) = (idle, 0%nat))
  ∧ (∀ q start g y, dragging start g →
       (dragging start (pointerMove y g)
        ∧ ∃ c, translateY (pointerMove y g) = Some c
               ∧ shown_offset (y - start) c)
       ∧ pointerUp q y g
         = (idle, bool_decide (30 < Z.abs (y - start)) && sw_onDismiss q))
  ∧ pointer_trace [(swipeable, PointerDown false 100);
                   (leaving, PointerMove 140);
                   (leaving, PointerUp 140)] (idle, 0%nat)
    = (idle, 1%nat)
  ∧ (sw_exiting p = false → sw_onDismiss p = true → sw_dismiss p = true →
     ∀ y g, handlePointerDown p false y g = (g, true)
            ∧ handlePointerDown p true y g = (g, false)).
Proof.
  split; [|split; [|split; [|split]]].
  - intros Hp. unfold pointer_run.
    induction evs as [|ev evs' IH] using rev_ind; [done|].
    rewrite foldl_app, IH. simpl.
    destruct ev as [b y|y|y]; simpl; [|done|done].
    unfold handlePointerDown.
    by destruct Hp as [-> | ->]; rewrite ?orb_true_r.
  - intros trace. unfold pointer_trace.
    induction trace as [|[q ev] trace IH] using rev_ind; [done|].
    intros Hall. rewrite foldl_app, IH.
    + simpl. destruct ev as [b y|y|y]; simpl; [|done|done].
      unfold handlePointerDown.
      destruct (Hall q (PointerDown b y)) as [-> | ->];
        rewrite ?orb_true_r; try done.
      apply elem_of_app. right. by left.
    + intros q' ev' Hin. apply Hall, elem_of_app. by left.
  - intros q start g y Hg.
    split; [by apply pointerMove_dragging|].
    by apply pointerUp_dragging.
  - vm_compute. reflexivity.
  - intros He Ho Hd y g. unfold handlePointerDown. by rewrite He, Ho, Hd.
Qed.

End WidgetFacts.
